(** * NeuroScan AI: the volumetric processing and segmentation engine

    A shallow embedding of the algorithm bodies of
    [src/components/ProcessingPanel.tsx] (histogram, threshold solvers,
    intensity transforms, segmentation), [src/components/Viewport.tsx]
    (the brush, the slice viewers and the bitmap of a slice),
    [src/utils/imageProcessing.ts] (the two study differences) and
    [src/utils/dicomUtils.ts] (the volume of a DICOM series), with the
    properties the specification states about them and further
    properties that the code has.

    Numbers.  A JavaScript number that holds a sample, an intensity bound
    or an intermediate of the arithmetic is a rational [Q] and the
    arithmetic on it is exact: the rounding of IEEE doubles, and of a
    store into a [Float32Array], is not part of the model.  Loop
    counters, voxel coordinates, flat indices, bin indices and counts are
    integers [Z]; a store into an integer array wraps around.  The values
    [Infinity] and [-Infinity], with which a running minimum and maximum
    start, are constructors of [ext]; NaN appears where the Li solver can
    produce it, as [None].  The Li solver, which takes logarithms, is
    stated over the real numbers [R].

    Arrays.  The two difference functions only read their arguments and
    take them by value.  The panel and the viewport share arrays and
    write into them; there the arrays live in a store, and a run is a
    function from the store to a result and a store. *)

From Stdlib Require Import ZArith QArith Qround Qabs Reals Lia Psatz.
From stdpp Require Import base list list_numbers strings.

Open Scope Z_scope.

(** ** Numbers *)

(** [x || 1]: the guard of the source against a zero intensity range. *)
Definition or_one (x : Q) : Q := if Qeq_bool x 0 then 1%Q else x.

(** A number that may be one of the two infinities. *)
Inductive ext : Type :=
  | NegInfinity
  | Fin (q : Q)
  | Infinity.

(** [val < m] and [val > m] for a finite [val] and a running bound [m]. *)
Definition lt_ext (val : Q) (m : ext) : bool :=
  match m with
  | NegInfinity => false
  | Fin q => if Qlt_le_dec val q then true else false
  | Infinity => true
  end.

Definition gt_ext (val : Q) (m : ext) : bool :=
  match m with
  | NegInfinity => true
  | Fin q => if Qlt_le_dec q val then true else false
  | Infinity => false
  end.

(** Two's complement wrap-around of a store into an [Int32Array]. *)
Definition to_int32 (z : Z) : Z := (z + 2 ^ 31) mod 2 ^ 32 - 2 ^ 31.

(** Wrap-around of a store into a [Uint8Array]. *)
Definition to_uint8 (z : Z) : Z := z mod 256.

(** ** Arrays

    A typed array is the list of its elements; an index is a JavaScript
    number, here an integer.  A read outside the array is [None]
    ([undefined] in the source), a write outside it changes nothing. *)

Definition zget {A} (l : list A) (i : Z) : option A :=
  if i <? 0 then None else l !! Z.to_nat i.

Definition zset {A} (l : list A) (i : Z) (x : A) : list A :=
  if i <? 0 then l else <[Z.to_nat i := x]> l.

Definition zlen {A} (l : list A) : Z := Z.of_nat (length l).

(** [histogram[i]] on an [Int32Array(256)] whose index stays in range. *)
Definition hget (h : list Z) (i : Z) : Z := default 0 (zget h i).

Definition sumZ (l : list Z) : Z := foldr Z.add 0 l.

(** ** Histogram estimator ([getHistogram], ProcessingPanel.tsx) *)

Record HistResult : Type := mkHist { histogram : list Z; step : Q }.

Definition hist_stride (len : Z) : Z :=
  if 2000000 <? len then len / 500000 else 1.

(** [Math.floor((val - min) * step)] *)
Definition bin_of (mn stp val : Q) : Z := Qfloor ((val - mn) * stp).

(** [histogram[bin]++] *)
Definition incr (h : list Z) (bin : Z) : list Z :=
  alter (fun c => to_int32 (c + 1)) (Z.to_nat bin) h.

(** The body of the scan loop for the sample [val]. *)
Definition hist_visit (mn stp : Q) (h : list Z) (val : Q) : list Z :=
  let bin := bin_of mn stp val in
  if (0 <=? bin) && (bin <? 256) then incr h bin else h.

(** [for (let i = 0; i < len; i += stride)], started at [i]; the fuel
    bounds the number of iterations, and [len] of it is enough since the
    stride is at least 1. *)
Fixpoint hist_loop (fuel : nat) (data : list Q) (mn stp : Q)
    (len stride i : Z) (h : list Z) : list Z :=
  match fuel with
  | O => h
  | S fuel' =>
      if i <? len then
        let h' := match zget data i with
                  | Some val => hist_visit mn stp h val
                  | None => h
                  end in
        hist_loop fuel' data mn stp len stride (i + stride) h'
      else h
  end.

Definition getHistogram (data : list Q) (mn mx : Q) : HistResult :=
  let histogram := replicate 256 0 in
  let range := or_one (mx - mn) in
  let stp := (256 / range)%Q in
  let len := zlen data in
  let stride := hist_stride len in
  mkHist (hist_loop (length data) data mn stp len stride 0 histogram) stp.

(** The samples the scan visits: indices 0, stride, 2*stride, ... below
    [len]; there are [ceil(len / stride)] of them. *)
Definition visited_count (len stride : Z) : Z := (len + stride - 1) / stride.

Definition visited_indices (len stride : Z) : list Z :=
  (fun k => k * stride) <$> seqZ 0 (visited_count len stride).



(** ** Typed arrays and volumes ([VolumeData], types.ts) *)

Inductive elt_kind : Type :=
  | Uint8 | Int16 | Uint16 | Int32 | Float32 | Float64.

(** Truncation toward zero, the first step of a store into an integer
    array. *)
Definition trunc (q : Q) : Z :=
  if Qlt_le_dec q 0 then Qceiling q else Qfloor q.

Definition wrap_signed (bits z : Z) : Z :=
  (z + 2 ^ (bits - 1)) mod 2 ^ bits - 2 ^ (bits - 1).

(** The value an array of kind [k] holds after [q] is stored in it.  The
    float kinds keep the stored number. *)
Definition coerce (k : elt_kind) (q : Q) : Q :=
  match k with
  | Uint8 => inject_Z (to_uint8 (trunc q))
  | Int16 => inject_Z (wrap_signed 16 (trunc q))
  | Uint16 => inject_Z (trunc q mod 2 ^ 16)
  | Int32 => inject_Z (to_int32 (trunc q))
  | Float32 | Float64 => q
  end.

Record tarray : Type := mkArr { kind : elt_kind; elems : list Q }.

(** [new K(len)]: a zero-filled array. *)
Definition new_array (k : elt_kind) (len : Z) : tarray :=
  mkArr k (replicate (Z.to_nat len) 0%Q).

(** [a[i]] and [a[i] = v]. *)
Definition aget (a : tarray) (i : Z) : option Q := zget (elems a) i.

Definition aset (a : tarray) (i : Z) (v : Q) : tarray :=
  mkArr (kind a) (zset (elems a) i (coerce (kind a) v)).

Definition alen (a : tarray) : Z := zlen (elems a).

(** The fields of the NIfTI header the engine reads or writes. *)
Record Header : Type := mkHeader {
  dims : list Z;
  pixDims : list Q;
  datatypeCode : Z
}.

(** [{ ...h, datatypeCode: c }] *)
Definition with_datatypeCode (h : Header) (c : Z) : Header :=
  mkHeader (dims h) (pixDims h) c.

(** A volume; [D] is what the [data] field holds: the array itself where
    a function only reads its arguments, a reference into the store where
    arrays are shared and written. *)
Record VolumeData (D : Type) : Type := mkVolume {
  header : Header;
  data : D;
  dimensions : Z * Z * Z;
  min : ext;
  max : ext
}.
Arguments mkVolume {D}.
Arguments header {D}.
Arguments data {D}.
Arguments dimensions {D}.
Arguments min {D}.
Arguments max {D}.

(** [v.data], for where a local [data] hides the field. *)
Definition volume_data {D} (v : VolumeData D) : D := data v.

(** The invariant of the data model: [data.length == dimX*dimY*dimZ]. *)
Definition well_formed (v : VolumeData tarray) : Prop :=
  let '(dimX, dimY, dimZ) := dimensions v in
  alen (data v) = dimX * dimY * dimZ.

(** ** Study difference engine (imageProcessing.ts) *)

(** The body of the subtraction loop: [val = B[i] - A[i]], stored, and the
    running minimum and maximum updated. *)
Definition diff_step (dataA dataB : tarray) (st : tarray * ext * ext) (i : Z)
    : tarray * ext * ext :=
  let '(diffData, mn, mx) := st in
  match aget dataB i, aget dataA i with
  | Some b, Some a =>
      let val := (b - a)%Q in
      (aset diffData i val,
       if lt_ext val mn then Fin val else mn,
       if gt_ext val mx then Fin val else mx)
  | _, _ => st
  end.

Definition computeVolumeDifference (volA volB : VolumeData tarray)
    : option (VolumeData tarray) :=
  if negb (alen (data volA) =? alen (data volB)) then None
  else
    let len := alen (data volA) in
    let diffData := new_array Float32 len in
    let '(diffData, mn, mx) :=
      foldl (diff_step (data volA) (data volB))
        (diffData, Infinity, NegInfinity) (seqZ 0 len) in
    Some (mkVolume (with_datatypeCode (header volA) 16) diffData
            (dimensions volA) mn mx).

(** [a[i] > 0]; the comparison is false on [undefined]. *)
Definition positive_at (a : tarray) (i : Z) : bool :=
  match aget a i with
  | Some v => if Qlt_le_dec 0 v then true else false
  | None => false
  end.

Definition seg_step (dataA dataB : tarray) (diffData : tarray) (i : Z) : tarray :=
  let valA := positive_at dataA i in
  let valB := positive_at dataB i in
  if valA && negb valB then aset diffData i 1
  else if negb valA && valB then aset diffData i 2
  else if valA && valB then aset diffData i 3
  else aset diffData i 0.

(** [segA ? segA.data.length : (segB ? segB.data.length : 0)] *)
Definition seg_len (segA segB : option (VolumeData tarray)) : Z :=
  match segA with
  | Some a => alen (data a)
  | None => match segB with Some b => alen (data b) | None => 0 end
  end.

Definition computeSegmentationDifference
    (segA segB : option (VolumeData tarray)) (dimRef : Z * Z * Z)
    : option (VolumeData tarray) :=
  match segA, segB with
  | None, None => None
  | _, _ =>
      let len := seg_len segA segB in
      if len =? 0 then None
      else
        let diffData := new_array Uint8 len in
        let dataA := match segA with
                     | Some a => data a | None => new_array Uint8 len end in
        let dataB := match segB with
                     | Some b => data b | None => new_array Uint8 len end in
        let diffData := foldl (seg_step dataA dataB) diffData (seqZ 0 len) in
        let '(d0, d1, d2) := dimRef in
        Some (mkVolume (mkHeader [3; d0; d1; d2; 1; 1; 1; 1] [] 2) diffData
                dimRef (Fin 0) (Fin 3))
  end.

(** Presence of voxel [i] in a mask that may be absent. *)
Definition present (seg : option (VolumeData tarray)) (i : Z) : bool :=
  match seg with
  | Some s => positive_at (data s) i
  | None => false
  end.

(** The four categories: 0 none, 1 disappeared, 2 new, 3 stable. *)
Definition category (inA inB : bool) : Q :=
  match inA, inB with
  | false, false => 0
  | true, false => 1
  | false, true => 2
  | true, true => 3
  end.

(** What the subtraction loop computes, as list functions: the
    element-wise differences and the running minimum and maximum over
    them. *)
Definition differences (dataA dataB : list Q) : list Q :=
  zip_with (fun a b => (b - a)%Q) dataA dataB.

Definition running_min (m : ext) (l : list Q) : ext :=
  foldl (fun m val => if lt_ext val m then Fin val else m) m l.

Definition running_max (m : ext) (l : list Q) : ext :=
  foldl (fun m val => if gt_ext val m then Fin val else m) m l.

(** A study of the comparison view and the difference computation the
    view runs on its first two studies ([handleComputeDiff]). *)
Record Study : Type := mkStudy {
  volume : VolumeData tarray;
  segmentation : option (VolumeData tarray)
}.

Definition handleComputeDiff (s0 s1 : Study)
    : option (VolumeData tarray) * option (VolumeData tarray) :=
  (computeVolumeDifference (volume s0) (volume s1),
   computeSegmentationDifference (segmentation s0) (segmentation s1)
     (dimensions (volume s0))).


(** ** Li's threshold ([computeLiThreshold]) *)

(** Weight and intensity sum of the [n] bins from [lo] on:
    [w += histogram[i]; sum += i * histogram[i]]. *)
Definition part_sums (h : list Z) (lo n : Z) : Z * Z :=
  foldl (fun '(w, s) i => (w + hget h i, s + i * hget h i)) (0, 0) (seqZ lo n).

(** [Math.round] of a finite number: the nearest integer, halves up. *)
Definition Math_round (x : R) : Z := Zfloor (x + / 2).

(** [Math.round((mF - mB) / (Math.log(mF) - Math.log(mB)))] for finite
    means.  [Math.log] is NaN below 0 and [-Infinity] at 0, so the
    quotient is NaN ([None]) when a mean is negative or both are 0 or
    both are equal, and it is 0 when just one mean is 0 (a finite
    numerator over an infinite denominator). *)
Definition li_update (mB mF : R) : option Z :=
  if Rlt_dec mB 0 then None
  else if Rlt_dec mF 0 then None
  else if Req_dec_T mB 0 then (if Req_dec_T mF 0 then None else Some 0)
  else if Req_dec_T mF 0 then Some 0
  else if Req_dec_T mF mB then None
  else Some (Math_round ((mF - mB) / (ln mF - ln mB))).

(** The iteration, [iters] rounds of it left.  [None] is a threshold that
    has become NaN.  A threshold above 255 makes the source read past the
    histogram, which turns [wB] into NaN; the foreground is then empty and
    the loop breaks on [wF === 0], as it does here, where [hget] reads 0
    past the histogram. *)
Fixpoint li_loop (iters : nat) (h : list Z) (threshold : Z) : option Z :=
  match iters with
  | O => Some threshold
  | S iters' =>
      let '(wB, sumB) := part_sums h 0 (threshold + 1) in
      let '(wF, sumF) := part_sums h (threshold + 1) (256 - (threshold + 1)) in
      if (wB =? 0) || (wF =? 0) then Some threshold
      else
        let mB := (IZR sumB / IZR wB)%R in
        let mF := (IZR sumF / IZR wF)%R in
        match li_update mB mF with
        | None => None
        | Some newThreshold =>
            if newThreshold =? threshold then Some threshold
            else li_loop iters' h newThreshold
        end
  end.

(** [None] when the mean is not a finite number ([total] is 0). *)
Definition computeLiThreshold (h : list Z) (total : Z) : option Z :=
  let mean := foldl (fun m i => m + i * hget h i) 0 (seqZ 0 256) in
  if total =? 0 then None
  else li_loop 50 h (Math_round (IZR mean / IZR total)).

(** ** Manual paint and erase (the loops of [handleDraw], Viewport.tsx) *)

(** [for (let d = -radius; d <= radius; d++)] *)
Definition offsets (radius : Z) : list Z := seqZ (- radius) (2 * radius + 1).

(** The three nested loops, writing [val] into the mask array [a]. *)
Definition paint_sphere (dimX dimY dimZ x y z : Z) (val : Q) (radius : Z)
    (a : tarray) : tarray :=
  let r2 := radius * radius in
  foldl (fun a dz =>
    foldl (fun a dy =>
      foldl (fun a dx =>
        if dx * dx + dy * dy + dz * dz <=? r2 then
          let px := x + dx in
          let py := y + dy in
          let pz := z + dz in
          if (0 <=? px) && (px <? dimX) && (0 <=? py) && (py <? dimY)
             && (0 <=? pz) && (pz <? dimZ)
          then
            let idx := pz * dimX * dimY + py * dimX + px in
            aset a idx val
          else a
        else a) a (offsets radius)) a (offsets radius)) a (offsets radius).

(** The integer offsets of the discrete ball of radius [radius], and
    their number. *)
Definition ball_offsets (radius : Z) : list (Z * Z * Z) :=
  dz ← offsets radius; dy ← offsets radius; dx ← offsets radius;
  if dx * dx + dy * dy + dz * dz <=? radius * radius then [(dx, dy, dz)] else [].

Definition ball_count (radius : Z) : Z := zlen (ball_offsets radius).

(** The flat indices the loops write to, in the order of the writes. *)
Definition painted_indices (dimX dimY dimZ x y z radius : Z) : list Z :=
  dz ← offsets radius; dy ← offsets radius; dx ← offsets radius;
  if dx * dx + dy * dy + dz * dz <=? radius * radius then
    if (0 <=? x + dx) && (x + dx <? dimX) && (0 <=? y + dy) && (y + dy <? dimY)
       && (0 <=? z + dz) && (z + dz <? dimZ)
    then [(z + dz) * dimX * dimY + (y + dy) * dimX + (x + dx)]
    else []
  else [].

(** ** The store

    The typed arrays that the panel and the viewport share live in a
    store and are named by their location.  A volume that these components
    pass around holds the location of its data ([VolumeData loc]), so that
    two volumes with the same location share one array, as an object
    spread [{ ...segVol }] in the source does.  [progress] is the
    percentage last given to [setProgress]. *)

Abbreviation loc := nat (only parsing).

Record store : Type := mkStore { heap : list tarray; progress : Q }.

(** How a run ends: with a value, with a thrown [Error], or outside the
    number model (an intensity range that is not finite). *)
Inductive result (A : Type) : Type :=
  | Ok (a : A)
  | Threw (msg : string)
  | NotFinite.
Arguments Ok {A}.
Arguments Threw {A}.
Arguments NotFinite {A}.

Definition M (A : Type) : Type := store -> result A * store.

Definition ret {A} (a : A) : M A := fun s => (Ok a, s).

Definition bind {A B} (m : M A) (f : A -> M B) : M B :=
  fun s =>
    match m s with
    | (Ok a, s') => f a s'
    | (Threw msg, s') => (Threw msg, s')
    | (NotFinite, s') => (NotFinite, s')
    end.

Declare Scope store_scope.
Delimit Scope store_scope with store.
Notation "x <- m ;; k" := (bind m (fun x => k))
  (at level 100, m at next level, right associativity) : store_scope.
Notation "m ;;; k" := (bind m (fun _ : unit => k))
  (at level 100, right associativity) : store_scope.

Local Open Scope store_scope.

Definition throw {A} (msg : string) : M A := fun s => (Threw msg, s).
Definition not_finite {A} : M A := fun s => (NotFinite, s).

(** [new K(len)] *)
Definition alloc (k : elt_kind) (len : Z) : M loc :=
  fun s => (Ok (length (heap s)),
            mkStore (heap s ++ [new_array k len]) (progress s)).

(** The array at [l]; a location that names nothing reads as empty. *)
Definition array_at (s : store) (l : loc) : tarray :=
  default (mkArr Uint8 []) (heap s !! l).

Definition load (l : loc) : M tarray := fun s => (Ok (array_at s l), s).

(** [a.length] *)
Definition length_of (l : loc) : M Z := fun s => (Ok (alen (array_at s l)), s).

(** [a[i]] in an arithmetic expression.  The source keeps every such read
    inside the array when [data.length] agrees with the dimensions; a
    read outside, NaN in the source, is 0 here. *)
Definition rd (l : loc) (i : Z) : M Q :=
  fun s => (Ok (default 0%Q (aget (array_at s l) i)), s).

(** Writes into the array at [l], which stays where it is. *)
Definition update_array (l : loc) (f : tarray -> tarray) : M unit :=
  fun s => (Ok tt, mkStore (alter f l (heap s)) (progress s)).

(** [a[i] = v] *)
Definition wr (l : loc) (i : Z) (v : Q) : M unit :=
  update_array l (fun a => aset a i v).

(** [dst.set(src)]: the elements of [src] stored at the front of [dst]; a
    [RangeError] when [src] is the longer one. *)
Definition array_set (dst src : loc) : M unit :=
  fun s =>
    let d := array_at s dst in
    let e := elems (array_at s src) in
    if (length (elems d) <? length e)%nat then (Threw "RangeError", s)
    else (Ok tt,
          mkStore (<[dst := mkArr (kind d)
                              ((coerce (kind d) <$> e) ++ drop (length e) (elems d))]>
                     (heap s))
            (progress s)).

Definition setProgress (p : Q) : M unit :=
  fun s => (Ok tt, mkStore (heap s) p).

(** [await updateProgress(val)]: the progress is set and the run yields. *)
Definition updateProgress (val : Q) : M unit := setProgress val.

(** A counted loop over the values of its index. *)
Fixpoint for_ (l : list Z) (body : Z -> M unit) : M unit :=
  match l with
  | [] => ret tt
  | i :: l' => body i ;;; for_ l' body
  end.

(** [a.subarray(begin, end)]: a window on the same array, for
    [0 <= begin <= end]; both bounds are clamped to the length. *)
Record view : Type := mkView { base : loc; off : Z; vlen : Z }.

Definition subarray (l : loc) (begin end_ : Z) : M view :=
  len <- length_of l ;;
  let b := Z.min begin len in
  let e := Z.min end_ len in
  ret (mkView l b (Z.max 0 (e - b))).

Definition vrd (v : view) (k : Z) : M Q :=
  if (0 <=? k) && (k <? vlen v) then rd (base v) (off v + k) else ret 0%Q.

Definition vwr (v : view) (k : Z) (x : Q) : M unit :=
  if (0 <=? k) && (k <? vlen v) then wr (base v) (off v + k) x else ret tt.

(** The elements a window shows. *)
Definition vload (v : view) : M (list Q) :=
  a <- load (base v) ;;
  ret (take (Z.to_nat (vlen v)) (drop (Z.to_nat (off v)) (elems a))).

(** ** Manual paint and erase ([handleDraw], Viewport.tsx)

    The result is the volume handed to [onUpdateSegmentation], [None]
    when the handler returns at once.  The loops only write, and only
    into [segVol.data]: they are [paint_sphere] on the array at that
    location.  The volume handed on is a copy of the record [segVol] and
    shares its array. *)
Definition handleDraw (volume : option (VolumeData loc))
    (segmentation : option (VolumeData loc)) (onUpdateSegmentation : bool)
    (x y z : Z) (val : Q) (radius : Z) : M (option (VolumeData loc)) :=
  match volume with
  | None => ret None
  | Some volume =>
      if negb onUpdateSegmentation then ret None
      else
        segVol <- match segmentation with
                  | Some segVol => ret segVol
                  | None =>
                      len <- length_of (data volume) ;;
                      d <- alloc Uint8 len ;;
                      ret (mkVolume (with_datatypeCode (header volume) 2) d
                             (dimensions volume) (Fin 0) (Fin 1))
                  end ;;
        let '(dimX, dimY, dimZ) := dimensions volume in
        update_array (data segVol)
          (paint_sphere dimX dimY dimZ x y z val radius) ;;;
        ret (Some (mkVolume (header segVol) (data segVol) (dimensions segVol)
                     (min segVol) (max segVol)))
  end.

(** The array the loops of [handleDraw] paint on, and where it lives: the
    mask there is, or a fresh mask of zeros as long as the volume. *)
Definition draw_target (s : store) (volume : VolumeData loc)
    (segmentation : option (VolumeData loc)) : loc * tarray :=
  match segmentation with
  | Some segVol => (data segVol, array_at s (data segVol))
  | None => (length (heap s), new_array Uint8 (alen (array_at s (data volume))))
  end.

(** ** Otsu's threshold ([computeOtsuThreshold]) *)

(** The scan over the thresholds [ts]; [continue] goes on with the next
    one, [break] returns the best threshold so far. *)
Fixpoint otsu_scan (ts : list Z) (h : list Z) (total sum sumB wB : Z)
    (maxVar : Q) (threshold : Z) : Z :=
  match ts with
  | [] => threshold
  | t :: ts' =>
      let wB := wB + hget h t in
      if wB =? 0 then otsu_scan ts' h total sum sumB wB maxVar threshold
      else
        let wF := total - wB in
        if wF =? 0 then threshold
        else
          let sumB := sumB + t * hget h t in
          let mB := (inject_Z sumB / inject_Z wB)%Q in
          let mF := (inject_Z (sum - sumB) / inject_Z wF)%Q in
          let varBetween :=
            (inject_Z wB * inject_Z wF * (mB - mF) * (mB - mF))%Q in
          if Qlt_le_dec maxVar varBetween
          then otsu_scan ts' h total sum sumB wB varBetween t
          else otsu_scan ts' h total sum sumB wB maxVar threshold
  end.

Definition computeOtsuThreshold (h : list Z) (total : Z) : Z :=
  let sum := foldl (fun s i => s + i * hget h i) 0 (seqZ 0 256) in
  otsu_scan (seqZ 0 256) h total sum 0 0 0%Q 0.

(** ** Intensity transforms ([runProcessing], ProcessingPanel.tsx) *)

Inductive ProcMethod : Type :=
  | clahe | hist_match | hist_eq | gamma_bright | gamma_dark | sigmoid
  | unsharp | gaussian | median_3d | n4_bias.

(** [Math.max(0, Math.min(255, bin))] *)
Definition clamp255 (bin : Z) : Z := Z.max 0 (Z.min 255 bin).

(** [Math.max(a, b)] *)
Definition qmax (a b : Q) : Q := if Qlt_le_dec a b then b else a.

(** [Math.floor(((v - min) / range) * 255)] *)
Definition bin255 (mn range v : Q) : Z := Qfloor (((v - mn) / range) * 255).

(** The starts of the chunks: [for (let i = 0; i < len; i += 500000)]. *)
Definition chunk_starts (len : Z) : list Z := visited_indices len 500000.

(** [Math.floor((i / len) * 100)] *)
Definition percent (i len : Z) : Q :=
  inject_Z (Qfloor ((inject_Z i / inject_Z len) * 100)).

(** The running sums of a histogram:
    [sum += histogram[i]; cdf[i] = sum], each stored through [st]. *)
Definition cumulative (st : Z -> Z) (h : list Z) : list Z * Z :=
  foldl (fun '(cdf, sum) i =>
           let sum := sum + hget h i in (zset cdf i (st sum), sum))
    (replicate 256 0, 0) (seqZ 0 256).

(** Histogram equalization of one voxel. *)
Definition hist_eq_voxel (cdf : list Z) (total : Z) (mn range v : Q) : Q :=
  let bin := bin255 mn range v in
  let normVal := (inject_Z (hget cdf (clamp255 bin)) / inject_Z total)%Q in
  (mn + normVal * range)%Q.

Definition run_hist_eq (data newData : loc) (mn mx range : Q) (len : Z)
    : M unit :=
  d <- load data ;;
  let histogram := histogram (getHistogram (elems d) mn mx) in
  let '(cdf, total) := cumulative to_int32 histogram in
  for_ (chunk_starts len) (fun i =>
    let end_ := Z.min (i + 500000) len in
    for_ (seqZ i (end_ - i)) (fun j =>
      v <- rd data j ;;
      wr newData j (hist_eq_voxel cdf total mn range v)) ;;;
    updateProgress (percent i len)).

(** [hist[k]] of a table of numbers. *)
Definition qget (l : list Q) (i : Z) : Q := default 0%Q (zget l i).

(** One slice of the slice-wise equalization. *)
Definition clahe_slice (data newData : loc) (width height : Z) (clipLimit : Q)
    (z : Z) : M unit :=
  let offset := z * width * height in
  let sliceEnd := offset + width * height in
  sliceData <- subarray data offset sliceEnd ;;
  s <- vload sliceData ;;
  match running_min Infinity s, running_max NegInfinity s with
  | Fin sMin, Fin sMax =>
      let sRange := or_one (sMax - sMin) in
      let hist :=
        foldl (fun h v => incr h (clamp255 (bin255 sMin sRange v)))
          (replicate 256 0) s in
      let limit := (inject_Z (vlen sliceData) / 256 * clipLimit)%Q in
      let '(hist, excess) :=
        foldl (fun '(h, excess) k =>
                 if Qlt_le_dec limit (inject_Z (hget h k))
                 then (zset h k (to_int32 (trunc limit)),
                       (excess + (inject_Z (hget h k) - limit))%Q)
                 else (h, excess))
          (hist, 0%Q) (seqZ 0 256) in
      let increment := (excess / 256)%Q in
      let hist :=
        foldl (fun h k =>
                 zset h k (to_int32 (trunc (inject_Z (hget h k) + increment))))
          hist (seqZ 0 256) in
      let '(cdf, _) :=
        foldl (fun '(cdf, sum) k =>
                 let sum := sum + hget hist k in
                 (zset cdf k (inject_Z sum / inject_Z (vlen sliceData))%Q, sum))
          (replicate 256 0%Q, 0) (seqZ 0 256) in
      for_ (seqZ 0 (vlen sliceData)) (fun k =>
        v <- vrd sliceData k ;;
        wr newData (offset + k)
          (sMin + qget cdf (clamp255 (bin255 sMin sRange v)) * sRange)%Q)
  | _, _ => ret tt
  end.

Definition run_clahe (data newData : loc) (width height depth : Z)
    (clipLimit : Q) : M unit :=
  for_ (seqZ 0 depth) (fun z =>
    clahe_slice data newData width height clipLimit z ;;;
    if z mod 5 =? 0 then updateProgress (percent z depth) else ret tt).

Section transforms.
(** [Math.pow] and [Math.exp] are not rational functions; the transforms
    that call them take them as they come. *)
Variable Math_pow : Q -> Q -> Q.
Variable Math_exp : Q -> Q.

Definition run_gamma (data newData : loc) (mn range : Q) (len : Z) (gamma : Q)
    : M unit :=
  for_ (chunk_starts len) (fun i =>
    let end_ := Z.min (i + 500000) len in
    for_ (seqZ i (end_ - i)) (fun j =>
      v <- rd data j ;;
      let norm := qmax 0 ((v - mn) / range) in
      wr newData j (mn + Math_pow norm gamma * range)%Q) ;;;
    updateProgress (percent i len)).

Definition run_sigmoid (data newData : loc) (mn range : Q) (len : Z)
    (gain cutoff : Q) : M unit :=
  for_ (chunk_starts len) (fun i =>
    let end_ := Z.min (i + 500000) len in
    for_ (seqZ i (end_ - i)) (fun j =>
      v <- rd data j ;;
      let u := ((v - mn) / range)%Q in
      let val := (1 / (1 + Math_exp (- gain * (u - cutoff))))%Q in
      wr newData j (mn + val * range)%Q) ;;;
    updateProgress (percent i len)).

(** One pass of the three-tap kernel along an axis: the voxels [x] of
    [xs], [y] of [ys], [z] of [zs], their neighbours at distance
    [stride] in the flat array. *)
Definition blur_pass (buf newData : loc) (width height depth : Z)
    (xs ys zs : list Z) (stride : Z) (base_progress : Q) : M unit :=
  for_ zs (fun z =>
    for_ ys (fun y =>
      for_ xs (fun x =>
        let i := z * width * height + y * width + x in
        a <- rd buf (i - stride) ;;
        b <- rd buf i ;;
        c <- rd buf (i + stride) ;;
        wr newData i (a * (2 # 10) + b * (6 # 10) + c * (2 # 10))%Q)) ;;;
    if z mod 10 =? 0
    then updateProgress (base_progress + 33 * (inject_Z z / inject_Z depth))%Q
    else ret tt).

Definition run_gaussian (data newData : loc) (width height depth len : Z)
    : M unit :=
  buf <- alloc Float32 len ;;
  array_set buf data ;;;
  blur_pass buf newData width height depth
    (seqZ 1 (width - 2)) (seqZ 0 height) (seqZ 0 depth) 1 0 ;;;
  array_set buf newData ;;;
  blur_pass buf newData width height depth
    (seqZ 0 width) (seqZ 1 (height - 2)) (seqZ 0 depth) width 33 ;;;
  array_set buf newData ;;;
  blur_pass buf newData width height depth
    (seqZ 0 width) (seqZ 0 height) (seqZ 1 (depth - 2)) (width * height) 66.

Definition run_unsharp (data newData : loc) (width len : Z) (strength : Q)
    : M unit :=
  blurred <- alloc Float32 len ;;
  buf <- alloc Float32 len ;;
  array_set buf data ;;;
  for_ (seqZ (width + 1) (len - width - 1 - (width + 1))) (fun i =>
    a <- rd buf (i - 1) ;;
    b <- rd buf i ;;
    c <- rd buf (i + 1) ;;
    d <- rd buf (i - width) ;;
    e <- rd buf (i + width) ;;
    wr blurred i ((a + b + c + d + e) / 5)%Q) ;;;
  for_ (seqZ 0 len) (fun i =>
    v <- rd data i ;;
    b <- rd blurred i ;;
    let mask := (v - b)%Q in
    wr newData i (v + strength * mask)%Q ;;;
    if i mod 500000 =? 0 then updateProgress (percent i len) else ret tt).

(** The normalized cumulative histogram of [h]. *)
Definition normalized_cdf (h : list Z) : list Q :=
  let '(cdf, sum) := cumulative (fun c => c) h in
  (fun c => (inject_Z c / inject_Z sum)%Q) <$> cdf.

(** The reference bin whose cumulative value is closest to [srcVal], the
    first one among equals. *)
Definition closest_bin (cdfRef : list Q) (srcVal : Q) : Z :=
  fst (foldl (fun '(closestIdx, minDiff) j =>
                let diff := Qabs (qget cdfRef j - srcVal) in
                if Qlt_le_dec diff minDiff then (j, diff)
                else (closestIdx, minDiff))
         (0, 1%Q) (seqZ 0 256)).

Definition run_hist_match (data newData : loc) (mn mx range : Q) (len : Z)
    (referenceVolume : option (VolumeData loc)) : M unit :=
  match referenceVolume with
  | None => throw "Reference volume missing"
  | Some ref =>
      match min ref, max ref with
      | Fin refMin, Fin refMax =>
          d <- load data ;;
          let cdfSrc := normalized_cdf (histogram (getHistogram (elems d) mn mx)) in
          r <- load (volume_data ref) ;;
          let cdfRef :=
            normalized_cdf (histogram (getHistogram (elems r) refMin refMax)) in
          let mapping :=
            (fun i => closest_bin cdfRef (qget cdfSrc i)) <$> seqZ 0 256 in
          let refRange := or_one (refMax - refMin) in
          for_ (seqZ 0 len) (fun i =>
            v <- rd data i ;;
            let bin := bin255 mn range v in
            let mappedBin := hget mapping (clamp255 bin) in
            wr newData i (refMin + inject_Z mappedBin / 255 * refRange)%Q ;;;
            if i mod 500000 =? 0 then updateProgress (percent i len) else ret tt)
      | _, _ => not_finite
      end
  end.

Definition run_n4_bias (data newData : loc) (width height depth len : Z)
    : M unit :=
  for_ (seqZ 0 len) (fun i =>
    let z := i / (width * height) in
    let rem := i mod (width * height) in
    let y := rem / width in
    let x := rem mod width in
    let half d := (inject_Z d / 2)%Q in
    let dx := ((inject_Z x - half width) / half width)%Q in
    let dy := ((inject_Z y - half height) / half height)%Q in
    let dz := ((inject_Z z - half depth) / half depth)%Q in
    let distSq := (dx * dx + dy * dy + dz * dz)%Q in
    let bias := (1 - (3 # 10) * distSq)%Q in
    v <- rd data i ;;
    wr newData i (v / qmax (1 # 10) bias)%Q) ;;;
  updateProgress 100.

(** [neighbors.sort((a, b) => a - b)]: ascending order. *)
Fixpoint insert_sorted (x : Q) (l : list Q) : list Q :=
  match l with
  | [] => [x]
  | y :: l' => if Qlt_le_dec y x then y :: insert_sorted x l' else x :: l
  end.

Definition sort_numbers (l : list Q) : list Q := foldr insert_sorted [] l.

Definition run_median_3d (data newData : loc) (width height depth : Z)
    : M unit :=
  for_ (seqZ 0 depth) (fun z =>
    let offset := z * width * height in
    sliceData <- subarray data offset (offset + width * height) ;;
    outSlice <- subarray newData offset (offset + width * height) ;;
    for_ (seqZ 1 (height - 2)) (fun y =>
      for_ (seqZ 1 (width - 2)) (fun x =>
        let i := y * width + x in
        n0 <- vrd sliceData (i - width - 1) ;;
        n1 <- vrd sliceData (i - width) ;;
        n2 <- vrd sliceData (i - width + 1) ;;
        n3 <- vrd sliceData (i - 1) ;;
        n4 <- vrd sliceData i ;;
        n5 <- vrd sliceData (i + 1) ;;
        n6 <- vrd sliceData (i + width - 1) ;;
        n7 <- vrd sliceData (i + width) ;;
        n8 <- vrd sliceData (i + width + 1) ;;
        let neighbors := sort_numbers [n0; n1; n2; n3; n4; n5; n6; n7; n8] in
        vwr outSlice i (qget neighbors 4))) ;;;
    if z mod 5 =? 0 then updateProgress (percent z depth) else ret tt).

(** The run of one transform on [volume]; its value is the volume handed
    to [onUpdateVolume]. *)
Definition runProcessing (procMethod : ProcMethod) (param1 param2 : Q)
    (referenceVolume : option (VolumeData loc)) (volume : VolumeData loc)
    : M (VolumeData loc) :=
  setProgress 0 ;;;
  match min volume, max volume with
  | Fin mn, Fin mx =>
      let '(width, height, depth) := dimensions volume in
      len <- length_of (data volume) ;;
      newData <- alloc Float32 len ;;
      array_set newData (data volume) ;;;
      let range := or_one (mx - mn) in
      match procMethod with
      | hist_eq => run_hist_eq (data volume) newData mn mx range len
      | clahe => run_clahe (data volume) newData width height depth param1
      | gamma_bright | gamma_dark =>
          run_gamma (data volume) newData mn range len param1
      | sigmoid => run_sigmoid (data volume) newData mn range len param1 param2
      | gaussian => run_gaussian (data volume) newData width height depth len
      | unsharp => run_unsharp (data volume) newData width len param1
      | hist_match =>
          run_hist_match (data volume) newData mn mx range len referenceVolume
      | n4_bias => run_n4_bias (data volume) newData width height depth len
      | median_3d => run_median_3d (data volume) newData width height depth
      end ;;;
      nd <- load newData ;;
      let samples := omap (zget (elems nd)) (visited_indices len 10) in
      let newMin := running_min Infinity samples in
      let newMax := running_max NegInfinity samples in
      setProgress 100 ;;;
      ret (mkVolume (header volume) newData (dimensions volume) newMin newMax)
  | _, _ => not_finite
  end.

End transforms.

(** ** Segmentation ([runSegmentation], ProcessingPanel.tsx) *)

Inductive SegMethod : Type :=
  | manual_draw | binary | binary_inv | truncate | range_pass
  | otsu | li | multi_otsu | local_adaptive.

(** [val >= t], [val <= t] and [val < t] against a threshold that may be
    NaN ([None]): every comparison with NaN is false. *)
Definition ge_num (val : Q) (t : option Q) : bool :=
  match t with Some t => Qle_bool t val | None => false end.

Definition le_num (val : Q) (t : option Q) : bool :=
  match t with Some t => Qle_bool val t | None => false end.

Definition lt_num (val : Q) (t : option Q) : bool :=
  match t with Some t => negb (Qle_bool t val) | None => false end.

(** The thresholds of a run: the bounds set by hand, or for the automatic
    methods the ones computed from the histogram of the volume. *)
Definition seg_thresholds (segMethod : SegMethod)
    (manualThreshold manualUpper : Q) (d : list Q) (mn mx : Q)
    : option Q * option Q :=
  match segMethod with
  | otsu | li | multi_otsu =>
      let hr := getHistogram d mn mx in
      let total := foldl (fun t i => t + hget (histogram hr) i) 0 (seqZ 0 256) in
      match segMethod with
      | otsu =>
          let thresholdBin := computeOtsuThreshold (histogram hr) total in
          (Some (mn + inject_Z thresholdBin / step hr)%Q, Some manualUpper)
      | li =>
          ((fun thresholdBin => (mn + inject_Z thresholdBin / step hr)%Q)
             <$> computeLiThreshold (histogram hr) total,
           Some manualUpper)
      | _ =>
          let t1Bin := computeOtsuThreshold (histogram hr) total in
          let '(hist2, total2) :=
            foldl (fun '(hist2, total2) i =>
                     (zset hist2 i (to_int32 (hget (histogram hr) i)),
                      total2 + hget (histogram hr) i))
              (replicate 256 0, 0) (seqZ t1Bin (256 - t1Bin)) in
          let t2Bin := computeOtsuThreshold hist2 total2 in
          (Some (mn + inject_Z t1Bin / step hr)%Q,
           Some (mn + inject_Z (Z.max (t1Bin + 1) t2Bin) / step hr)%Q)
      end
  | _ => (Some manualThreshold, Some manualUpper)
  end.

(** The label the scan writes for a voxel, [None] where it leaves the
    zero of the fresh mask. *)
Definition seg_label (segMethod : SegMethod) (threshold upperThreshold : option Q)
    (val : Q) : option Q :=
  match segMethod with
  | binary | truncate => if ge_num val threshold then Some 1%Q else None
  | binary_inv => if le_num val threshold then Some 1%Q else None
  | range_pass =>
      if ge_num val threshold && le_num val upperThreshold then Some 1%Q
      else None
  | otsu | li => if ge_num val threshold then Some 1%Q else None
  | multi_otsu =>
      if ge_num val threshold && lt_num val upperThreshold then Some 1%Q
      else if ge_num val upperThreshold then Some 2%Q
      else None
  | local_adaptive => if ge_num val threshold then Some 3%Q else None
  | manual_draw => None
  end.

(** [segMethod === 'manual_draw'] *)
Definition is_manual (segMethod : SegMethod) : bool :=
  match segMethod with manual_draw => true | _ => false end.

(** The run of one segmentation on [volume]; its value is the mask handed
    to [onUpdateSegmentation], [None] for the manual method, which only
    shows an alert. *)
Definition runSegmentation (segMethod : SegMethod)
    (manualThreshold manualUpper : Q) (volume : VolumeData loc)
    : M (option (VolumeData loc)) :=
  if is_manual segMethod then ret None
  else
    setProgress 0 ;;;
    match min volume, max volume with
    | Fin mn, Fin mx =>
        len <- length_of (data volume) ;;
        mask <- alloc Uint8 len ;;
        d <- load (data volume) ;;
        let '(threshold, upperThreshold) :=
          seg_thresholds segMethod manualThreshold manualUpper (elems d)
            mn mx in
        for_ (chunk_starts len) (fun i =>
          let end_ := Z.min (i + 500000) len in
          for_ (seqZ i (end_ - i)) (fun j =>
            val <- rd (data volume) j ;;
            match seg_label segMethod threshold upperThreshold val with
            | Some label => wr mask j label
            | None => ret tt
            end) ;;;
          let currentProgress :=
            10 + Qfloor ((inject_Z (i + 500000) / inject_Z len) * 80) in
          setProgress (inject_Z (Z.min 90 currentProgress))) ;;;
        let '(dimX, dimY, dimZ) := dimensions volume in
        setProgress 100 ;;;
        ret (Some (mkVolume (with_datatypeCode (header volume) 2) mask
                     (dimX, dimY, dimZ) (Fin 0) (Fin 255)))
    | _, _ => not_finite
    end.

(** ** Frames

    [keeps h0 m Q]: run from a store whose heap starts with the arrays
    [h0], the computation [m] leaves these arrays as they are, however it
    ends, and a value it returns satisfies [Q]. *)
Definition keeps (h0 : list tarray) {A} (m : M A) (Q : A -> Prop) : Prop :=
  forall s, h0 `prefix_of` heap s ->
    h0 `prefix_of` heap (m s).2 /\ forall a, (m s).1 = Ok a -> Q a.

(** ** Runs that return

    [runs m s P]: from the store [s] the computation [m] returns a value
    and a store that satisfy [P]. *)
Definition runs {A} (m : M A) (s : store) (P : A -> store -> Prop) : Prop :=
  exists a s', m s = (Ok a, s') /\ P a s'.


(** The labels of the segmentation methods. *)
Definition is_label (v : Q) : Prop := v = 0%Q \/ v = 1%Q \/ v = 2%Q \/ v = 3%Q.

(** The state of the mask during a segmentation scan: a byte array of
    [len] labels in the store. *)
Definition labeled (mask : loc) (len : Z) (s : store) : Prop :=
  (mask < length (heap s))%nat
  /\ kind (array_at s mask) = Uint8
  /\ alen (array_at s mask) = len
  /\ Forall is_label (elems (array_at s mask)).

(** The state of the output array [out] during a scan of the input array
    [data], when the voxels below [bound] have been gone through: the
    input is the array [d], as it was; the output has the kind and the
    length of [init], the array it was before the scan; its voxels below
    [bound] are related to their index by [R] and the others are those of
    [init]. *)
Definition scanned (data out : loc) (d init : tarray) (R : Z -> Q -> Prop)
    (bound : Z) (s : store) : Prop :=
  array_at s data = d
  /\ (out < length (heap s))%nat
  /\ kind (array_at s out) = kind init
  /\ alen (array_at s out) = alen init
  /\ (forall j, 0 <= j < bound ->
        exists w, aget (array_at s out) j = Some w /\ R j w)
  /\ (forall j, bound <= j -> aget (array_at s out) j = aget init j).

(** [data[j]] where the source keeps the read inside the array. *)
Definition voxel (d : tarray) (j : Z) : Q := default 0%Q (aget d j).

(** The kinds and the lengths of the arrays of a store. *)
Definition shape (s : store) : list (elt_kind * nat) :=
  (fun a => (kind a, length (elems a))) <$> heap s.

(** [grows m]: from every store the computation [m] returns, and the
    arrays there were keep their kind and their length. *)
Definition grows {A} (m : M A) : Prop :=
  forall s, exists a s', m s = (Ok a, s') /\ shape s `prefix_of` shape s'.

(** [holds sh m]: from every store that holds arrays of the shapes [sh]
    the computation [m] returns, and these arrays keep their kind and
    their length. *)
Definition holds (sh : list (elt_kind * nat)) {A} (m : M A) : Prop :=
  forall s, sh `prefix_of` shape s ->
    exists a s', m s = (Ok a, s') /\ sh `prefix_of` shape s'.

(** The branch of [runProcessing] for the method, on the input [data] and
    the output [newData]. *)
Definition run_transform (Math_pow : Q -> Q -> Q) (Math_exp : Q -> Q)
    (procMethod : ProcMethod) (param1 param2 : Q)
    (referenceVolume : option (VolumeData loc)) (data newData : loc)
    (width height depth len : Z) (mn mx : Q) : M unit :=
  let range := or_one (mx - mn) in
  match procMethod with
  | hist_eq => run_hist_eq data newData mn mx range len
  | clahe => run_clahe data newData width height depth param1
  | gamma_bright | gamma_dark =>
      run_gamma Math_pow data newData mn range len param1
  | sigmoid => run_sigmoid Math_exp data newData mn range len param1 param2
  | gaussian => run_gaussian data newData width height depth len
  | unsharp => run_unsharp data newData width len param1
  | hist_match =>
      run_hist_match data newData mn mx range len referenceVolume
  | n4_bias => run_n4_bias data newData width height depth len
  | median_3d => run_median_3d data newData width height depth
  end.

(** Every tenth element of an array: the samples from which
    [runProcessing] takes the minimum and the maximum of its output. *)
Definition tenth_samples (nd : tarray) : list Q :=
  omap (zget (elems nd)) (visited_indices (alen nd) 10).

(** ** The slice viewers ([SliceViewer] and [generateSliceBitmap],
    Viewport.tsx) *)

Inductive Orientation : Type := Axial | Coronal | Sagittal.

Inductive ViewportTool : Type := pan | zoom | wl | measure | brush | eraser.

(** The position [{x, y, z}] that the three viewers share. *)
Record Position : Type := mkPosition { pos_x : Z; pos_y : Z; pos_z : Z }.

(** [imgW] and [imgH] of a viewer. *)
Definition image_size (orientation : Orientation) (dimensions : Z * Z * Z)
    : Z * Z :=
  let '(dimX, dimY, dimZ) := dimensions in
  match orientation with
  | Axial => (dimX, dimY)
  | Coronal => (dimX, dimZ)
  | Sagittal => (dimY, dimZ)
  end.

(** [Math.max(0, Math.min(n - 1, Math.floor(t * n)))]: the pixel under the
    fraction [t] of the width or the height of the canvas. *)
Definition pixel_under (t : Q) (n : Z) : Z :=
  Z.max 0 (Z.min (n - 1) (Qfloor (t * inject_Z n))).

(** What a move of the mouse asks for: a stroke [onDraw(x, y, z, val,
    radius)] or a move of the cross-hair [onCrosshairChange(u, v)]. *)
Inductive MouseAction : Type :=
  | Draw (x y z : Z) (val : Q) (radius : Z)
  | MoveCrosshair (u v : Z).

(** [handleMouseMove] of a viewer that shows a volume; [pressed] is
    [isDragging || e.buttons === 1], and [x], [y] are the fractions
    [(e.clientX - rect.left) / rect.width] and
    [(e.clientY - rect.top) / rect.height]. *)
Definition handleMouseMove (orientation : Orientation)
    (dimensions : Z * Z * Z) (slice : Z) (tool : ViewportTool)
    (brushSize : Z) (pressed : bool) (x y : Q) : option MouseAction :=
  if negb pressed then None
  else
    let '(imgW, imgH) := image_size orientation dimensions in
    let u := pixel_under x imgW in
    let v := pixel_under y imgH in
    match tool with
    | brush | eraser =>
        let '(vx, vy, vz) :=
          match orientation with
          | Axial => (u, v, slice)
          | Coronal => (u, slice, v)
          | Sagittal => (slice, u, v)
          end in
        Some (Draw vx vy vz
                (match tool with brush => 1%Q | _ => 0%Q end) brushSize)
    | _ => Some (MoveCrosshair u v)
    end.

(** [handleWheel]: the slice handed to [onSliceChange], if any. *)
Definition handleWheel (maxSlice slice : Z) (deltaY : Q) : option Z :=
  if Qeq_bool deltaY 0 then None
  else
    let delta := if Qlt_le_dec 0 deltaY then 1 else -1 in
    Some (Z.max 0 (Z.min (maxSlice - 1) (slice + delta))).

(** The wiring of the three viewers in [Viewport]: the slice each one
    shows, the number of its slices, and what its two callbacks do to the
    position. *)
Definition slice_of (orientation : Orientation) (pos : Position) : Z :=
  match orientation with
  | Axial => pos_z pos
  | Coronal => pos_y pos
  | Sagittal => pos_x pos
  end.

Definition maxSlice_of (orientation : Orientation) (dimensions : Z * Z * Z)
    : Z :=
  let '(dimX, dimY, dimZ) := dimensions in
  match orientation with
  | Axial => dimZ
  | Coronal => dimY
  | Sagittal => dimX
  end.

Definition onSliceChange (orientation : Orientation) (pos : Position) (s : Z)
    : Position :=
  match orientation with
  | Axial => mkPosition (pos_x pos) (pos_y pos) s
  | Coronal => mkPosition (pos_x pos) s (pos_z pos)
  | Sagittal => mkPosition s (pos_y pos) (pos_z pos)
  end.

Definition onCrosshairChange (orientation : Orientation) (pos : Position)
    (u v : Z) : Position :=
  match orientation with
  | Axial => mkPosition u v (pos_z pos)
  | Coronal => mkPosition u (pos_y pos) v
  | Sagittal => mkPosition (pos_x pos) u v
  end.

(** The events of the viewers, and what one event does: the position
    after it and the stroke it asks for, if it asks for one. *)
Inductive ViewerEvent : Type :=
  | Wheel (orientation : Orientation) (deltaY : Q)
  | MouseMove (orientation : Orientation) (pressed : bool) (x y : Q).

Definition viewer_event (dimensions : Z * Z * Z) (tool : ViewportTool)
    (brushSize : Z) (pos : Position) (e : ViewerEvent)
    : Position * option (Z * Z * Z * Q * Z) :=
  match e with
  | Wheel orientation deltaY =>
      match handleWheel (maxSlice_of orientation dimensions)
              (slice_of orientation pos) deltaY with
      | Some s => (onSliceChange orientation pos s, None)
      | None => (pos, None)
      end
  | MouseMove orientation pressed x y =>
      match handleMouseMove orientation dimensions (slice_of orientation pos)
              tool brushSize pressed x y with
      | Some (Draw vx vy vz val radius) =>
          (pos, Some (vx, vy, vz, val, radius))
      | Some (MoveCrosshair u v) => (onCrosshairChange orientation pos u v, None)
      | None => (pos, None)
      end
  end.

(** A sequence of events: the position at its end and the strokes asked
    for on the way. *)
Definition viewer_events (dimensions : Z * Z * Z) (tool : ViewportTool)
    (brushSize : Z) (pos : Position) (es : list ViewerEvent)
    : Position * list (Z * Z * Z * Q * Z) :=
  foldl (fun '(pos, strokes) e =>
           let '(pos', stroke) := viewer_event dimensions tool brushSize pos e in
           (pos', strokes ++ option_list stroke))
    (pos, []) es.

(** A position on a voxel of the volume. *)
Definition in_volume (dimensions : Z * Z * Z) (x y z : Z) : Prop :=
  let '(dimX, dimY, dimZ) := dimensions in
  0 <= x < dimX /\ 0 <= y < dimY /\ 0 <= z < dimZ.

(** [width], [height], [origin], [xStride] and [yStride] of
    [generateSliceBitmap]. *)
Definition slice_geometry (orientation : Orientation)
    (dimensions : Z * Z * Z) (sliceIdx : Z) : Z * Z * Z * Z * Z :=
  let '(dimX, dimY, dimZ) := dimensions in
  match orientation with
  | Axial =>
      (dimX, dimY, sliceIdx * (dimX * dimY) + (dimY - 1) * dimX, 1, - dimX)
  | Coronal => (dimX, dimZ, sliceIdx * dimX, 1, dimX * dimY)
  | Sagittal => (dimY, dimZ, sliceIdx, dimX, dimX * dimY)
  end.

(** The walk of the two pixel loops of [generateSliceBitmap] through the
    volume: the index [volIdx] read for each pixel, in the order of the
    pixels. *)
Definition slice_walk (width height origin xStride yStride : Z) : list Z :=
  (foldl (fun '(walk, currentVolIdxRow) (v : Z) =>
            let '(walk, _) :=
              foldl (fun '(walk, volIdx) (u : Z) =>
                       (walk ++ [volIdx], volIdx + xStride))
                (walk, currentVolIdxRow) (seqZ 0 width) in
            (walk, currentVolIdxRow + yStride))
     ([], origin) (seqZ 0 height)).1.

(** The voxel that a viewer shows at the pixel [(u, v)] of the slice
    [slice]. *)
Definition shown_voxel (orientation : Orientation) (dimensions : Z * Z * Z)
    (slice u v : Z) : Z * Z * Z :=
  let '(dimX, dimY, dimZ) := dimensions in
  match orientation with
  | Axial => (u, dimY - 1 - v, slice)
  | Coronal => (u, slice, v)
  | Sagittal => (slice, u, v)
  end.

(** [idx = z * dimX * dimY + y * dimX + x] *)
Definition flat_index (dimensions : Z * Z * Z) (p : Z * Z * Z) : Z :=
  let '(dimX, dimY, dimZ) := dimensions in
  let '(x, y, z) := p in
  z * dimX * dimY + y * dimX + x.

(** ** The volume of a DICOM series ([parseDicomFiles], dicomUtils.ts)

    The parser of the files is a library; what is modelled is the
    construction of the volume from the images of the series that the
    library hands over ([series.images], sorted): of each image the
    numbers of its rows and columns, its interpreted pixel data, its
    pixel spacing and its slice thickness, where the file has them.
    The numbers of rows and columns are unsigned fields of the file;
    the theorems assume them not negative. *)
Record DicomImage : Type := mkImage {
  getRows : Z;
  getCols : Z;
  getInterpretedData : list Q;
  getPixelSpacing : option (Q * Q);
  getSliceThickness : option Q
}.

(** The body of the copy loop for the pixel [j] of an image whose pixels
    go to [offset] and after: [data[offset + j] = val], and the running
    minimum and maximum. *)
Definition copy_step (pixels : list Q) (offset : Z)
    (st : tarray * ext * ext) (j : Z) : tarray * ext * ext :=
  let '(data, mn, mx) := st in
  match zget pixels j with
  | Some val =>
      (aset data (offset + j) val,
       if lt_ext val mn then Fin val else mn,
       if gt_ext val mx then Fin val else mx)
  | None => st
  end.

(** The copy of one image. *)
Definition copy_image (st : tarray * ext * ext * Z) (img : DicomImage)
    : tarray * ext * ext * Z :=
  let '(data, mn, mx, offset) := st in
  let pixels := getInterpretedData img in
  let '(data, mn, mx) :=
    foldl (copy_step pixels offset) (data, mn, mx) (seqZ 0 (zlen pixels)) in
  (data, mn, mx, offset + zlen pixels).

Definition parseDicomFiles (images : list DicomImage)
    : option (VolumeData tarray) :=
  match images with
  | [] => None
  | first :: _ =>
      let rows := getRows first in
      let cols := getCols first in
      let depth := zlen images in
      let totalSize := rows * cols * depth in
      let data := new_array Float32 totalSize in
      let '(data, mn, mx, _) :=
        foldl copy_image (data, Infinity, NegInfinity, 0) images in
      let spacing := getPixelSpacing first in
      let thickness := getSliceThickness first in
      Some (mkVolume
              (mkHeader [3; cols; rows; depth; 1; 1; 1; 1]
                 [1%Q;
                  match spacing with Some (_, c) => c | None => 1%Q end;
                  match spacing with Some (r, _) => r | None => 1%Q end;
                  match thickness with Some t => or_one t | None => 1%Q end;
                  0%Q; 0%Q; 0%Q; 0%Q]
                 16)
              data (cols, rows, depth) mn mx)
  end.

(* ================================================================== *)
(** * Properties *)

(** ** Arrays *)

Lemma zget_lt {A} (l : list A) i : 0 <= i < zlen l -> is_Some (zget l i).
Proof.
  intros [H0 H1]. unfold zget, zlen in *.
  destruct (Z.ltb_spec i 0); [lia|].
  apply lookup_lt_is_Some. lia.
Qed.

(** ** Histogram estimator *)

Section histogram.
Variables (mn stp : Q).





End histogram.

Section strided.
Variables (len stride : Z).
Hypothesis stride_pos : 1 <= stride.

(** [k * stride] is below [len] for exactly the first
    [ceil(len / stride)] multiples. *)
Lemma strided_lt_iff (k : Z) :
  0 <= k -> k * stride < len <-> k < visited_count len stride.
Proof.
  intros Hk. unfold visited_count. split; intros H.
  - assert (k + 1 <= (len + stride - 1) / stride); [|lia].
    apply Z.div_le_lower_bound; lia.
  - assert (stride * (k + 1) <= len + stride - 1); [|lia].
    etrans; [|apply (Z.mul_div_le _ stride); lia].
    apply Z.mul_le_mono_nonneg_l; lia.
Qed.

End strided.

Section histogram_scan.
Variables (data : list Q) (mn stp : Q) (stride : Z).
Hypothesis stride_pos : 1 <= stride.





End histogram_scan.








(** ** Arrays, continued *)

Lemma zget_Some {A} (l : list A) (i : Z) (x : A) :
  zget l i = Some x <-> 0 <= i /\ l !! Z.to_nat i = Some x.
Proof.
  unfold zget. destruct (Z.ltb_spec i 0).
  - split; [done|intros [? _]; lia].
  - split; [intros ?; split; [lia|done]|intros [_ ?]; done].
Qed.

Lemma zget_of_nat {A} (l : list A) (n : nat) : zget l (Z.of_nat n) = l !! n.
Proof.
  unfold zget. destruct (Z.ltb_spec (Z.of_nat n) 0); [lia|].
  by rewrite Nat2Z.id.
Qed.

Lemma zset_of_nat {A} (l : list A) (n : nat) (x : A) :
  zset l (Z.of_nat n) x = <[n := x]> l.
Proof.
  unfold zset. destruct (Z.ltb_spec (Z.of_nat n) 0); [lia|].
  by rewrite Nat2Z.id.
Qed.

Lemma zset_length {A} (l : list A) (i : Z) (x : A) : zlen (zset l i x) = zlen l.
Proof.
  unfold zset, zlen. destruct (i <? 0); [done|]. by rewrite length_insert.
Qed.

(** Writing past a filled prefix extends the prefix by one. *)
Lemma insert_prefix_replicate {A} (pre : list A) (x d : A) (n : nat) :
  <[length pre := x]> (pre ++ replicate (S n) d) = (pre ++ [x]) ++ replicate n d.
Proof.
  rewrite insert_app_r_alt by lia. rewrite Nat.sub_diag. simpl.
  by rewrite <- app_assoc.
Qed.

(** ** Study difference engine *)

Lemma running_min_spec (l : list Q) (m : ext) :
  match running_min m l with
  | Fin lo => m <> NegInfinity
              /\ (m = Fin lo \/ lo ∈ l)
              /\ (forall v, v ∈ l -> (lo <= v)%Q)
              /\ (forall q, m = Fin q -> (lo <= q)%Q)
  | Infinity => l = [] /\ m = Infinity
  | NegInfinity => m = NegInfinity
  end.
Proof.
  revert m. induction l as [|x l IH]; intros m.
  { destruct m; simpl; [done| |done].
    split_and!; [done|by left|by intros v ?%elem_of_nil|].
    intros ? [= <-]. apply Qle_refl. }
  change (running_min m (x :: l))
    with (running_min (if lt_ext x m then Fin x else m) l).
  specialize (IH (if lt_ext x m then Fin x else m)).
  destruct (running_min _ l) as [|lo|] eqn:Hr.
  - destruct m; simpl in IH; [done|destruct (Qlt_le_dec x q); done|done].
  - destruct IH as (Hne & Hin & Hle & Hm).
    assert (m <> NegInfinity) as Hne' by (by intros ->).
    split_and!; [done| | |].
    + destruct Hin as [Hin|Hin]; [|right; by apply elem_of_cons; right].
      destruct m as [|q|]; simpl in Hin; [done| |].
      * destruct (Qlt_le_dec x q); simplify_eq; [right; apply elem_of_cons|]; by left.
      * simplify_eq. right. apply elem_of_cons. by left.
    + intros v [->|Hv]%elem_of_cons; [|by apply Hle].
      destruct m as [|q|]; simpl in Hm; [done| |by apply Hm].
      destruct (Qlt_le_dec x q) as [Hlt|Hge]; [by apply Hm|].
      eapply Qle_trans; [by apply Hm|done].
    + intros q ->. simpl in Hm. destruct (Qlt_le_dec x q) as [Hlt|Hge]; [|by apply Hm].
      eapply Qle_trans; [by apply Hm|]. by apply Qlt_le_weak.
  - destruct IH as [-> Hm]. destruct m; simpl in Hm; [done| |done].
    destruct (Qlt_le_dec x q); done.
Qed.

Lemma running_max_spec (l : list Q) (m : ext) :
  match running_max m l with
  | Fin hi => m <> Infinity
              /\ (m = Fin hi \/ hi ∈ l)
              /\ (forall v, v ∈ l -> (v <= hi)%Q)
              /\ (forall q, m = Fin q -> (q <= hi)%Q)
  | NegInfinity => l = [] /\ m = NegInfinity
  | Infinity => m = Infinity
  end.
Proof.
  revert m. induction l as [|x l IH]; intros m.
  { destruct m; simpl; [done| |done].
    split_and!; [done|by left|by intros v ?%elem_of_nil|].
    intros ? [= <-]. apply Qle_refl. }
  change (running_max m (x :: l))
    with (running_max (if gt_ext x m then Fin x else m) l).
  specialize (IH (if gt_ext x m then Fin x else m)).
  destruct (running_max _ l) as [|hi|] eqn:Hr.
  - destruct IH as [-> Hm]. destruct m; simpl in Hm; [done| |done].
    destruct (Qlt_le_dec q x); done.
  - destruct IH as (Hne & Hin & Hle & Hm).
    assert (m <> Infinity) as Hne' by (by intros ->).
    split_and!; [done| | |].
    + destruct Hin as [Hin|Hin]; [|right; by apply elem_of_cons; right].
      destruct m as [|q|]; simpl in Hin; [|  |done].
      * simplify_eq. right. apply elem_of_cons. by left.
      * destruct (Qlt_le_dec q x); simplify_eq; [right; apply elem_of_cons|]; by left.
    + intros v [->|Hv]%elem_of_cons; [|by apply Hle].
      destruct m as [|q|]; simpl in Hm; [by apply Hm| |done].
      destruct (Qlt_le_dec q x) as [Hlt|Hge]; [by apply Hm|].
      eapply Qle_trans; [done|by apply Hm].
    + intros q ->. simpl in Hm. destruct (Qlt_le_dec q x) as [Hlt|Hge]; [|by apply Hm].
      eapply Qle_trans; [|by apply Hm]. by apply Qlt_le_weak.
  - destruct m; simpl in IH; [done|destruct (Qlt_le_dec q x); done|done].
Qed.

(** The subtraction loop after its first [k] iterations. *)
Lemma diff_loop_prefix (dataA dataB : tarray) (k : nat) :
  alen dataA = alen dataB -> (k <= length (elems dataA))%nat ->
  let ds := differences (elems dataA) (elems dataB) in
  foldl (diff_step dataA dataB)
    (new_array Float32 (alen dataA), Infinity, NegInfinity)
    (seqZ 0 (Z.of_nat k))
  = (mkArr Float32 (take k ds ++ replicate (length (elems dataA) - k) 0%Q),
     running_min Infinity (take k ds), running_max NegInfinity (take k ds)).
Proof.
  intros Hlen Hk ds. unfold alen, zlen in Hlen.
  induction k as [|k IH].
  { simpl. unfold new_array, alen, zlen. by rewrite Nat2Z.id, Nat.sub_0_r. }
  rewrite seqZ_S, foldl_app, IH by lia. clear IH. cbn [foldl diff_step].
  rewrite Z.add_0_l. unfold aget. rewrite !zget_of_nat.
  destruct (lookup_lt_is_Some_2 (elems dataA) k) as [a Ha]; [lia|].
  destruct (lookup_lt_is_Some_2 (elems dataB) k) as [b Hb]; [lia|].
  rewrite Ha, Hb.
  assert (ds !! k = Some (b - a)%Q) as Hd.
  { unfold ds, differences. rewrite lookup_zip_with, Ha. simpl. by rewrite Hb. }
  rewrite (take_S_r _ _ _ Hd).
  unfold running_min, running_max. rewrite !foldl_app. cbn [foldl].
  do 2 f_equal.
  unfold aset. cbn [kind elems coerce]. f_equal.
  rewrite zset_of_nat.
  assert (length (take k ds) = k) as Hlk.
  { rewrite length_take. apply lookup_lt_Some in Hd. lia. }
  replace (length (elems dataA) - k)%nat with (S (length (elems dataA) - S k))
    by lia.
  rewrite <- Hlk at 1. apply insert_prefix_replicate.
Qed.

(** With equal lengths the call returns the element-wise differences,
    with the running minimum and maximum over all of them. *)
Lemma computeVolumeDifference_eq (volA volB : VolumeData tarray) :
  alen (data volA) = alen (data volB) ->
  let ds := differences (elems (data volA)) (elems (data volB)) in
  computeVolumeDifference volA volB
  = Some (mkVolume (with_datatypeCode (header volA) 16) (mkArr Float32 ds)
            (dimensions volA) (running_min Infinity ds)
            (running_max NegInfinity ds)).
Proof.
  intros Hlen ds. unfold computeVolumeDifference.
  rewrite Hlen, Z.eqb_refl. cbn [negb]. rewrite <- Hlen.
  pose proof (diff_loop_prefix (data volA) (data volB)
                (length (elems (data volA))) Hlen (le_n _)) as Hloop.
  cbn zeta in Hloop. unfold alen at 2, zlen. rewrite Hloop.
  assert (length ds = length (elems (data volA))) as Hds.
  { unfold ds, differences. rewrite length_zip_with.
    unfold alen, zlen in Hlen. lia. }
  rewrite Nat.sub_diag, app_nil_r, <- Hds, firstn_all. done.
Qed.

Lemma differences_lookup (dataA dataB : list Q) (i : Z) (a b : Q) :
  zget dataA i = Some a -> zget dataB i = Some b ->
  zget (differences dataA dataB) i = Some (b - a)%Q.
Proof.
  intros [Hi Ha]%zget_Some [_ Hb]%zget_Some. apply zget_Some. split; [done|].
  unfold differences. rewrite lookup_zip_with, Ha. simpl. by rewrite Hb.
Qed.


(** C4: the call fails exactly when the two data lengths differ; it then
    returns no result at all. *)
Theorem computeVolumeDifference_None_iff (volA volB : VolumeData tarray) :
  computeVolumeDifference volA volB = None
  <-> alen (data volA) <> alen (data volB).
Proof.
  split.
  - intros Hnone Hlen.
    by rewrite (computeVolumeDifference_eq _ _ Hlen) in Hnone.
  - intros Hne. unfold computeVolumeDifference.
    by destruct (Z.eqb_spec (alen (data volA)) (alen (data volB))).
Qed.




Lemma coerce_category (inA inB : bool) :
  coerce Uint8 (category inA inB) = category inA inB.
Proof. by destruct inA, inB. Qed.

Lemma seg_step_category (dataA dataB diffData : tarray) (i : Z) :
  seg_step dataA dataB diffData i
  = aset diffData i (category (positive_at dataA i) (positive_at dataB i)).
Proof.
  unfold seg_step. by destruct (positive_at dataA i), (positive_at dataB i).
Qed.

(** The classification loop after its first [k] iterations. *)
Lemma seg_loop_prefix (dataA dataB : tarray) (len : Z) (k : nat) :
  Z.of_nat k <= len ->
  foldl (seg_step dataA dataB) (new_array Uint8 len) (seqZ 0 (Z.of_nat k))
  = mkArr Uint8
      (((fun i => category (positive_at dataA i) (positive_at dataB i))
          <$> seqZ 0 (Z.of_nat k))
       ++ replicate (Z.to_nat len - k) 0%Q).
Proof.
  intros Hk. induction k as [|k IH].
  { simpl. unfold new_array. by rewrite Nat.sub_0_r. }
  rewrite seqZ_S, foldl_app, IH by lia. clear IH. cbn [foldl].
  rewrite seg_step_category, Z.add_0_l. unfold aset. cbn [kind elems].
  rewrite coerce_category, fmap_app. cbn [fmap list_fmap]. f_equal.
  rewrite zset_of_nat.
  replace (Z.to_nat len - k)%nat with (S (Z.to_nat len - S k)) by lia.
  set (pre := _ <$> seqZ 0 (Z.of_nat k)).
  assert (length pre = k) as Hpre.
  { unfold pre. rewrite length_fmap, length_seqZ. lia. }
  rewrite <- Hpre at 1. apply insert_prefix_replicate.
Qed.

Lemma present_new_array (len i : Z) : positive_at (new_array Uint8 len) i = false.
Proof.
  unfold positive_at, aget, new_array. cbn [elems].
  destruct (zget _ i) as [v|] eqn:Hv; [|done].
  apply zget_Some in Hv as [_ Hv]. apply lookup_replicate in Hv as [-> _]. done.
Qed.

(** A call that gets past the two guards returns the categories of the
    voxels 0 .. len-1 under the dimensions [dimRef]. *)
Lemma computeSegmentationDifference_eq
    (segA segB : option (VolumeData tarray)) (dimRef : Z * Z * Z) :
  (segA <> None \/ segB <> None) -> seg_len segA segB <> 0 ->
  computeSegmentationDifference segA segB dimRef
  = Some (mkVolume
            (mkHeader [3; dimRef.1.1; dimRef.1.2; dimRef.2; 1; 1; 1; 1] [] 2)
            (mkArr Uint8
               ((fun i => category (present segA i) (present segB i))
                  <$> seqZ 0 (seg_len segA segB)))
            dimRef (Fin 0) (Fin 3)).
Proof.
  intros Hsome Hlen. destruct dimRef as [[d0 d1] d2].
  assert (0 <= seg_len segA segB) as Hpos.
  { unfold seg_len, alen, zlen. destruct segA, segB; lia. }
  unfold computeSegmentationDifference.
  destruct (Z.eqb_spec (seg_len segA segB) 0) as [|_]; [done|].
  pose proof (fun dA dB => seg_loop_prefix dA dB (seg_len segA segB)
                (Z.to_nat (seg_len segA segB))) as Hloop.
  rewrite Z2Nat.id in Hloop by done.
  destruct segA as [a|], segB as [b|]; [..|by destruct Hsome];
    rewrite Hloop by lia; rewrite Nat.sub_diag, app_nil_r; cbn [fst snd];
    do 3 f_equal; apply list_fmap_ext; intros _ i _; cbn [present];
    by rewrite ?present_new_array.
Qed.

(** C3: the call returns a mask unless both inputs are absent or the
    length it works on is 0; the mask classifies every voxel by presence
    (value > 0, an absent mask being all zero): 0 in neither, 1 in A only,
    2 in B only, 3 in both.  On two identical masks a positive voxel gets 3
    and any other voxel 0; on disjoint masks a voxel present in one of
    them gets 1 or 2 and no voxel gets 3. *)
Theorem computeSegmentationDifference_spec
    (segA segB : option (VolumeData tarray)) (dimRef : Z * Z * Z) :
  (computeSegmentationDifference segA segB dimRef = None
   <-> (segA = None /\ segB = None) \/ seg_len segA segB = 0)
  /\ forall out,
      computeSegmentationDifference segA segB dimRef = Some out ->
      kind (data out) = Uint8
      /\ dimensions out = dimRef
      /\ alen (data out) = seg_len segA segB
      /\ (forall i, 0 <= i < seg_len segA segB ->
            aget (data out) i
            = Some (category (present segA i) (present segB i)))
      /\ (segB = segA ->
          forall i, 0 <= i < seg_len segA segB ->
            aget (data out) i = Some (if present segA i then 3%Q else 0%Q))
      /\ ((forall i, present segA i && present segB i = false) ->
          forall i v, aget (data out) i = Some v ->
            v <> 3%Q
            /\ (v = 0%Q \/ v = 1%Q \/ v = 2%Q)
            /\ (present segA i || present segB i = true ->
                v = 1%Q \/ v = 2%Q)).
Proof.
  assert (segA = None /\ segB = None \/ seg_len segA segB = 0
          \/ ((segA <> None \/ segB <> None) /\ seg_len segA segB <> 0))
    as Hcases.
  { destruct (decide (seg_len segA segB = 0)); [by auto|].
    destruct segA; [right; right; by auto|].
    destruct segB; [right; right; by auto|by auto]. }
  assert (forall i, 0 <= i < seg_len segA segB ->
    zget ((fun i => category (present segA i) (present segB i))
            <$> seqZ 0 (seg_len segA segB)) i
    = Some (category (present segA i) (present segB i))) as Hget.
  { intros i Hi. apply zget_Some. split; [lia|].
    rewrite list_lookup_fmap, lookup_seqZ_lt by lia. simpl.
    by rewrite Z2Nat.id by lia. }
  split.
  - split.
    + intros Hnone. destruct Hcases as [?|[?|[H1 H2]]]; [by auto..|].
      by rewrite computeSegmentationDifference_eq in Hnone.
    + intros [[-> ->]|Hlen]; [done|].
      unfold computeSegmentationDifference. rewrite Hlen.
      by destruct segA, segB.
  - intros out Hout. destruct Hcases as [[-> ->]|[Hlen|[H1 H2]]]; [done|..].
    { unfold computeSegmentationDifference in Hout. rewrite Hlen in Hout.
      by destruct segA, segB. }
    rewrite computeSegmentationDifference_eq in Hout by done.
    simplify_eq. cbn [data kind elems]. unfold aget, alen. cbn [elems].
    assert (0 <= seg_len segA segB).
    { unfold seg_len, alen, zlen. destruct segA, segB; lia. }
    split_and!; [done|done| |done|..].
    + unfold zlen. rewrite length_fmap, length_seqZ. lia.
    + intros -> i Hi. rewrite Hget by done. by destruct (present segA i).
    + intros Hdisj i v [Hi Hv]%zget_Some.
      rewrite list_lookup_fmap in Hv.
      destruct (seqZ 0 (seg_len segA segB) !! Z.to_nat i) as [j|] eqn:Hj;
        [|done].
      apply lookup_seqZ in Hj as [-> Hj]. simpl in Hv. simplify_eq.
      rewrite Z.add_0_l, Z2Nat.id by done.
      specialize (Hdisj i).
      destruct (present segA i), (present segB i); simplify_eq/=;
        split_and!; try done; auto.
Qed.

Lemma computeSegmentationDifference_spec_witness :
  exists out,
    computeSegmentationDifference
      (Some (mkVolume (mkHeader [3; 3; 1; 1] [] 2) (mkArr Uint8 [1; 0; 2]%Q)
               (3, 1, 1) (Fin 0) (Fin 255)))
      (Some (mkVolume (mkHeader [3; 3; 1; 1] [] 2) (mkArr Uint8 [0; 3; 2]%Q)
               (3, 1, 1) (Fin 0) (Fin 255)))
      (3, 1, 1)
    = Some out
    /\ aget (data out) 0 = Some 1%Q
    /\ aget (data out) 1 = Some 2%Q
    /\ aget (data out) 2 = Some 3%Q.
Proof.
  eexists. split; [reflexivity|].
  destruct (computeSegmentationDifference_spec
    (Some (mkVolume (mkHeader [3; 3; 1; 1] [] 2) (mkArr Uint8 [1; 0; 2]%Q)
             (3, 1, 1) (Fin 0) (Fin 255)))
    (Some (mkVolume (mkHeader [3; 3; 1; 1] [] 2) (mkArr Uint8 [0; 3; 2]%Q)
             (3, 1, 1) (Fin 0) (Fin 255)))
    (3, 1, 1)) as [_ Hout].
  destruct (Hout _ eq_refl) as (_ & _ & _ & Hcat & _).
  split_and!; [apply (Hcat 0)|apply (Hcat 1)|apply (Hcat 2)]; by vm_compute.
Defined.

(** C8 fails on the code: the output takes its dimensions from [dimRef]
    and its length from the mask, and nothing compares the two.  In the
    comparison view, a first study of 1x1x1 voxels without a mask and a
    second study of 2x1x1 voxels with a mask, all four satisfying
    [data.length == dimX*dimY*dimZ], give a difference mask of dimensions
    1x1x1 that holds 2 voxels. *)
Theorem handleComputeDiff_dims_mismatch :
  well_formed (mkVolume (mkHeader [3; 1; 1; 1] [] 2) (mkArr Uint8 [5%Q])
                 (1, 1, 1) (Fin 5) (Fin 5))
  /\ well_formed (mkVolume (mkHeader [3; 2; 1; 1] [] 2) (mkArr Uint8 [1; 9]%Q)
                    (2, 1, 1) (Fin 1) (Fin 1))
  /\ well_formed (mkVolume (mkHeader [3; 2; 1; 1] [] 2) (mkArr Uint8 [1; 0]%Q)
                    (2, 1, 1) (Fin 0) (Fin 255))
  /\ handleComputeDiff
       (mkStudy
          (mkVolume (mkHeader [3; 1; 1; 1] [] 2) (mkArr Uint8 [5%Q])
             (1, 1, 1) (Fin 5) (Fin 5))
          None)
       (mkStudy
          (mkVolume (mkHeader [3; 2; 1; 1] [] 2) (mkArr Uint8 [1; 9]%Q)
             (2, 1, 1) (Fin 1) (Fin 1))
          (Some (mkVolume (mkHeader [3; 2; 1; 1] [] 2) (mkArr Uint8 [1; 0]%Q)
                   (2, 1, 1) (Fin 0) (Fin 255))))
     = (None,
        Some (mkVolume (mkHeader [3; 1; 1; 1; 1; 1; 1; 1] [] 2)
                (mkArr Uint8 [2; 0]%Q) (1, 1, 1) (Fin 0) (Fin 3)))
  /\ ~ well_formed (mkVolume (mkHeader [3; 1; 1; 1; 1; 1; 1; 1] [] 2)
                      (mkArr Uint8 [2; 0]%Q) (1, 1, 1) (Fin 0) (Fin 3)).
Proof. split_and!; [reflexivity..|]. unfold well_formed. vm_compute. discriminate. Qed.

(** ** Threshold solvers *)














(** ** Manual paint and erase *)

Lemma foldl_bind {A B C} (f : A -> C -> A) (g : B -> list C) (a : A) (l : list B) :
  foldl f a (l ≫= g) = foldl (fun a x => foldl f a (g x)) a l.
Proof.
  revert a. induction l as [|x l IH]; intros a; [done|].
  cbn [mbind list_bind]. by rewrite foldl_app, IH.
Qed.

Lemma foldl_ext_in {A B} (f g : A -> B -> A) (a : A) (l : list B) :
  (forall a x, x ∈ l -> f a x = g a x) -> foldl f a l = foldl g a l.
Proof.
  revert a. induction l as [|x l IH]; intros a Hfg; [done|]. simpl.
  rewrite Hfg by (apply elem_of_cons; by left).
  apply IH. intros a' x' Hx'. apply Hfg. apply elem_of_cons. by right.
Qed.

(** The loops amount to one write of [val] per painted index. *)
Lemma paint_sphere_fold (dimX dimY dimZ x y z : Z) (val : Q) (radius : Z)
    (a : tarray) :
  paint_sphere dimX dimY dimZ x y z val radius a
  = foldl (fun a i => aset a i val) a
      (painted_indices dimX dimY dimZ x y z radius).
Proof.
  unfold paint_sphere, painted_indices. rewrite foldl_bind.
  apply foldl_ext_in. intros a1 dz _. rewrite foldl_bind.
  apply foldl_ext_in. intros a2 dy _. rewrite foldl_bind.
  apply foldl_ext_in. intros a3 dx _.
  destruct (_ <=? _); [|done]. by destruct (_ && _).
Qed.

Lemma aget_aset (a : tarray) (j i : Z) (v : Q) :
  0 <= j < alen a ->
  aget (aset a j v) i = if decide (i = j) then Some (coerce (kind a) v) else aget a i.
Proof.
  intros Hj. unfold aget, aset, alen, zlen in *. cbn [elems].
  unfold zset. destruct (Z.ltb_spec j 0); [lia|].
  unfold zget. destruct (Z.ltb_spec i 0).
  { case_decide; [lia|done]. }
  destruct (decide (i = j)) as [->|Hne].
  - apply list_lookup_insert_eq. lia.
  - apply list_lookup_insert_ne. lia.
Qed.

Lemma aget_fold_aset (l : list Z) (a : tarray) (v : Q) (i : Z) :
  Forall (fun j => 0 <= j < alen a) l ->
  aget (foldl (fun a j => aset a j v) a l) i
  = if decide (i ∈ l) then Some (coerce (kind a) v) else aget a i.
Proof.
  revert a. induction l as [|j l IH]; intros a Hl.
  { cbn [foldl]. destruct (decide (i ∈ [])) as [Hi|_]; [by apply elem_of_nil in Hi|done]. }
  apply Forall_cons in Hl as [Hj Hl]. cbn [foldl].
  rewrite IH.
  2:{ eapply Forall_impl; [done|]. intros k Hk. unfold alen, aset. cbn [elems].
      by rewrite zset_length. }
  cbn [aset kind]. rewrite aget_aset by done.
  destruct (decide (i ∈ l)) as [Hi|Hi].
  - case_decide as Hc; [done|]. destruct Hc. apply elem_of_cons. by right.
  - destruct (decide (i = j)) as [->|Hne].
    + case_decide as Hc; [done|]. destruct Hc. apply elem_of_cons. by left.
    + case_decide as Hc; [|done]. by apply elem_of_cons in Hc as [?|?].
Qed.

Lemma fold_aset_shape (l : list Z) (a : tarray) (v : Q) :
  kind (foldl (fun a j => aset a j v) a l) = kind a
  /\ alen (foldl (fun a j => aset a j v) a l) = alen a.
Proof.
  revert a. induction l as [|j l IH]; intros a; [done|]. cbn [foldl].
  destruct (IH (aset a j v)) as [-> ->]. unfold aset, alen. cbn [kind elems].
  by rewrite zset_length.
Qed.

Lemma elem_of_offsets (radius d : Z) :
  d ∈ offsets radius <-> - radius <= d <= radius.
Proof. unfold offsets. rewrite elem_of_seqZ. lia. Qed.

Lemma painted_indices_spec (dimX dimY dimZ x y z radius i : Z) :
  i ∈ painted_indices dimX dimY dimZ x y z radius
  <-> exists px py pz,
        (0 <= px < dimX /\ 0 <= py < dimY /\ 0 <= pz < dimZ)
        /\ i = pz * dimX * dimY + py * dimX + px
        /\ (- radius <= px - x <= radius /\ - radius <= py - y <= radius
            /\ - radius <= pz - z <= radius)
        /\ (px - x) * (px - x) + (py - y) * (py - y) + (pz - z) * (pz - z)
           <= radius * radius.
Proof.
  unfold painted_indices. split.
  - intros (dz & (dy & (dx & Hi & Hdx)%list_elem_of_bind & Hdy)%list_elem_of_bind
            & Hdz)%list_elem_of_bind.
    apply elem_of_offsets in Hdx, Hdy, Hdz.
    destruct (Z.leb_spec (dx * dx + dy * dy + dz * dz) (radius * radius));
      [|by apply elem_of_nil in Hi].
    destruct (_ && _) eqn:Hb; [|by apply elem_of_nil in Hi].
    apply list_elem_of_singleton in Hi as ->.
    exists (x + dx), (y + dy), (z + dz).
    replace (x + dx - x) with dx by lia. replace (y + dy - y) with dy by lia.
    replace (z + dz - z) with dz by lia. split_and!; try done; lia.
  - intros (px & py & pz & Hb & -> & (Hx & Hy & Hz) & Hball).
    apply list_elem_of_bind. exists (pz - z). split; [|by apply elem_of_offsets].
    apply list_elem_of_bind. exists (py - y). split; [|by apply elem_of_offsets].
    apply list_elem_of_bind. exists (px - x). split; [|by apply elem_of_offsets].
    destruct (Z.leb_spec ((px - x) * (px - x) + (py - y) * (py - y)
                          + (pz - z) * (pz - z)) (radius * radius)); [|lia].
    replace (x + (px - x)) with px by lia. replace (y + (py - y)) with py by lia.
    replace (z + (pz - z)) with pz by lia.
    replace (_ && _) with true; [by apply list_elem_of_singleton|].
    symmetry. repeat (apply andb_true_intro; split); lia.
Qed.

Lemma idx_bounds (dimX dimY dimZ px py pz : Z) :
  0 <= px < dimX -> 0 <= py < dimY -> 0 <= pz < dimZ ->
  0 <= pz * dimX * dimY + py * dimX + px < dimX * dimY * dimZ.
Proof.
  intros Hx Hy Hz.
  assert (0 <= dimX * dimY) by (apply Z.mul_nonneg_nonneg; lia).
  assert (0 <= pz * (dimX * dimY)) by (apply Z.mul_nonneg_nonneg; lia).
  assert (0 <= py * dimX) by (apply Z.mul_nonneg_nonneg; lia).
  assert (pz * (dimX * dimY) <= (dimZ - 1) * (dimX * dimY))
    by (apply Z.mul_le_mono_nonneg_r; lia).
  assert (py * dimX <= (dimY - 1) * dimX)
    by (apply Z.mul_le_mono_nonneg_r; lia).
  lia.
Qed.

(** In-bounds voxels with the same flat index are the same voxel. *)
Lemma idx_inj (dimX dimY px py pz px' py' pz' : Z) :
  0 <= px < dimX -> 0 <= px' < dimX -> 0 <= py < dimY -> 0 <= py' < dimY ->
  pz * dimX * dimY + py * dimX + px = pz' * dimX * dimY + py' * dimX + px' ->
  px = px' /\ py = py' /\ pz = pz'.
Proof.
  intros Hx Hx' Hy Hy' Heq.
  destruct (Z.div_mod_unique dimX (pz * dimY + py) (pz' * dimY + py') px px')
    as [Hq Hr]; [lia|lia|lia|].
  destruct (Z.div_mod_unique dimY pz pz' py py') as [Hz Hy'']; [lia|lia|lia|].
  done.
Qed.

Lemma list_bind_ext_in {A B} (f g : A -> list B) (l : list A) :
  (forall x, x ∈ l -> f x = g x) -> l ≫= f = l ≫= g.
Proof.
  induction l as [|x l IH]; intros Hfg; [done|]. rewrite !bind_cons.
  rewrite Hfg by (by left). f_equal. apply IH. intros y Hy. apply Hfg. by right.
Qed.

Lemma fmap_list_bind {A B C} (f : B -> C) (g : A -> list B) (l : list A) :
  f <$> (l ≫= g) = l ≫= (fun x => f <$> g x).
Proof.
  induction l as [|x l IH]; [done|]. by rewrite !bind_cons, fmap_app, IH.
Qed.

Lemma NoDup_ball_offsets (radius : Z) : NoDup (ball_offsets radius).
Proof.
  unfold ball_offsets.
  assert (forall dx dy dz : Z, NoDup
    (if dx * dx + dy * dy + dz * dz <=? radius * radius
     then [(dx, dy, dz)] else [])) as Hinner.
  { intros. destruct (_ <=? _); [apply NoDup_singleton|apply NoDup_nil_2]. }
  assert (forall (dx dy dz : Z) p,
    p ∈ (if dx * dx + dy * dy + dz * dz <=? radius * radius
         then [(dx, dy, dz)] else []) -> p = (dx, dy, dz)) as Hin.
  { intros dx dy dz p Hp. destruct (_ <=? _); [|by apply elem_of_nil in Hp].
    by apply list_elem_of_singleton in Hp. }
  apply NoDup_bind; [| |apply NoDup_seqZ].
  { intros dz dz' p _ _ (dy & (dx & ->%Hin & _)%list_elem_of_bind & _)%list_elem_of_bind
      (dy' & (dx' & Hp%Hin & _)%list_elem_of_bind & _)%list_elem_of_bind.
    by simplify_eq. }
  intros dz _. apply NoDup_bind; [| |apply NoDup_seqZ].
  { intros dy dy' p _ _ (dx & ->%Hin & _)%list_elem_of_bind
      (dx' & Hp%Hin & _)%list_elem_of_bind.
    by simplify_eq. }
  intros dy _. apply NoDup_bind; [| |apply NoDup_seqZ].
  { intros dx dx' p _ _ ->%Hin Hp%Hin. by simplify_eq. }
  intros dx _. apply Hinner.
Qed.

Lemma elem_of_ball_offsets (radius dx dy dz : Z) :
  (dx, dy, dz) ∈ ball_offsets radius ->
  - radius <= dx <= radius /\ - radius <= dy <= radius
  /\ - radius <= dz <= radius.
Proof.
  unfold ball_offsets.
  intros (dz' & (dy' & (dx' & Hp & Hdx)%list_elem_of_bind & Hdy)%list_elem_of_bind
          & Hdz)%list_elem_of_bind.
  apply elem_of_offsets in Hdx, Hdy, Hdz.
  destruct (_ <=? _); [|by apply elem_of_nil in Hp].
  apply list_elem_of_singleton in Hp. by simplify_eq.
Qed.

(** Around a centre at least [radius] voxels away from every face, no
    offset of the ball is clipped: the painted indices are the images of
    the offsets. *)
Lemma painted_indices_interior (dimX dimY dimZ x y z radius : Z) :
  radius <= x < dimX - radius -> radius <= y < dimY - radius ->
  radius <= z < dimZ - radius ->
  painted_indices dimX dimY dimZ x y z radius
  = (fun '(dx, dy, dz) => (z + dz) * dimX * dimY + (y + dy) * dimX + (x + dx))
      <$> ball_offsets radius.
Proof.
  intros Hx Hy Hz. unfold painted_indices, ball_offsets.
  rewrite fmap_list_bind. apply list_bind_ext_in. intros dz Hdz%elem_of_offsets.
  rewrite fmap_list_bind. apply list_bind_ext_in. intros dy Hdy%elem_of_offsets.
  rewrite fmap_list_bind. apply list_bind_ext_in. intros dx Hdx%elem_of_offsets.
  destruct (_ <=? _); [|done].
  replace (_ && _) with true; [done|].
  symmetry. repeat (apply andb_true_intro; split); lia.
Qed.

Lemma painted_indices_count (dimX dimY dimZ x y z radius : Z) :
  radius <= x < dimX - radius -> radius <= y < dimY - radius ->
  radius <= z < dimZ - radius ->
  NoDup (painted_indices dimX dimY dimZ x y z radius)
  /\ zlen (painted_indices dimX dimY dimZ x y z radius) = ball_count radius.
Proof.
  intros Hx Hy Hz. rewrite painted_indices_interior by done. split.
  - apply NoDup_fmap_2_strong; [|apply NoDup_ball_offsets].
    intros [[dx dy] dz] [[dx' dy'] dz'] H1%elem_of_ball_offsets
      H2%elem_of_ball_offsets Heq.
    apply idx_inj in Heq as (? & ? & ?); [|lia..].
    f_equal; [f_equal|]; lia.
  - unfold ball_count, zlen. by rewrite length_fmap.
Qed.

Lemma ball_count_small :
  ball_count 1 = 7 /\ ball_count 2 = 33 /\ ball_count 3 = 123.
Proof. by vm_compute. Qed.

Lemma coerce_paint_value (k : elt_kind) (val : Q) :
  val = 0%Q \/ val = 1%Q -> coerce k val = val.
Proof. intros [-> | ->]; by destruct k. Qed.

Lemma array_at_alter_eq (s : store) (l : loc) (f : tarray -> tarray) (p : Q) :
  (l < length (heap s))%nat ->
  array_at (mkStore (alter f l (heap s)) p) l = f (array_at s l).
Proof.
  intros Hl. unfold array_at. cbn [heap]. rewrite list_lookup_alter_eq.
  destruct (lookup_lt_is_Some_2 (heap s) l Hl) as [a ->]. done.
Qed.

Lemma array_at_alter_ge (s : store) (l : loc) (f : tarray -> tarray) (p : Q) :
  (length (heap s) <= l)%nat ->
  array_at (mkStore (alter f l (heap s)) p) l = array_at s l.
Proof.
  intros Hl. unfold array_at. cbn [heap]. rewrite list_lookup_alter_eq.
  by rewrite (lookup_ge_None_2 _ l).
Qed.

Lemma array_at_alter_ne (s : store) (l l' : loc) (f : tarray -> tarray) (p : Q) :
  l' <> l -> array_at (mkStore (alter f l (heap s)) p) l' = array_at s l'.
Proof.
  intros Hne. unfold array_at. cbn [heap]. by rewrite list_lookup_alter_ne.
Qed.

Lemma array_at_alloc_new (s : store) (a : tarray) (p : Q) :
  array_at (mkStore (heap s ++ [a]) p) (length (heap s)) = a.
Proof. unfold array_at. cbn [heap]. by rewrite list_lookup_middle. Qed.

Lemma array_at_alloc_old (s : store) (a : tarray) (l : loc) (p : Q) :
  (l < length (heap s))%nat ->
  array_at (mkStore (heap s ++ [a]) p) l = array_at s l.
Proof. intros Hl. unfold array_at. cbn [heap]. by rewrite lookup_app_l. Qed.

(** What a call of [handleDraw] does to the store: it paints on the array
    at the target location and hands on a volume with that location. *)
Lemma handleDraw_run (volume : VolumeData loc)
    (segmentation : option (VolumeData loc)) (x y z : Z) (val : Q)
    (radius : Z) (s : store) (dimX dimY dimZ : Z) :
  dimensions volume = (dimX, dimY, dimZ) ->
  ((draw_target s volume segmentation).1 <= length (heap s))%nat ->
  alen (draw_target s volume segmentation).2 = dimX * dimY * dimZ ->
  let l := (draw_target s volume segmentation).1 in
  let a := (draw_target s volume segmentation).2 in
  exists s',
    handleDraw (Some volume) segmentation true x y z val radius s
    = (Ok (Some (mkVolume
                   (match segmentation with
                    | Some m => header m
                    | None => with_datatypeCode (header volume) 2 end)
                   l
                   (match segmentation with
                    | Some m => dimensions m | None => dimensions volume end)
                   (match segmentation with
                    | Some m => min m | None => Fin 0 end)
                   (match segmentation with
                    | Some m => max m | None => Fin 1 end))), s')
    /\ (forall l', l' <> l -> (l' < length (heap s))%nat ->
          heap s' !! l' = heap s !! l')
    /\ array_at s' l = paint_sphere dimX dimY dimZ x y z val radius a.
Proof.
  intros Hdims Hl Hlen l a.
  unfold handleDraw, l, a, draw_target in *. cbn [negb].
  destruct segmentation as [m|]; cbn [fst snd] in *.
  - unfold bind, ret, update_array. rewrite Hdims. eexists.
    split; [done|]. split.
    + intros l' Hne _. cbn [heap]. by rewrite list_lookup_alter_ne.
    + destruct (decide (data m < length (heap s))%nat) as [|Hge];
        [by apply array_at_alter_eq|].
      rewrite array_at_alter_ge by lia.
      unfold array_at in *. rewrite (lookup_ge_None_2 _ (data m)) in * by lia.
      simpl in *. unfold alen, zlen in Hlen. simpl in Hlen.
      assert (painted_indices dimX dimY dimZ x y z radius = []) as Hnil.
      { destruct (painted_indices dimX dimY dimZ x y z radius) as [|i p] eqn:Hp;
          [done|].
        assert (i ∈ i :: p) as Hi by (by left). rewrite <- Hp in Hi.
        apply painted_indices_spec in Hi as (px & py & pz & Hb & _).
        pose proof (idx_bounds dimX dimY dimZ px py pz). lia. }
      by rewrite paint_sphere_fold, Hnil.
  - unfold bind, ret, update_array, length_of, alloc. cbn [data heap progress].
    rewrite Hdims. eexists. split; [done|]. split.
    + intros l' Hne Hlt. cbn [heap].
      by rewrite list_lookup_alter_ne, lookup_app_l.
    + rewrite array_at_alter_eq by (cbn [heap]; rewrite length_app; simpl; lia).
      by rewrite array_at_alloc_new.
Qed.

(** C6: [handleDraw] paints on the mask there is, in place, or on a fresh
    mask of zeros; on a mask as long as the volume it stores the value in
    exactly the in-bounds voxels whose offset from the centre has each
    component in [-r, r] and satisfies dx^2+dy^2+dz^2 <= r^2, every other
    voxel and every other array staying as it was; around a fully interior
    centre the voxels set are as many as the offsets of the ball, 7 for
    r = 1.  The value stored is the given one for the two values the
    brush uses, 1 and 0. *)
Theorem handleDraw_spec (volume : VolumeData loc)
    (segmentation : option (VolumeData loc)) (x y z : Z) (val : Q)
    (radius : Z) (s : store) (dimX dimY dimZ : Z) :
  dimensions volume = (dimX, dimY, dimZ) ->
  ((draw_target s volume segmentation).1 <= length (heap s))%nat ->
  alen (draw_target s volume segmentation).2 = dimX * dimY * dimZ ->
  let l := (draw_target s volume segmentation).1 in
  let a := (draw_target s volume segmentation).2 in
  let painted := painted_indices dimX dimY dimZ x y z radius in
  exists out s',
    handleDraw (Some volume) segmentation true x y z val radius s
    = (Ok (Some out), s')
    /\ data out = l
    /\ (forall l', l' <> l -> (l' < length (heap s))%nat ->
          heap s' !! l' = heap s !! l')
    /\ kind (array_at s' l) = kind a
    /\ alen (array_at s' l) = alen a
    /\ (forall i, aget (array_at s' l) i
                  = if decide (i ∈ painted)
                    then Some (coerce (kind a) val) else aget a i)
    /\ (forall i, i ∈ painted
          <-> exists px py pz,
                (0 <= px < dimX /\ 0 <= py < dimY /\ 0 <= pz < dimZ)
                /\ i = pz * dimX * dimY + py * dimX + px
                /\ (- radius <= px - x <= radius /\ - radius <= py - y <= radius
                    /\ - radius <= pz - z <= radius)
                /\ (px - x) * (px - x) + (py - y) * (py - y)
                   + (pz - z) * (pz - z) <= radius * radius)
    /\ (radius <= x < dimX - radius -> radius <= y < dimY - radius ->
        radius <= z < dimZ - radius ->
        NoDup painted /\ zlen painted = ball_count radius)
    /\ ball_count 1 = 7
    /\ (val = 0%Q \/ val = 1%Q -> coerce (kind a) val = val).
Proof.
  intros Hdims Hl Hlen l a painted.
  destruct (handleDraw_run volume segmentation x y z val radius s
              dimX dimY dimZ Hdims Hl Hlen) as (s' & Hrun & Hframe & Harr).
  fold l a in Hrun, Hframe, Harr.
  eexists _, s'. split; [exact Hrun|]. cbn [data]. rewrite Harr.
  rewrite paint_sphere_fold. fold painted.
  destruct (fold_aset_shape painted a val) as [Hk Hal].
  split_and!; [done|done|done|done| | | | |].
  - intros i. apply aget_fold_aset. apply Forall_forall. intros j Hj.
    apply painted_indices_spec in Hj as (px & py & pz & (? & ? & ?) & -> & _).
    unfold a. rewrite Hlen. by apply idx_bounds.
  - intros i. apply painted_indices_spec.
  - apply painted_indices_count.
  - apply ball_count_small.
  - apply coerce_paint_value.
Qed.

Lemma handleDraw_spec_witness :
  exists out s',
    handleDraw
      (Some (mkVolume (mkHeader [3; 3; 3; 3] [] 2) 0%nat (3, 3, 3) (Fin 0) (Fin 9)))
      (Some (mkVolume (mkHeader [3; 3; 3; 3] [] 2) 1%nat (3, 3, 3) (Fin 0) (Fin 1)))
      true 1 1 1 1%Q 1
      (mkStore [new_array Uint8 27; new_array Uint8 27] 0)
    = (Ok (Some out), s')
    /\ data out = 1%nat.
Proof.
  destruct (handleDraw_spec
    (mkVolume (mkHeader [3; 3; 3; 3] [] 2) 0%nat (3, 3, 3) (Fin 0) (Fin 9))
    (Some (mkVolume (mkHeader [3; 3; 3; 3] [] 2) 1%nat (3, 3, 3) (Fin 0) (Fin 1)))
    1 1 1 1%Q 1 (mkStore [new_array Uint8 27; new_array Uint8 27] 0) 3 3 3
    eq_refl ltac:(simpl; lia) eq_refl) as (out & s' & Hrun & Hdata & _).
  exists out, s'. split; [exact Hrun|exact Hdata].
Defined.

(** ** Frames: what a run leaves untouched *)

Section frames.
Variable h0 : list tarray.

Lemma keeps_ret {A} (a : A) (Q : A -> Prop) : Q a -> keeps h0 (ret a) Q.
Proof. intros HQ s Hs. split; [done|]. by intros ? [= <-]. Qed.

Lemma keeps_bind {A B} (m : M A) (f : A -> M B) (Q : A -> Prop) (R : B -> Prop) :
  keeps h0 m Q -> (forall a, Q a -> keeps h0 (f a) R) -> keeps h0 (bind m f) R.
Proof.
  intros Hm Hf s Hs. destruct (Hm s Hs) as [Hs' HQ]. unfold bind.
  destruct (m s) as [[a|msg|] s']; cbn [fst snd] in *; [|done..].
  apply Hf; [by apply HQ|done].
Qed.

Lemma keeps_weaken {A} (m : M A) (Q Q' : A -> Prop) :
  keeps h0 m Q -> (forall a, Q a -> Q' a) -> keeps h0 m Q'.
Proof. intros Hm HQ s Hs. destruct (Hm s Hs) as [? ?]. split; auto. Qed.

Lemma keeps_for (l : list Z) (body : Z -> M unit) :
  (forall i, keeps h0 (body i) (fun _ => True)) ->
  keeps h0 (for_ l body) (fun _ => True).
Proof.
  intros Hbody. induction l as [|i l IH]; cbn [for_]; [by apply keeps_ret|].
  eapply keeps_bind; [apply Hbody|]. intros _ _. apply IH.
Qed.

Lemma keeps_throw {A} (msg : string) (Q : A -> Prop) : keeps h0 (throw msg) Q.
Proof. intros s Hs. done. Qed.

Lemma keeps_not_finite {A} (Q : A -> Prop) : keeps h0 not_finite Q.
Proof. intros s Hs. done. Qed.

Lemma keeps_load (l : loc) : keeps h0 (load l) (fun _ => True).
Proof. intros s Hs. done. Qed.

Lemma keeps_length_of (l : loc) : keeps h0 (length_of l) (fun _ => True).
Proof. intros s Hs. done. Qed.

Lemma keeps_rd (l : loc) (i : Z) : keeps h0 (rd l i) (fun _ => True).
Proof. intros s Hs. done. Qed.

Lemma keeps_setProgress (p : Q) : keeps h0 (setProgress p) (fun _ => True).
Proof. intros s Hs. done. Qed.

Lemma keeps_updateProgress (p : Q) : keeps h0 (updateProgress p) (fun _ => True).
Proof. intros s Hs. done. Qed.

(** A fresh array comes after the arrays there are. *)
Lemma keeps_alloc (k : elt_kind) (len : Z) :
  keeps h0 (alloc k len) (fun l => (length h0 <= l)%nat).
Proof.
  intros s Hs. cbn. split.
  - by apply prefix_app_r.
  - intros l [= <-]. by apply prefix_length.
Qed.

(** A write into an array that came later leaves the first ones alone. *)
Lemma keeps_update_array (l : loc) (f : tarray -> tarray) :
  (length h0 <= l)%nat -> keeps h0 (update_array l f) (fun _ => True).
Proof.
  intros Hl s [k Hs]. cbn. split; [|done]. rewrite Hs.
  rewrite alter_app_r_alt by done. by apply prefix_app_r.
Qed.

Lemma keeps_wr (l : loc) (i : Z) (v : Q) :
  (length h0 <= l)%nat -> keeps h0 (wr l i v) (fun _ => True).
Proof. apply keeps_update_array. Qed.

Lemma keeps_array_set (dst src : loc) :
  (length h0 <= dst)%nat -> keeps h0 (array_set dst src) (fun _ => True).
Proof.
  intros Hl s [k Hs]. unfold array_set. destruct (_ <? _)%nat; [by split; [exists k|]|].
  cbn. split; [|done]. rewrite Hs.
  rewrite insert_app_r_alt by done. by apply prefix_app_r.
Qed.

Lemma keeps_subarray (l : loc) (b e : Z) :
  keeps h0 (subarray l b e) (fun v => base v = l).
Proof. intros s Hs. cbn. split; [done|]. by intros v [= <-]. Qed.

Lemma keeps_vrd (v : view) (k : Z) : keeps h0 (vrd v k) (fun _ => True).
Proof. intros s Hs. unfold vrd. by destruct (_ && _). Qed.

Lemma keeps_vload (v : view) : keeps h0 (vload v) (fun _ => True).
Proof. intros s Hs. done. Qed.

Lemma keeps_vwr (v : view) (k : Z) (x : Q) :
  (length h0 <= base v)%nat -> keeps h0 (vwr v k x) (fun _ => True).
Proof.
  intros Hl. unfold vwr. destruct (_ && _); [by apply keeps_wr|by apply keeps_ret].
Qed.

End frames.

(** One step through a computation whose frame is to be shown. *)
Ltac keeps_step :=
  cbv beta zeta;
  lazymatch goal with
  | |- keeps _ (bind _ _) _ => eapply keeps_bind; [|intros ? ?; cbv beta in *]
  | |- keeps _ (ret _) _ => by apply keeps_ret
  | |- keeps _ (for_ _ _) _ => apply keeps_for; intros ?
  | |- keeps _ (throw _) _ => apply keeps_throw
  | |- keeps _ not_finite _ => apply keeps_not_finite
  | |- keeps _ (load _) _ => apply keeps_load
  | |- keeps _ (length_of _) _ => apply keeps_length_of
  | |- keeps _ (rd _ _) _ => apply keeps_rd
  | |- keeps _ (setProgress _) _ => apply keeps_setProgress
  | |- keeps _ (updateProgress _) _ => apply keeps_updateProgress
  | |- keeps _ (alloc _ _) _ => apply keeps_alloc
  | |- keeps _ (wr _ _ _) _ => apply keeps_wr; cbv beta in *; lia
  | |- keeps _ (array_set _ _) _ => apply keeps_array_set; cbv beta in *; lia
  | |- keeps _ (subarray _ _ _) _ => apply keeps_subarray
  | |- keeps _ (vrd _ _) _ => apply keeps_vrd
  | |- keeps _ (vload _) _ => apply keeps_vload
  | |- keeps _ (vwr _ _ _) _ => apply keeps_vwr; cbv beta in *; simplify_eq/=; lia
  | |- keeps _ (match ?x with _ => _ end) _ => destruct x
  end.

Ltac keeps_auto := repeat keeps_step.

Section transform_frames.
Variable Math_pow : Q -> Q -> Q.
Variable Math_exp : Q -> Q.
Variable h0 : list tarray.
Variables data newData : loc.
Hypothesis newData_fresh : (length h0 <= newData)%nat.

Lemma run_hist_eq_keeps (mn mx range : Q) (len : Z) :
  keeps h0 (run_hist_eq data newData mn mx range len) (fun _ => True).
Proof. unfold run_hist_eq. keeps_auto. Qed.

Lemma clahe_slice_keeps (width height : Z) (clipLimit : Q) (z : Z) :
  keeps h0 (clahe_slice data newData width height clipLimit z) (fun _ => True).
Proof. unfold clahe_slice. keeps_auto. Qed.

Lemma run_clahe_keeps (width height depth : Z) (clipLimit : Q) :
  keeps h0 (run_clahe data newData width height depth clipLimit) (fun _ => True).
Proof.
  unfold run_clahe. apply keeps_for. intros z.
  eapply keeps_bind; [apply clahe_slice_keeps|]. intros _ _. keeps_auto.
Qed.

Lemma run_gamma_keeps (mn range : Q) (len : Z) (gamma : Q) :
  keeps h0 (run_gamma Math_pow data newData mn range len gamma) (fun _ => True).
Proof. unfold run_gamma. keeps_auto. Qed.

Lemma run_sigmoid_keeps (mn range : Q) (len : Z) (gain cutoff : Q) :
  keeps h0 (run_sigmoid Math_exp data newData mn range len gain cutoff)
    (fun _ => True).
Proof. unfold run_sigmoid. keeps_auto. Qed.

Lemma blur_pass_keeps (buf : loc) (width height depth : Z) (xs ys zs : list Z)
    (stride : Z) (base_progress : Q) :
  keeps h0 (blur_pass buf newData width height depth xs ys zs stride
              base_progress) (fun _ => True).
Proof. unfold blur_pass. keeps_auto. Qed.

Lemma run_gaussian_keeps (width height depth len : Z) :
  keeps h0 (run_gaussian data newData width height depth len) (fun _ => True).
Proof.
  unfold run_gaussian.
  eapply keeps_bind; [apply keeps_alloc|]. intros buf Hbuf. cbv beta in Hbuf.
  repeat first [apply blur_pass_keeps | keeps_step].
Qed.

Lemma run_unsharp_keeps (width len : Z) (strength : Q) :
  keeps h0 (run_unsharp data newData width len strength) (fun _ => True).
Proof. unfold run_unsharp. keeps_auto. Qed.

Lemma run_hist_match_keeps (mn mx range : Q) (len : Z)
    (referenceVolume : option (VolumeData loc)) :
  keeps h0 (run_hist_match data newData mn mx range len referenceVolume)
    (fun _ => True).
Proof. unfold run_hist_match. keeps_auto. Qed.

Lemma run_n4_bias_keeps (width height depth len : Z) :
  keeps h0 (run_n4_bias data newData width height depth len) (fun _ => True).
Proof. unfold run_n4_bias. keeps_auto. Qed.

Lemma run_median_3d_keeps (width height depth : Z) :
  keeps h0 (run_median_3d data newData width height depth) (fun _ => True).
Proof. unfold run_median_3d. keeps_auto. Qed.

End transform_frames.

(** A transform leaves every array there was as it is, and hands on a
    volume whose data is a fresh array. *)
Lemma runProcessing_keeps (Math_pow : Q -> Q -> Q) (Math_exp : Q -> Q)
    (h0 : list tarray) (procMethod : ProcMethod) (param1 param2 : Q)
    (referenceVolume : option (VolumeData loc)) (volume : VolumeData loc) :
  keeps h0
    (runProcessing Math_pow Math_exp procMethod param1 param2 referenceVolume
       volume)
    (fun out => (length h0 <= data out)%nat).
Proof.
  unfold runProcessing.
  eapply keeps_bind; [apply keeps_setProgress|]. intros _ _.
  destruct (min volume); [keeps_auto| |keeps_auto].
  destruct (max volume); [keeps_auto| |keeps_auto].
  destruct (dimensions volume) as [[width height] depth].
  eapply keeps_bind; [apply keeps_length_of|]. intros len _.
  eapply keeps_bind; [apply keeps_alloc|]. intros newData Hnew.
  eapply keeps_bind; [by apply keeps_array_set|]. intros _ _.
  eapply keeps_bind.
  { destruct procMethod.
    - by apply run_clahe_keeps.
    - by apply run_hist_match_keeps.
    - by apply run_hist_eq_keeps.
    - by apply run_gamma_keeps.
    - by apply run_gamma_keeps.
    - by apply run_sigmoid_keeps.
    - by apply run_unsharp_keeps.
    - by apply run_gaussian_keeps.
    - by apply run_median_3d_keeps.
    - by apply run_n4_bias_keeps. }
  intros _ _.
  eapply keeps_bind; [apply keeps_load|]. intros nd _.
  eapply keeps_bind; [apply keeps_setProgress|]. intros _ _.
  by apply keeps_ret.
Qed.

(** A segmentation run leaves every array there was as it is, and hands
    on a mask whose data is a fresh array. *)
Lemma runSegmentation_keeps (h0 : list tarray) (segMethod : SegMethod)
    (manualThreshold manualUpper : Q) (volume : VolumeData loc) :
  keeps h0 (runSegmentation segMethod manualThreshold manualUpper volume)
    (fun out => forall segVol, out = Some segVol ->
                  (length h0 <= data segVol)%nat).
Proof.
  unfold runSegmentation. destruct (is_manual segMethod); [by apply keeps_ret|].
  eapply keeps_bind; [apply keeps_setProgress|]. intros _ _.
  destruct (min volume); [keeps_auto| |keeps_auto].
  destruct (max volume); [keeps_auto| |keeps_auto].
  eapply keeps_bind; [apply keeps_length_of|]. intros len _.
  eapply keeps_bind; [apply keeps_alloc|]. intros mask Hmask.
  eapply keeps_bind; [apply keeps_load|]. intros d _.
  destruct (seg_thresholds _ _ _ _ _ _) as [threshold upperThreshold].
  eapply keeps_bind; [keeps_auto|]. intros ? _.
  destruct (dimensions volume) as [[dimX dimY] dimZ].
  eapply keeps_bind; [apply keeps_setProgress|]. intros _ _.
  apply keeps_ret. intros segVol ?. by simplify_eq/=.
Qed.

Lemma prefix_lookup_lt (h0 h : list tarray) (l : nat) :
  h0 `prefix_of` h -> (l < length h0)%nat -> h !! l = h0 !! l.
Proof. intros [k ->] Hl. by apply lookup_app_l. Qed.

(** C9: a transform and a segmentation run leave every array that was in
    the store as it was, so every element of the input array keeps its
    value, whether the run returns or throws, and the volume or mask they
    hand on holds a fresh array; [handleDraw] on a mask that exists writes
    into that very array and hands on a volume that shares it. *)
Theorem runs_keep_their_input (Math_pow : Q -> Q -> Q) (Math_exp : Q -> Q) :
  (forall procMethod param1 param2 referenceVolume volume s,
     let r := runProcessing Math_pow Math_exp procMethod param1 param2
                referenceVolume volume s in
     (forall l, (l < length (heap s))%nat -> heap r.2 !! l = heap s !! l)
     /\ (forall out, r.1 = Ok out -> (length (heap s) <= data out)%nat))
  /\ (forall segMethod manualThreshold manualUpper volume s,
        let r := runSegmentation segMethod manualThreshold manualUpper volume s in
        (forall l, (l < length (heap s))%nat -> heap r.2 !! l = heap s !! l)
        /\ (forall segVol, r.1 = Ok (Some segVol) ->
              (length (heap s) <= data segVol)%nat))
  /\ (forall volume segVol x y z val radius s,
        exists out,
          handleDraw (Some volume) (Some segVol) true x y z val radius s
          = (Ok (Some out),
             mkStore
               (alter (paint_sphere (dimensions volume).1.1
                         (dimensions volume).1.2 (dimensions volume).2
                         x y z val radius)
                  (data segVol) (heap s))
               (progress s))
          /\ data out = data segVol)
  /\ (exists out s',
        handleDraw
          (Some (mkVolume (mkHeader [3; 3; 3; 3] [] 2) 0%nat (3, 3, 3)
                   (Fin 0) (Fin 9)))
          (Some (mkVolume (mkHeader [3; 3; 3; 3] [] 2) 1%nat (3, 3, 3)
                   (Fin 0) (Fin 1)))
          true 1 1 1 1%Q 1
          (mkStore [new_array Uint8 27; new_array Uint8 27] 0)
        = (Ok (Some out), s')
        /\ data out = 1%nat
        /\ heap s' !! 1%nat <> Some (new_array Uint8 27)).
Proof.
  split_and!.
  - intros procMethod param1 param2 referenceVolume volume s r.
    destruct (runProcessing_keeps Math_pow Math_exp (heap s) procMethod param1
                param2 referenceVolume volume s) as [Hpre Hout]; [done|].
    fold r in Hpre, Hout. split; [|done].
    intros l Hl. by apply prefix_lookup_lt.
  - intros segMethod manualThreshold manualUpper volume s r.
    destruct (runSegmentation_keeps (heap s) segMethod manualThreshold
                manualUpper volume s) as [Hpre Hout]; [done|].
    fold r in Hpre, Hout. split.
    + intros l Hl. by apply prefix_lookup_lt.
    + intros segVol Hr. by apply (Hout _ Hr).
  - intros volume segVol x y z val radius s.
    unfold handleDraw. cbn [negb]. unfold bind, ret, update_array.
    destruct (dimensions volume) as [[dimX dimY] dimZ]. by eexists.
  - eexists _, _. split; [by vm_compute|]. split; [done|]. by vm_compute.
Qed.

(** ** Histogram equalization *)



Lemma sumZ_app (l k : list Z) : sumZ (l ++ k) = sumZ l + sumZ k.
Proof. induction l as [|x l IH]; simpl; lia. Qed.

Lemma sumZ_nonneg (l : list Z) : Forall (fun x => 0 <= x) l -> 0 <= sumZ l.
Proof. induction 1; simpl; lia. Qed.

Lemma sumZ_take_le (h : list Z) (n : nat) :
  Forall (fun x => 0 <= x) h -> 0 <= sumZ (take n h) <= sumZ h.
Proof.
  intros Hh. rewrite <- (take_drop n h) at 3. rewrite sumZ_app.
  pose proof (sumZ_nonneg (take n h) (Forall_take _ _ _ Hh)).
  pose proof (sumZ_nonneg (drop n h) (Forall_drop _ _ _ Hh)). lia.
Qed.




Lemma runs_ret {A} (a : A) (s : store) (P : A -> store -> Prop) :
  P a s -> runs (ret a) s P.
Proof. intros HP. by exists a, s. Qed.

Lemma runs_bind {A B} (m : M A) (f : A -> M B) (s : store)
    (P : B -> store -> Prop) :
  runs m s (fun a s' => runs (f a) s' P) -> runs (bind m f) s P.
Proof.
  intros (a & s' & Hm & b & s'' & Hf & HP). exists b, s''.
  unfold bind. by rewrite Hm.
Qed.

Lemma runs_weaken {A} (m : M A) (s : store) (P P' : A -> store -> Prop) :
  runs m s P -> (forall a s', P a s' -> P' a s') -> runs m s P'.
Proof. intros (a & s' & Hm & HP) HPP'. exists a, s'. auto. Qed.

(** A loop that returns: [Inv pre] holds when the indices in the list
    [pre] have been gone through, in their order. *)
Lemma runs_for (Inv : list Z -> store -> Prop) (l : list Z)
    (body : Z -> M unit) (s : store) :
  Inv [] s ->
  (forall pre i post s, l = pre ++ i :: post -> Inv pre s ->
     runs (body i) s (fun _ s' => Inv (pre ++ [i]) s')) ->
  runs (for_ l body) s (fun _ s' => Inv l s').
Proof.
  intros H0 Hbody.
  assert (forall rest pre s, l = pre ++ rest -> Inv pre s ->
            runs (for_ rest body) s (fun _ s' => Inv l s')) as Hgen.
  { induction rest as [|i rest IH]; intros pre s1 Hl Hpre.
    - apply runs_ret. by rewrite Hl, app_nil_r.
    - cbn [for_]. apply runs_bind.
      eapply runs_weaken; [by eapply Hbody|].
      intros ? s2 Hs2. apply (IH (pre ++ [i])); [|done].
      by rewrite <- app_assoc. }
  by apply (Hgen l []).
Qed.

Section equalization.
Variables (data newData : loc) (len : Z) (lo hi : Q).
Variable f : Q -> Q.
Hypothesis f_range : forall v, (lo <= f v <= hi)%Q.




End equalization.




Lemma or_one_pos (mn mx : Q) : (mn <= mx)%Q -> (0 < or_one (mx - mn))%Q.
Proof.
  intros Hle. unfold or_one. destruct (Qeq_bool (mx - mn) 0) eqn:Heq; [done|].
  apply Qeq_bool_neq in Heq.
  destruct (Qlt_le_dec 0 (mx - mn)) as [|Hle0]; [done|].
  destruct Heq. apply Qle_antisym; lra.
Qed.

Lemma or_one_range (mn mx : Q) : (mn < mx)%Q -> (mn + or_one (mx - mn) == mx)%Q.
Proof.
  intros Hlt. unfold or_one. destruct (Qeq_bool (mx - mn) 0) eqn:Heq; [|ring].
  apply Qeq_bool_eq in Heq. lra.
Qed.




(** ** Segmentation *)

Lemma seg_label_is_label (segMethod : SegMethod) (threshold upper : option Q)
    (val label : Q) :
  seg_label segMethod threshold upper val = Some label ->
  label = 1%Q \/ label = 2%Q \/ label = 3%Q.
Proof.
  unfold seg_label. intros H.
  destruct segMethod; repeat case_match; simplify_eq; auto.
Qed.

Lemma wr_labeled (mask : loc) (len : Z) (s : store) (j : Z) (label : Q) :
  labeled mask len s -> label = 1%Q \/ label = 2%Q \/ label = 3%Q ->
  runs (wr mask j label) s (fun _ s' => labeled mask len s').
Proof.
  intros (Hl & Hk & Hlen & Hall) Hlabel. eexists tt, _. split; [done|].
  unfold labeled. cbn [heap]. rewrite length_alter.
  rewrite array_at_alter_eq by done. unfold aset. cbn [kind elems].
  split_and!; [done|done| |].
  - unfold alen. cbn [elems]. by rewrite zset_length.
  - rewrite Hk. unfold zset. destruct (j <? 0); [done|].
    apply Forall_insert; [done|].
    destruct Hlabel as [-> | [-> | ->]]; vm_compute; auto.
Qed.

(** The scan keeps the mask a byte array of labels. *)
Lemma seg_scan_labeled (segMethod : SegMethod) (threshold upper : option Q)
    (data mask : loc) (len : Z) (s : store) :
  labeled mask len s ->
  runs (for_ (chunk_starts len) (fun i =>
          let end_ := Z.min (i + 500000) len in
          for_ (seqZ i (end_ - i)) (fun j =>
            val <- rd data j ;;
            match seg_label segMethod threshold upper val with
            | Some label => wr mask j label
            | None => ret tt
            end) ;;;
          let currentProgress :=
            10 + Qfloor ((inject_Z (i + 500000) / inject_Z len) * 80) in
          setProgress (inject_Z (Z.min 90 currentProgress)))) s
    (fun _ s' => labeled mask len s').
Proof.
  intros Hs.
  apply (runs_for (fun _ s' => labeled mask len s')); [done|].
  intros _ i _ s1 _ Hs1. cbv zeta. apply runs_bind.
  eapply runs_weaken.
  - apply (runs_for (fun _ s' => labeled mask len s')); [done|].
    intros _ j _ s2 _ Hs2. apply runs_bind. eexists _, s2. split; [done|].
    destruct (seg_label _ _ _ _) as [label|] eqn:Hlabel.
    + apply wr_labeled; [done|]. by eapply seg_label_is_label.
    + by apply runs_ret.
  - intros ? s2 Hs2. cbv beta in Hs2. by eexists tt, _.
Qed.

(** C7, as the code has it: a segmentation run hands on a fresh byte mask
    as long as the volume, every element of which is one of the labels
    0, 1, 2, 3, and reports for it the fixed range min = 0, max = 255,
    which bounds every label; the range is not computed from the data. *)
Theorem runSegmentation_range (segMethod : SegMethod)
    (manualThreshold manualUpper : Q) (volume : VolumeData loc) (s : store)
    (mn mx : Q) :
  is_manual segMethod = false ->
  min volume = Fin mn -> max volume = Fin mx ->
  exists segVol s',
    runSegmentation segMethod manualThreshold manualUpper volume s
    = (Ok (Some segVol), s')
    /\ min segVol = Fin 0 /\ max segVol = Fin 255
    /\ datatypeCode (header segVol) = 2
    /\ dimensions segVol = dimensions volume
    /\ data segVol = length (heap s)
    /\ kind (array_at s' (data segVol)) = Uint8
    /\ alen (array_at s' (data segVol)) = alen (array_at s (data volume))
    /\ forall v, v ∈ elems (array_at s' (data segVol)) ->
         is_label v /\ (0 <= v <= 255)%Q.
Proof.
  intros Hmanual Hmin Hmax.
  set (len := alen (array_at s (data volume))).
  set (mask := length (heap s)).
  assert (runs (runSegmentation segMethod manualThreshold manualUpper volume) s
    (fun out s' =>
       out = Some (mkVolume (with_datatypeCode (header volume) 2) mask
                     (dimensions volume) (Fin 0) (Fin 255))
       /\ labeled mask len s'))
    as (out & s' & Hrun & -> & _ & Hk & Hlen & Hall).
  { unfold runSegmentation. rewrite Hmanual, Hmin, Hmax.
    apply runs_bind. eexists tt, _. split; [done|].
    apply runs_bind. eexists _, _. split; [done|].
    apply runs_bind. eexists _, _. split; [done|].
    apply runs_bind. eexists _, _. split; [done|].
    cbn [heap progress].
    destruct (seg_thresholds _ _ _ _ _ _) as [threshold upperThreshold].
    apply runs_bind. eapply runs_weaken.
    - apply seg_scan_labeled with (len := len).
      unfold labeled. rewrite array_at_alloc_new. cbn [heap].
      rewrite length_app. unfold new_array. cbn [length kind elems].
      split_and!; [unfold mask; lia|done| |].
      + unfold alen, zlen, len, array_at. cbn [elems heap].
        rewrite length_replicate. unfold alen, zlen. lia.
      + apply Forall_replicate. by left.
    - intros ? s1 Hs1. cbv beta in Hs1.
      destruct (dimensions volume) as [[dimX dimY] dimZ].
      apply runs_bind. eexists tt, _. split; [done|].
      apply runs_ret. split; [done|]. exact Hs1. }
  eexists _, s'. split; [exact Hrun|]. cbn [min max header data dimensions].
  split_and!; [done..|].
  intros v Hv. rewrite Forall_forall in Hall. specialize (Hall v Hv).
  split; [done|]. destruct Hall as [-> | [-> | [-> | ->]]]; by vm_compute.
Qed.

Lemma runSegmentation_range_witness :
  exists segVol s',
    runSegmentation binary 5 7
      (mkVolume (mkHeader [3; 2; 1; 1] [] 2) 0%nat (2, 1, 1) (Fin 0) (Fin 10))
      (mkStore [mkArr Uint8 [0; 10]%Q] 0)
    = (Ok (Some segVol), s')
    /\ max segVol = Fin 255.
Proof.
  destruct (runSegmentation_range binary 5 7
    (mkVolume (mkHeader [3; 2; 1; 1] [] 2) 0%nat (2, 1, 1) (Fin 0) (Fin 10))
    (mkStore [mkArr Uint8 [0; 10]%Q] 0) 0 10 eq_refl eq_refl eq_refl)
    as (segVol & s' & Hrun & _ & Hmax & _).
  exists segVol, s'. split; [exact Hrun|exact Hmax].
Defined.

(** C7 as stated fails: the binary threshold 5 on the two voxels 0, 10
    gives the mask 0, 1, whose greatest value is 1, and the mask carries
    max = 255. *)
Lemma runSegmentation_max_counterexample :
  exists segVol s',
    runSegmentation binary 5 7
      (mkVolume (mkHeader [3; 2; 1; 1] [] 2) 0%nat (2, 1, 1) (Fin 0) (Fin 10))
      (mkStore [mkArr Uint8 [0; 10]%Q] 0)
    = (Ok (Some segVol), s')
    /\ elems (array_at s' (data segVol)) = [0; 1]%Q
    /\ running_max NegInfinity (elems (array_at s' (data segVol))) = Fin 1
    /\ max segVol = Fin 255
    /\ max segVol <> running_max NegInfinity (elems (array_at s' (data segVol))).
Proof.
  eexists _, _. split; [by vm_compute|]. by vm_compute.
Qed.

(** ** Otsu's threshold *)

(** The weight of the bins up to [t]: what [wB] holds after the round
    for the threshold [t]. *)
Lemma sumZ_take_S (h : list Z) (k : nat) :
  sumZ (take (S k) h) = sumZ (take k h) + hget h (Z.of_nat k).
Proof.
  unfold hget. rewrite zget_of_nat.
  destruct (h !! k) as [c|] eqn:Hk.
  - rewrite (take_S_r _ _ _ Hk), sumZ_app. simpl. lia.
  - apply lookup_ge_None in Hk. rewrite !take_ge by lia. simpl. lia.
Qed.

(** The scan returns the threshold it started from or one of the
    thresholds it went through, and one it went through has a non-empty
    background and a non-empty foreground. *)
Lemma otsu_scan_separates (h : list Z) (total sum : Z) (n k : nat)
    (sumB : Z) (maxVar : Q) (threshold : Z) :
  let t := otsu_scan (seqZ (Z.of_nat k) (Z.of_nat n)) h total sum sumB
             (sumZ (take k h)) maxVar threshold in
  t = threshold
  \/ (Z.of_nat k <= t < Z.of_nat k + Z.of_nat n
      /\ sumZ (take (Z.to_nat (t + 1)) h) <> 0
      /\ sumZ (take (Z.to_nat (t + 1)) h) <> total).
Proof.
  revert k sumB maxVar threshold.
  induction n as [|n IH]; intros k sumB maxVar threshold; [by left|].
  rewrite seqZ_cons by lia.
  replace (Z.succ (Z.of_nat k)) with (Z.of_nat (S k)) by lia.
  replace (Z.pred (Z.of_nat (S n))) with (Z.of_nat n) by lia.
  cbn [otsu_scan]. cbv zeta. rewrite <- sumZ_take_S.
  destruct (Z.eqb_spec (sumZ (take (S k) h)) 0) as [|HwB].
  { destruct (IH (S k) sumB maxVar threshold) as [->|(? & ?)];
      [by left|right; split; [lia|done]]. }
  destruct (Z.eqb_spec (total - sumZ (take (S k) h)) 0) as [|HwF]; [by left|].
  assert (forall mv t sB,
    (t = threshold \/ t = Z.of_nat k) ->
    let r := otsu_scan (seqZ (Z.of_nat (S k)) (Z.of_nat n)) h total sum sB
               (sumZ (take (S k) h)) mv t in
    r = threshold
    \/ (Z.of_nat k <= r < Z.of_nat k + Z.of_nat (S n)
        /\ sumZ (take (Z.to_nat (r + 1)) h) <> 0
        /\ sumZ (take (Z.to_nat (r + 1)) h) <> total)) as Hnext.
  { intros mv t sB Ht r. subst r.
    destruct (IH (S k) sB mv t) as [->|(? & ?)].
    - destruct Ht as [->| ->]; [by left|right].
      replace (Z.to_nat (Z.of_nat k + 1)) with (S k) by lia.
      split; [lia|]. split; [done|lia].
    - right. split; [lia|done]. }
  destruct (Qlt_le_dec _ _); apply Hnext; auto.
Qed.

Lemma otsu_bin_range (h : list Z) (total : Z) :
  0 <= computeOtsuThreshold h total <= 255.
Proof.
  unfold computeOtsuThreshold.
  pose proof (otsu_scan_separates h total
    (foldl (fun s i => s + i * hget h i) 0 (seqZ 0 256)) 256 0 0 0%Q 0) as H.
  cbv zeta in H. change (Z.of_nat 0) with 0 in H.
  change (Z.of_nat 256) with 256 in H. change (sumZ (take 0 h)) with 0 in H.
  destruct H as [->|(? & _)]; lia.
Qed.

(** X1: [computeOtsuThreshold] returns a bin index, whatever the histogram
    and the total it is given; on the counts of a histogram, a threshold
    other than 0 splits the samples: the bins up to it hold some of
    them, and not all. *)
Theorem computeOtsuThreshold_splits (h : list Z) (total : Z) :
  let t := computeOtsuThreshold h total in
  0 <= t <= 255
  /\ (Forall (fun x => 0 <= x) h -> total = sumZ h ->
      t = 0 \/ 0 < sumZ (take (Z.to_nat (t + 1)) h) < total).
Proof.
  intros t. split; [apply otsu_bin_range|]. intros Hpos ->.
  subst t. unfold computeOtsuThreshold.
  pose proof (otsu_scan_separates h (sumZ h)
    (foldl (fun s i => s + i * hget h i) 0 (seqZ 0 256)) 256 0 0 0%Q 0) as H.
  cbv zeta in H. change (Z.of_nat 0) with 0 in H.
  change (Z.of_nat 256) with 256 in H. change (sumZ (take 0 h)) with 0 in H.
  destruct H as [->|(_ & H0 & H1)]; [by left|right].
  pose proof (sumZ_take_le h
    (Z.to_nat (otsu_scan (seqZ 0 256) h (sumZ h)
       (foldl (fun s i => s + i * hget h i) 0 (seqZ 0 256)) 0 0 0%Q 0 + 1)) Hpos).
  lia.
Qed.

(** X2: when every sample lies in one bin (a volume of a single intensity),
    no threshold splits the samples and the result is bin 0. *)
Theorem computeOtsuThreshold_single_bin (b : nat) (c : Z) :
  let h := <[b := c]> (replicate 256 0) in
  computeOtsuThreshold h (sumZ h) = 0.
Proof.
  intros h. unfold computeOtsuThreshold.
  pose proof (otsu_scan_separates h (sumZ h)
    (foldl (fun s i => s + i * hget h i) 0 (seqZ 0 256)) 256 0 0 0%Q 0) as H.
  cbv zeta in H. change (Z.of_nat 0) with 0 in H.
  change (Z.of_nat 256) with 256 in H. change (sumZ (take 0 h)) with 0 in H.
  destruct H as [->|(_ & H0 & H1)]; [done|exfalso].
  set (t := otsu_scan _ _ _ _ _ _ _ _) in *.
  assert (forall n : nat, sumZ (replicate n 0) = 0) as Hz.
  { intros n. induction n; simpl; lia. }
  assert (forall n : nat, sumZ (take n h) = 0 \/ sumZ (take n h) = sumZ h) as Hs.
  { intros n. subst h. destruct (decide (b < n)%nat).
    - right. rewrite <- (take_drop n (<[b:=c]> (replicate 256 0))) at 2.
      rewrite sumZ_app. rewrite drop_insert_lt by lia.
      rewrite drop_replicate, Hz. lia.
    - left. rewrite take_insert_ge by lia. rewrite take_replicate.
      apply Hz. }
  destruct (Hs (Z.to_nat (t + 1))); congruence.
Qed.

(** ** The thresholds of the automatic methods *)

Lemma Qpos_neq_0 (r : Q) : (0 < r)%Q -> ~ (r == 0)%Q.
Proof. intros H E. rewrite E in H. by apply Qlt_irrefl in H. Qed.

(** The intensity [mn + bin / step] of a bin, for the step [256 / range]
    of the histogram. *)
Lemma bin_intensity_bounds (mn range : Q) (bin hi : Z) :
  (0 < range)%Q -> 0 <= bin <= hi ->
  (mn <= mn + inject_Z bin / (256 / range)
   /\ mn + inject_Z bin / (256 / range)
      <= mn + inject_Z hi * (1 # 256) * range)%Q.
Proof.
  intros Hr [H0 H1].
  assert (mn + inject_Z bin / (256 / range)
          == mn + inject_Z bin * (1 # 256) * range)%Q
    as -> by (field; by apply Qpos_neq_0).
  assert (inject_Z 0 <= inject_Z bin)%Q as Hb0 by (rewrite <- Zle_Qle; lia).
  assert (inject_Z bin <= inject_Z hi)%Q as Hb1 by (rewrite <- Zle_Qle; lia).
  change (inject_Z 0) with 0%Q in Hb0.
  split; nra.
Qed.

Lemma bin_intensity_lt (mn range : Q) (bin bin' : Z) :
  (0 < range)%Q -> bin < bin' ->
  (mn + inject_Z bin / (256 / range) < mn + inject_Z bin' / (256 / range))%Q.
Proof.
  intros Hr Hlt.
  assert (mn + inject_Z bin / (256 / range)
          == mn + inject_Z bin * (1 # 256) * range)%Q
    as -> by (field; by apply Qpos_neq_0).
  assert (mn + inject_Z bin' / (256 / range)
          == mn + inject_Z bin' * (1 # 256) * range)%Q
    as -> by (field; by apply Qpos_neq_0).
  assert (inject_Z bin < inject_Z bin')%Q as Hb by (rewrite <- Zlt_Qlt; lia).
  nra.
Qed.

(** The Otsu threshold of a run lies in the intensity range of the
    volume, strictly below its upper end: the bin is at most 255 of
    256. *)
Lemma seg_thresholds_otsu_range (manualThreshold manualUpper : Q)
    (d : list Q) (mn mx : Q) :
  (mn <= mx)%Q ->
  exists t,
    seg_thresholds otsu manualThreshold manualUpper d mn mx
    = (Some t, Some manualUpper)
    /\ (mn <= t)%Q /\ (t < mn + or_one (mx - mn))%Q
    /\ ((mn < mx)%Q -> (t < mx)%Q).
Proof.
  intros Hle. eexists. split; [reflexivity|].
  pose proof (or_one_pos mn mx Hle) as Hr.
  cbn [step getHistogram].
  set (bin := computeOtsuThreshold _ _).
  destruct (bin_intensity_bounds mn (or_one (mx - mn)) bin 255 Hr) as [H0 H1].
  { apply otsu_bin_range. }
  assert (mn + inject_Z bin / (256 / or_one (mx - mn))
          < mn + or_one (mx - mn))%Q as H2.
  { eapply Qle_lt_trans; [exact H1|].
    change (inject_Z 255) with 255%Q. lra. }
  split; [exact H0|]. split; [exact H2|].
  intros Hlt. pose proof (or_one_range mn mx Hlt). lra.
Qed.

(** The two thresholds of the multi-level method are ordered and lie in
    the intensity range of the volume: the upper bin is at least one
    above the lower one. *)
Lemma seg_thresholds_multi_otsu_ordered (manualThreshold manualUpper : Q)
    (d : list Q) (mn mx : Q) :
  (mn <= mx)%Q ->
  exists lower upper,
    seg_thresholds multi_otsu manualThreshold manualUpper d mn mx
    = (Some lower, Some upper)
    /\ (mn <= lower)%Q /\ (lower < upper)%Q
    /\ (upper <= mn + or_one (mx - mn))%Q.
Proof.
  intros Hle. pose proof (or_one_pos mn mx Hle) as Hr.
  unfold seg_thresholds.
  set (hr := getHistogram d mn mx).
  set (total := foldl _ 0 (seqZ 0 256)).
  set (t1Bin := computeOtsuThreshold (histogram hr) total).
  destruct (foldl _ (replicate 256 0, 0) (seqZ t1Bin (256 - t1Bin)))
    as [hist2 total2].
  set (t2Bin := computeOtsuThreshold hist2 total2).
  eexists _, _. split; [reflexivity|].
  pose proof (otsu_bin_range (histogram hr) total) as H1.
  pose proof (otsu_bin_range hist2 total2) as H2.
  fold t1Bin in H1. fold t2Bin in H2.
  subst hr. cbn [step getHistogram].
  destruct (bin_intensity_bounds mn (or_one (mx - mn)) t1Bin 255 Hr H1)
    as [Ha _].
  destruct (bin_intensity_bounds mn (or_one (mx - mn))
              (Z.max (t1Bin + 1) t2Bin) 256 Hr ltac:(lia)) as [_ Hb].
  split; [exact Ha|]. split.
  - apply bin_intensity_lt; [exact Hr|lia].
  - eapply Qle_trans; [exact Hb|]. change (inject_Z 256) with 256%Q. lra.
Qed.

(** ** The bins of the histogram *)








(** ** The study differences, with the studies exchanged *)

Lemma differences_opp (dataA dataB : list Q) (v : Q) :
  v ∈ differences dataA dataB ->
  exists w, w ∈ differences dataB dataA /\ (w == - v)%Q.
Proof.
  unfold differences.
  intros (i & a & b & -> & Ha & Hb)%elem_of_lookup_zip_with.
  exists (a - b)%Q. split; [|ring].
  apply elem_of_lookup_zip_with. by exists i, b, a.
Qed.

Lemma differences_length (dataA dataB : list Q) :
  length dataA = length dataB ->
  length (differences dataA dataB) = length dataA.
Proof. intros H. unfold differences. rewrite length_zip_with. lia. Qed.

(** The extremes of a non-empty list of differences are finite. *)
Lemma running_extremes_Fin (l : list Q) :
  l <> [] ->
  exists lo hi, running_min Infinity l = Fin lo
                /\ running_max NegInfinity l = Fin hi.
Proof.
  intros Hne.
  pose proof (running_min_spec l Infinity) as Hmin.
  pose proof (running_max_spec l NegInfinity) as Hmax.
  destruct (running_min Infinity l) as [|lo|];
    [done| |by destruct Hmin].
  destruct (running_max NegInfinity l) as [|hi|];
    [by destruct Hmax| |done].
  by exists lo, hi.
Qed.

(** X5: exchanging the two studies negates the difference: every element
    changes its sign, and the minimum and the maximum change places. *)
Theorem computeVolumeDifference_exchange (volA volB : VolumeData tarray) :
  alen (data volA) = alen (data volB) ->
  exists ab ba,
    computeVolumeDifference volA volB = Some ab
    /\ computeVolumeDifference volB volA = Some ba
    /\ alen (data ba) = alen (data ab)
    /\ (forall i v, aget (data ab) i = Some v ->
          exists w, aget (data ba) i = Some w /\ (w == - v)%Q)
    /\ (forall lo hi, min ab = Fin lo -> max ab = Fin hi ->
          exists lo' hi', min ba = Fin lo' /\ max ba = Fin hi'
                          /\ (lo' == - hi)%Q /\ (hi' == - lo)%Q).
Proof.
  intros Hlen.
  rewrite (computeVolumeDifference_eq volA volB Hlen).
  rewrite (computeVolumeDifference_eq volB volA (eq_sym Hlen)).
  cbv zeta. eexists _, _. split; [reflexivity|]. split; [reflexivity|].
  cbn [data min max]. unfold aget, alen. cbn [elems].
  set (A := elems (data volA)). set (B := elems (data volB)).
  assert (length A = length B) as HAB.
  { unfold alen, zlen in Hlen. subst A B. lia. }
  split_and!.
  - unfold zlen. rewrite !differences_length by done. lia.
  - intros i v [Hi Hv]%zget_Some. unfold differences in Hv.
    apply lookup_zip_with_Some in Hv as (a & b & -> & Ha & Hb).
    exists (a - b)%Q. split; [|ring].
    apply differences_lookup; apply zget_Some; done.
  - intros lo hi Hlo Hhi.
    pose proof (running_min_spec (differences A B) Infinity) as Hmin.
    pose proof (running_max_spec (differences A B) NegInfinity) as Hmax.
    rewrite Hlo in Hmin. rewrite Hhi in Hmax.
    destruct Hmin as (_ & [?|Hlo_in] & Hlo_le & _); [done|].
    destruct Hmax as (_ & [?|Hhi_in] & Hhi_le & _); [done|].
    destruct (running_extremes_Fin (differences B A)) as (lo' & hi' & Hlo' & Hhi').
    { intros Hnil. apply differences_opp in Hlo_in as (w & Hw & _).
      rewrite Hnil in Hw. by apply elem_of_nil in Hw. }
    exists lo', hi'. split; [done|]. split; [done|].
    pose proof (running_min_spec (differences B A) Infinity) as Hmin'.
    pose proof (running_max_spec (differences B A) NegInfinity) as Hmax'.
    rewrite Hlo' in Hmin'. rewrite Hhi' in Hmax'.
    destruct Hmin' as (_ & [?|Hlo_in'] & Hlo_le' & _); [done|].
    destruct Hmax' as (_ & [?|Hhi_in'] & Hhi_le' & _); [done|].
    destruct (differences_opp _ _ _ Hlo_in) as (w1 & Hw1 & E1).
    destruct (differences_opp _ _ _ Hhi_in) as (w2 & Hw2 & E2).
    destruct (differences_opp _ _ _ Hlo_in') as (w3 & Hw3 & E3).
    destruct (differences_opp _ _ _ Hhi_in') as (w4 & Hw4 & E4).
    pose proof (Hlo_le' _ Hw2). pose proof (Hhi_le' _ Hw1).
    pose proof (Hhi_le _ Hw3). pose proof (Hlo_le _ Hw4).
    split; apply Qle_antisym; lra.
Qed.

Lemma computeVolumeDifference_exchange_witness :
  exists ab ba,
    computeVolumeDifference
      (mkVolume (mkHeader [3; 2; 1; 1] [] 4) (mkArr Int16 [1; 2]%Q) (2, 1, 1)
         (Fin 1) (Fin 2))
      (mkVolume (mkHeader [3; 2; 1; 1] [] 4) (mkArr Int16 [3; 5]%Q) (2, 1, 1)
         (Fin 3) (Fin 5))
    = Some ab
    /\ computeVolumeDifference
         (mkVolume (mkHeader [3; 2; 1; 1] [] 4) (mkArr Int16 [3; 5]%Q) (2, 1, 1)
            (Fin 3) (Fin 5))
         (mkVolume (mkHeader [3; 2; 1; 1] [] 4) (mkArr Int16 [1; 2]%Q) (2, 1, 1)
            (Fin 1) (Fin 2))
       = Some ba
    /\ alen (data ba) = alen (data ab).
Proof.
  destruct (computeVolumeDifference_exchange
    (mkVolume (mkHeader [3; 2; 1; 1] [] 4) (mkArr Int16 [1; 2]%Q) (2, 1, 1)
       (Fin 1) (Fin 2))
    (mkVolume (mkHeader [3; 2; 1; 1] [] 4) (mkArr Int16 [3; 5]%Q) (2, 1, 1)
       (Fin 3) (Fin 5)) eq_refl) as (ab & ba & H1 & H2 & H3 & _).
  exists ab, ba. split; [exact H1|]. split; [exact H2|exact H3].
Defined.

(** X6: the difference of two volumes of equal length keeps the invariant of
    the data model: it has the dimensions and the header of the first
    volume, marked as float data, and as many voxels. *)
Theorem computeVolumeDifference_well_formed (volA volB : VolumeData tarray) :
  well_formed volA -> alen (data volA) = alen (data volB) ->
  exists out,
    computeVolumeDifference volA volB = Some out
    /\ well_formed out
    /\ dimensions out = dimensions volA
    /\ datatypeCode (header out) = 16
    /\ dims (header out) = dims (header volA)
    /\ pixDims (header out) = pixDims (header volA).
Proof.
  intros Hwf Hlen. rewrite (computeVolumeDifference_eq volA volB Hlen).
  cbv zeta. eexists. split; [reflexivity|].
  split_and!; try done.
  unfold well_formed in *. cbn [dimensions data].
  destruct (dimensions volA) as [[dimX dimY] dimZ].
  rewrite <- Hwf. unfold alen, zlen in *. cbn [elems].
  rewrite differences_length; lia.
Qed.

Lemma computeVolumeDifference_well_formed_witness :
  exists out,
    computeVolumeDifference
      (mkVolume (mkHeader [3; 2; 1; 1] [] 4) (mkArr Int16 [1; 2]%Q) (2, 1, 1)
         (Fin 1) (Fin 2))
      (mkVolume (mkHeader [3; 2; 1; 1] [] 4) (mkArr Int16 [3; 5]%Q) (2, 1, 1)
         (Fin 3) (Fin 5))
    = Some out
    /\ well_formed out.
Proof.
  destruct (computeVolumeDifference_well_formed
    (mkVolume (mkHeader [3; 2; 1; 1] [] 4) (mkArr Int16 [1; 2]%Q) (2, 1, 1)
       (Fin 1) (Fin 2))
    (mkVolume (mkHeader [3; 2; 1; 1] [] 4) (mkArr Int16 [3; 5]%Q) (2, 1, 1)
       (Fin 3) (Fin 5)) eq_refl eq_refl) as (out & H1 & H2 & _).
  exists out. split; [exact H1|exact H2].
Defined.

Lemma seg_len_nonneg (segA segB : option (VolumeData tarray)) :
  0 <= seg_len segA segB.
Proof. unfold seg_len, alen, zlen. destruct segA, segB; lia. Qed.

Lemma computeSegmentationDifference_Some
    (segA segB : option (VolumeData tarray)) (dimRef : Z * Z * Z)
    (out : VolumeData tarray) (i : Z) (v : Q) :
  computeSegmentationDifference segA segB dimRef = Some out ->
  aget (data out) i = Some v
  <-> 0 <= i < seg_len segA segB
      /\ v = category (present segA i) (present segB i).
Proof.
  intros Hout.
  assert ((segA <> None \/ segB <> None) /\ seg_len segA segB <> 0)
    as [H1 H2].
  { unfold computeSegmentationDifference in Hout.
    destruct (Z.eqb_spec (seg_len segA segB) 0) as [E|E].
    - by destruct segA, segB.
    - destruct segA, segB; auto. }
  rewrite computeSegmentationDifference_eq in Hout by done.
  simplify_eq. cbn [data]. unfold aget. cbn [elems].
  pose proof (seg_len_nonneg segA segB).
  rewrite zget_Some, list_lookup_fmap. split.
  - intros [Hi Hv].
    destruct (seqZ 0 (seg_len segA segB) !! Z.to_nat i) as [j|] eqn:Hj;
      [|done].
    apply lookup_seqZ in Hj as [-> Hj]. simpl in Hv. simplify_eq.
    rewrite Z.add_0_l, Z2Nat.id by done. split; [lia|done].
  - intros [Hi ->]. split; [lia|].
    rewrite lookup_seqZ_lt by lia. simpl. by rewrite Z2Nat.id by lia.
Qed.

(** X7: exchanging the two masks exchanges the labels 1 (disappeared) and 2
    (new) and keeps 0 and 3, voxel by voxel. *)
Theorem computeSegmentationDifference_exchange
    (segA segB : option (VolumeData tarray)) (dimRef : Z * Z * Z)
    (ab ba : VolumeData tarray) :
  seg_len segA segB = seg_len segB segA ->
  computeSegmentationDifference segA segB dimRef = Some ab ->
  computeSegmentationDifference segB segA dimRef = Some ba ->
  forall i,
    (aget (data ab) i = Some 0%Q <-> aget (data ba) i = Some 0%Q)
    /\ (aget (data ab) i = Some 1%Q <-> aget (data ba) i = Some 2%Q)
    /\ (aget (data ab) i = Some 2%Q <-> aget (data ba) i = Some 1%Q)
    /\ (aget (data ab) i = Some 3%Q <-> aget (data ba) i = Some 3%Q).
Proof.
  intros Hlen Hab Hba i.
  rewrite !(computeSegmentationDifference_Some _ _ _ _ _ _ Hab).
  rewrite !(computeSegmentationDifference_Some _ _ _ _ _ _ Hba).
  rewrite Hlen.
  destruct (present segA i), (present segB i); cbn [category];
    split_and!; split; intros [? ?]; (split; [done|]); done.
Qed.

Lemma computeSegmentationDifference_exchange_witness :
  let a := Some (mkVolume (mkHeader [3; 3; 1; 1] [] 2) (mkArr Uint8 [1; 0; 2]%Q)
                   (3, 1, 1) (Fin 0) (Fin 255)) in
  let b := Some (mkVolume (mkHeader [3; 3; 1; 1] [] 2) (mkArr Uint8 [0; 3; 2]%Q)
                   (3, 1, 1) (Fin 0) (Fin 255)) in
  exists ab ba,
    computeSegmentationDifference a b (3, 1, 1) = Some ab
    /\ computeSegmentationDifference b a (3, 1, 1) = Some ba
    /\ (aget (data ab) 0 = Some 1%Q <-> aget (data ba) 0 = Some 2%Q).
Proof.
  intros a b. eexists _, _. split; [reflexivity|]. split; [reflexivity|].
  apply (computeSegmentationDifference_exchange a b (3, 1, 1) _ _
           eq_refl eq_refl eq_refl 0).
Defined.

(** ** Strokes of the brush at one place *)

(** Two arrays of one kind with the same elements are the same array. *)
Lemma tarray_ext (a b : tarray) :
  kind a = kind b -> (forall i, aget a i = aget b i) -> a = b.
Proof.
  destruct a as [ka ea], b as [kb eb]. unfold aget. cbn [kind elems].
  intros -> H. f_equal. apply list_eq. intros n.
  specialize (H (Z.of_nat n)). by rewrite !zget_of_nat in H.
Qed.

(** A store outside the array is lost. *)
Lemma aget_aset_any (a : tarray) (j i : Z) (v : Q) :
  aget (aset a j v) i
  = if decide (i = j /\ 0 <= j < alen a) then Some (coerce (kind a) v)
    else aget a i.
Proof.
  destruct (decide (0 <= j < alen a)) as [Hj|Hj].
  { rewrite aget_aset by done.
    destruct (decide (i = j)) as [->|Hne].
    - by rewrite decide_True.
    - rewrite decide_False; [done|]. by intros [? _]. }
  rewrite decide_False by (by intros [_ ?]).
  unfold aget, aset, alen, zlen, zset in *. cbn [elems].
  destruct (Z.ltb_spec j 0); [done|].
  by rewrite list_insert_ge by lia.
Qed.

Lemma aget_fold_aset_any (l : list Z) (a : tarray) (v : Q) (i : Z) :
  aget (foldl (fun a j => aset a j v) a l) i
  = if decide (i ∈ l /\ 0 <= i < alen a) then Some (coerce (kind a) v)
    else aget a i.
Proof.
  revert a. induction l as [|j l IH]; intros a; cbn [foldl].
  { rewrite decide_False; [done|]. intros [H _]. by apply elem_of_nil in H. }
  rewrite IH. cbn [aset kind]. rewrite aget_aset_any.
  assert (alen (aset a j v) = alen a) as ->.
  { unfold alen, aset. cbn [elems]. by rewrite zset_length. }
  destruct (decide (i ∈ l /\ 0 <= i < alen a)) as [[Hi Hr]|Hn].
  - rewrite decide_True; [done|]. split; [by apply elem_of_cons; right|done].
  - destruct (decide (i = j /\ 0 <= j < alen a)) as [[-> Hr]|Hn'].
    + rewrite decide_True; [done|]. split; [by apply elem_of_cons; left|done].
    + rewrite decide_False; [done|]. intros [[->|Hi]%elem_of_cons Hr]; tauto.
Qed.

(** A stroke over a stroke at the same place: the second one wins. *)
Lemma paint_sphere_overwrite (dimX dimY dimZ x y z : Z) (v1 v2 : Q)
    (radius : Z) (a : tarray) :
  paint_sphere dimX dimY dimZ x y z v2 radius
    (paint_sphere dimX dimY dimZ x y z v1 radius a)
  = paint_sphere dimX dimY dimZ x y z v2 radius a.
Proof.
  rewrite !paint_sphere_fold.
  set (l := painted_indices dimX dimY dimZ x y z radius).
  destruct (fold_aset_shape l a v1) as [Hk1 Hl1].
  destruct (fold_aset_shape l a v2) as [Hk2 Hl2].
  destruct (fold_aset_shape l (foldl (fun a i => aset a i v1) a l) v2)
    as [Hk3 Hl3].
  apply tarray_ext; [congruence|]. intros i.
  rewrite !aget_fold_aset_any, Hk1, Hl1.
  by repeat case_decide.
Qed.

(** Erasing on a mask of zeros changes nothing. *)
Lemma paint_sphere_zero (dimX dimY dimZ x y z radius len : Z) :
  paint_sphere dimX dimY dimZ x y z 0 radius (new_array Uint8 len)
  = new_array Uint8 len.
Proof.
  rewrite paint_sphere_fold.
  set (l := painted_indices dimX dimY dimZ x y z radius).
  destruct (fold_aset_shape l (new_array Uint8 len) 0) as [Hk Hl].
  apply tarray_ext; [done|]. intros i.
  rewrite aget_fold_aset_any. case_decide as Hi; [|done].
  destruct Hi as [_ Hi]. unfold aget, new_array, alen, zlen in *.
  cbn [elems kind] in *. rewrite length_replicate in Hi.
  symmetry. apply zget_Some. split; [lia|].
  apply lookup_replicate_2. lia.
Qed.

(** A stroke on a mask there is, from any store. *)
Lemma handleDraw_on_mask (volume segVol : VolumeData loc) (x y z : Z)
    (val : Q) (radius : Z) (s : store) :
  handleDraw (Some volume) (Some segVol) true x y z val radius s
  = (Ok (Some (mkVolume (header segVol) (data segVol) (dimensions segVol)
                 (min segVol) (max segVol))),
     mkStore
       (alter (paint_sphere (dimensions volume).1.1 (dimensions volume).1.2
                 (dimensions volume).2 x y z val radius)
          (data segVol) (heap s))
       (progress s)).
Proof.
  unfold handleDraw. cbn [negb]. unfold bind, ret, update_array.
  by destruct (dimensions volume) as [[dimX dimY] dimZ].
Qed.

(** X8: repeating a stroke changes nothing: the handler called again with
    the same arguments, as a mouse that rests on a voxel makes it,
    returns the same mask and leaves the store as the first call left
    it. *)
Theorem handleDraw_idempotent (volume segVol : VolumeData loc) (x y z : Z)
    (val : Q) (radius : Z) (s : store) :
  let r := handleDraw (Some volume) (Some segVol) true x y z val radius s in
  handleDraw (Some volume) (Some segVol) true x y z val radius r.2 = r.
Proof.
  intros r. subst r. rewrite !handleDraw_on_mask. cbn [snd heap progress].
  do 2 f_equal. rewrite list_alter_alter_eq.
  apply list_alter_ext; [|done]. intros a _. simpl.
  apply paint_sphere_overwrite.
Qed.

(** X9: a first stroke of the brush makes the mask; the eraser at the same
    place and size then gives back a mask of zeros, as long as the
    volume, in the array the stroke made. *)
Theorem handleDraw_erase_stroke (volume : VolumeData loc) (x y z radius : Z)
    (s : store) :
  exists drawn s1 erased s2,
    handleDraw (Some volume) None true x y z 1 radius s = (Ok (Some drawn), s1)
    /\ handleDraw (Some volume) (Some drawn) true x y z 0 radius s1
       = (Ok (Some erased), s2)
    /\ data erased = data drawn
    /\ data drawn = length (heap s)
    /\ array_at s2 (data erased)
       = new_array Uint8 (alen (array_at s (data volume)))
    /\ (forall l, (l < length (heap s))%nat -> heap s2 !! l = heap s !! l).
Proof.
  destruct (dimensions volume) as [[dimX dimY] dimZ] eqn:Hdims.
  assert (handleDraw (Some volume) None true x y z 1 radius s
          = (Ok (Some (mkVolume (with_datatypeCode (header volume) 2)
                         (length (heap s)) (dimensions volume) (Fin 0) (Fin 1))),
             mkStore
               (heap s ++ [paint_sphere dimX dimY dimZ x y z 1 radius
                             (new_array Uint8 (alen (array_at s (data volume))))])
               (progress s))) as H1.
  { unfold handleDraw. cbn [negb].
    unfold bind, ret, update_array, length_of, alloc. rewrite Hdims.
    cbn [data heap progress]. do 2 f_equal.
    rewrite <- (Nat.add_0_r (length (heap s))).
    rewrite alter_app_r. done. }
  eexists _, _, _, _. split; [exact H1|].
  rewrite handleDraw_on_mask. split; [reflexivity|].
  cbn [data heap progress]. split; [done|]. split; [done|]. split.
  - rewrite Hdims. cbn [fst snd].
    rewrite <- (Nat.add_0_r (length (heap s))).
    rewrite alter_app_r. unfold array_at. cbn [heap].
    rewrite lookup_app_r by lia.
    replace (length (heap s) + 0 - length (heap s))%nat with 0%nat by lia.
    cbn. rewrite paint_sphere_overwrite. apply paint_sphere_zero.
  - intros l Hl. rewrite list_lookup_alter_ne by lia.
    by rewrite lookup_app_l.
Qed.

(** ** Scans, voxel by voxel *)

Lemma scanned_heap (data out : loc) (d init : tarray) (R : Z -> Q -> Prop)
    (bound : Z) (s s' : store) :
  heap s' = heap s -> scanned data out d init R bound s ->
  scanned data out d init R bound s'.
Proof.
  intros Hh. unfold scanned, array_at. by rewrite Hh.
Qed.

Section scan.
Variables (data out : loc) (d init : tarray) (R : Z -> Q -> Prop).
Variable body : Z -> M unit.
Hypothesis body_step : forall j s,
  0 <= j < alen init -> scanned data out d init R j s ->
  runs (body j) s (fun _ s' => scanned data out d init R (j + 1) s').

(** [for (let j = c; j < c + n; j++)] *)
Lemma scan_loop (n : nat) (c : Z) (s : store) :
  0 <= c -> c + Z.of_nat n <= alen init ->
  scanned data out d init R c s ->
  runs (for_ (seqZ c (Z.of_nat n)) body) s
    (fun _ s' => scanned data out d init R (c + Z.of_nat n) s').
Proof.
  revert c s. induction n as [|n IH]; intros c s Hc Hn Hs.
  { apply runs_ret. by rewrite Z.add_0_r. }
  rewrite seqZ_cons by lia. cbn [for_]. apply runs_bind.
  eapply runs_weaken; [apply body_step; [lia|done]|].
  intros ? s1 Hs1. cbv beta in Hs1.
  replace (Z.pred (Z.of_nat (S n))) with (Z.of_nat n) by lia.
  eapply runs_weaken; [apply (IH (Z.succ c)); [lia|lia|]|].
  - by replace (Z.succ c) with (c + 1) by lia.
  - intros ? s2 Hs2. cbv beta in Hs2.
    by replace (c + Z.of_nat (S n)) with (Z.succ c + Z.of_nat n) by lia.
Qed.

(** The scan in chunks of 500000 voxels, each followed by a step [tail]
    that leaves the arrays alone, as the report of the progress does. *)
Lemma chunk_scan (tail : Z -> M unit) (len : Z) (s : store) :
  alen init = len ->
  (forall i s, exists s', tail i s = (Ok tt, s') /\ heap s' = heap s) ->
  scanned data out d init R 0 s ->
  runs (for_ (chunk_starts len) (fun i =>
          let end_ := Z.min (i + 500000) len in
          for_ (seqZ i (end_ - i)) body ;;; tail i)) s
    (fun _ s' => scanned data out d init R len s').
Proof.
  intros Hinit Htail Hs.
  assert (0 <= len) as Hlen by (subst len; unfold alen, zlen; lia).
  unfold chunk_starts, visited_indices.
  set (n := visited_count len 500000).
  assert (0 <= n) as Hn.
  { unfold n, visited_count. apply Z.div_pos; lia. }
  assert (forall (m : nat) (k : Z) s,
    0 <= k -> k + Z.of_nat m = n ->
    scanned data out d init R (Z.min (k * 500000) len) s ->
    runs (for_ ((fun k => k * 500000) <$> seqZ k (Z.of_nat m)) (fun i =>
            let end_ := Z.min (i + 500000) len in
            for_ (seqZ i (end_ - i)) body ;;; tail i)) s
      (fun _ s' => scanned data out d init R len s')) as Hgen.
  { induction m as [|m IH]; intros k s1 Hk Hkm Hs1.
    - apply runs_ret. replace (Z.min (k * 500000) len) with len in Hs1; [done|].
      assert (~ k * 500000 < len); [|lia].
      rewrite (strided_lt_iff len 500000) by lia. fold n. lia.
    - rewrite seqZ_cons by lia. cbn [fmap list_fmap for_]. cbv zeta.
      assert (k * 500000 < len) as Hlt.
      { apply (strided_lt_iff len 500000); [lia|lia|]. fold n. lia. }
      rewrite Z.min_l in Hs1 by lia.
      apply runs_bind. apply runs_bind.
      set (cnt := Z.min (k * 500000 + 500000) len - k * 500000).
      replace cnt with (Z.of_nat (Z.to_nat cnt)) by lia.
      eapply runs_weaken; [apply scan_loop; [lia|lia|done]|].
      intros ? s2 Hs2. cbv beta in Hs2.
      destruct (Htail (k * 500000) s2) as (s3 & Ht & Hh).
      exists tt, s3. split; [done|].
      replace (Z.pred (Z.of_nat (S m))) with (Z.of_nat m) by lia.
      apply (IH (Z.succ k)); [lia|lia|].
      eapply scanned_heap; [done|].
      replace (Z.min (Z.succ k * 500000) len)
        with (k * 500000 + Z.of_nat (Z.to_nat cnt)) by lia.
      done. }
  replace n with (Z.of_nat (Z.to_nat n)) by lia.
  apply Hgen; [lia|lia|]. by rewrite Z.min_l by lia.
Qed.
End scan.

(** One voxel of a scan that stores the value [F j v] computed from the
    index and the input voxel, and stores nothing where that is
    [None]. *)
Lemma store_step (data out : loc) (d init : tarray)
    (F : Z -> Q -> option Q) (j : Z) (s : store) :
  data <> out -> 0 <= j < alen init ->
  let R := fun j w =>
    Some w = match F j (voxel d j) with
             | Some x => Some (coerce (kind init) x)
             | None => aget init j
             end in
  scanned data out d init R j s ->
  runs (v <- rd data j ;;
        match F j v with Some x => wr out j x | None => ret tt end) s
    (fun _ s' => scanned data out d init R (j + 1) s').
Proof.
  intros Hne Hj R (Hd & Hout & Hk & Hl & Hlow & Hhigh).
  apply runs_bind. eexists _, s. split; [done|]. rewrite Hd. fold (voxel d j).
  destruct (F j (voxel d j)) as [x|] eqn:HF.
  - eexists tt, _. split; [done|]. unfold scanned. cbn [heap].
    rewrite length_alter, array_at_alter_eq by done.
    rewrite array_at_alter_ne by done.
    assert (alen (aset (array_at s out) j x) = alen init) as Hl'.
    { unfold alen, aset. cbn [elems]. rewrite zset_length. exact Hl. }
    split_and!; [done|done|by cbn [aset kind]|done|..].
    + intros j' Hj'. rewrite aget_aset by lia.
      destruct (decide (j' = j)) as [->|Hne'].
      * eexists. split; [done|]. unfold R. by rewrite HF, Hk.
      * apply Hlow. lia.
    + intros j' Hj'. rewrite aget_aset by lia.
      rewrite decide_False by lia. apply Hhigh. lia.
  - apply runs_ret. split_and!; [done..| |].
    + intros j' Hj'. destruct (decide (j' = j)) as [->|Hne'].
      * rewrite Hhigh by lia.
        destruct (zget_lt (elems init) j Hj) as [w Hw].
        exists w. split; [done|]. unfold R. by rewrite HF.
      * apply Hlow. lia.
    + intros j' Hj'. apply Hhigh. lia.
Qed.

(** ** The mask of a segmentation run, voxel by voxel *)

Lemma alen_new_array (k : elt_kind) (len : Z) :
  0 <= len -> alen (new_array k len) = len.
Proof.
  intros H. unfold alen, new_array, zlen. cbn [elems].
  rewrite length_replicate. lia.
Qed.

Lemma aget_new_array (k : elt_kind) (len j : Z) :
  0 <= j < len -> aget (new_array k len) j = Some 0%Q.
Proof.
  intros H. apply zget_Some. split; [lia|]. apply lookup_replicate_2. lia.
Qed.

Lemma alen_nonneg (a : tarray) : 0 <= alen a.
Proof. unfold alen, zlen. lia. Qed.

Lemma aget_Some_lt (a : tarray) (j : Z) (v : Q) :
  aget a j = Some v -> 0 <= j < alen a.
Proof.
  intros [? Hv%lookup_lt_Some]%zget_Some. unfold alen, zlen. lia.
Qed.

Lemma voxel_Some (a : tarray) (j : Z) (v : Q) :
  aget a j = Some v -> voxel a j = v.
Proof. unfold voxel. by intros ->. Qed.

(** The label of a voxel in the mask: the one the scan writes, or the 0
    of the fresh mask. *)
Lemma coerce_label (segMethod : SegMethod) (threshold upper : option Q)
    (val : Q) :
  match seg_label segMethod threshold upper val with
  | Some x => Some (coerce Uint8 x)
  | None => Some 0%Q
  end = Some (default 0%Q (seg_label segMethod threshold upper val)).
Proof.
  destruct (seg_label segMethod threshold upper val) as [x|] eqn:H; [|done].
  apply seg_label_is_label in H as [-> | [-> | ->]]; reflexivity.
Qed.

(** A run of a segmentation method on a volume whose data is the array
    [d]: the mask it hands on, and the label of every voxel. *)
Lemma runSegmentation_run (segMethod : SegMethod)
    (manualThreshold manualUpper : Q) (volume : VolumeData loc) (s : store)
    (mn mx : Q) (d : tarray) :
  is_manual segMethod = false ->
  min volume = Fin mn -> max volume = Fin mx ->
  heap s !! data volume = Some d ->
  let t := seg_thresholds segMethod manualThreshold manualUpper (elems d)
             mn mx in
  let mask := length (heap s) in
  exists s',
    runSegmentation segMethod manualThreshold manualUpper volume s
    = (Ok (Some (mkVolume (with_datatypeCode (header volume) 2) mask
                   (dimensions volume) (Fin 0) (Fin 255))), s')
    /\ array_at s' (data volume) = d
    /\ kind (array_at s' mask) = Uint8
    /\ alen (array_at s' mask) = alen d
    /\ forall j v, aget d j = Some v ->
         aget (array_at s' mask) j
         = Some (default 0%Q (seg_label segMethod t.1 t.2 v)).
Proof.
  intros Hmanual Hmin Hmax Hd t mask.
  assert (Hlt := lookup_lt_Some _ _ _ Hd).
  assert (array_at s (data volume) = d) as Harr
    by (unfold array_at; by rewrite Hd).
  set (len := alen d). set (init := new_array Uint8 len).
  assert (alen init = len) as Hinit by apply alen_new_array, alen_nonneg.
  set (R := fun j w =>
    Some w = match seg_label segMethod t.1 t.2 (voxel d j) with
             | Some x => Some (coerce (kind init) x)
             | None => aget init j
             end).
  assert (runs (runSegmentation segMethod manualThreshold manualUpper volume) s
    (fun out s' =>
       out = Some (mkVolume (with_datatypeCode (header volume) 2) mask
                     (dimensions volume) (Fin 0) (Fin 255))
       /\ scanned (data volume) mask d init R len s'))
    as (out & s' & Hrun & -> & Hd' & _ & Hk & Hl & Hlow & _).
  { unfold runSegmentation. rewrite Hmanual, Hmin, Hmax.
    apply runs_bind. eexists tt, _. split; [done|].
    apply runs_bind. eexists _, _. split; [done|].
    apply runs_bind. eexists _, _. split; [done|].
    apply runs_bind. eexists _, _. split; [done|].
    cbn [heap progress].
    assert (array_at {| heap := heap s; progress := 0 |} (data volume) = d)
      as -> by exact Harr.
    assert (array_at {| heap := heap s ++ [new_array Uint8 (alen d)];
                        progress := 0 |} (data volume) = d) as Hd1.
    { by rewrite array_at_alloc_old. }
    rewrite Hd1. fold len init. subst R t.
    destruct (seg_thresholds segMethod manualThreshold manualUpper (elems d)
                mn mx) as [threshold upperThreshold].
    cbn [fst snd].
    apply runs_bind. eapply runs_weaken.
    - apply (chunk_scan (data volume) mask d init _ _
               (fun j s Hj =>
                  store_step (data volume) mask d init
                    (fun _ v => seg_label segMethod threshold upperThreshold v)
                    j s ltac:(unfold mask; lia) Hj)).
      + exact Hinit.
      + intros i s1. by eexists.
      + unfold scanned. cbn [heap]. rewrite length_app. cbn [length].
        split_and!; [exact Hd1|unfold mask; lia|..].
        * unfold mask. by rewrite array_at_alloc_new.
        * unfold mask. by rewrite array_at_alloc_new.
        * intros j Hj. lia.
        * intros j _. unfold mask. by rewrite array_at_alloc_new.
    - intros ? s1 Hs1. cbv beta in Hs1.
      destruct (dimensions volume) as [[dimX dimY] dimZ].
      apply runs_bind. eexists tt, _. split; [done|].
      apply runs_ret. split; [done|].
      eapply scanned_heap; [|exact Hs1]. done. }
  exists s'. split; [exact Hrun|]. split; [done|]. split; [done|].
  split; [by rewrite Hl|].
  intros j v Hv. pose proof (aget_Some_lt _ _ _ Hv) as Hj.
  destruct (Hlow j Hj) as (w & Hw & HR). rewrite Hw. unfold R in HR.
  rewrite (voxel_Some _ _ _ Hv) in HR. rewrite HR.
  unfold init at 2. rewrite aget_new_array by done.
  apply coerce_label.
Qed.



Lemma Some_1_ne_0 : Some 1%Q <> Some 0%Q.
Proof. discriminate. Qed.

(** X11: the methods [binary] and [binary_inv] at one threshold: every voxel
    is labelled by one of the two, and by both exactly when its value is
    the threshold; the two masks are not complements of each other. *)
Theorem runSegmentation_binary_inv (manualThreshold manualUpper : Q)
    (volume : VolumeData loc) (s : store) (mn mx : Q) (d : tarray) :
  min volume = Fin mn -> max volume = Fin mx ->
  heap s !! data volume = Some d ->
  exists above s1 below s2,
    runSegmentation binary manualThreshold manualUpper volume s
    = (Ok (Some above), s1)
    /\ runSegmentation binary_inv manualThreshold manualUpper volume s
       = (Ok (Some below), s2)
    /\ forall j v, aget d j = Some v ->
         (aget (array_at s1 (data above)) j = Some 1%Q
          <-> (manualThreshold <= v)%Q)
         /\ (aget (array_at s2 (data below)) j = Some 1%Q
             <-> (v <= manualThreshold)%Q)
         /\ (aget (array_at s1 (data above)) j = Some 1%Q
             \/ aget (array_at s2 (data below)) j = Some 1%Q)
         /\ (aget (array_at s1 (data above)) j = Some 1%Q
             /\ aget (array_at s2 (data below)) j = Some 1%Q
             <-> (v == manualThreshold)%Q).
Proof.
  intros Hmin Hmax Hd.
  destruct (runSegmentation_run binary manualThreshold manualUpper volume s
              mn mx d eq_refl Hmin Hmax Hd) as (s1 & Hrun1 & _ & _ & _ & Hv1).
  destruct (runSegmentation_run binary_inv manualThreshold manualUpper volume s
              mn mx d eq_refl Hmin Hmax Hd) as (s2 & Hrun2 & _ & _ & _ & Hv2).
  eexists _, s1, _, s2. split; [exact Hrun1|]. split; [exact Hrun2|].
  intros j v Hv. cbn [data]. rewrite (Hv1 j v Hv), (Hv2 j v Hv).
  cbn [seg_thresholds seg_label fst snd ge_num le_num].
  destruct (Qle_bool manualThreshold v) eqn:H1;
    destruct (Qle_bool v manualThreshold) eqn:H2; cbn [default];
    try apply Qle_bool_iff in H1; try apply Qle_bool_iff in H2;
    try (assert (~ (manualThreshold <= v)%Q) as H1'
           by (rewrite <- Qle_bool_iff, H1; discriminate));
    try (assert (~ (v <= manualThreshold)%Q) as H2'
           by (rewrite <- Qle_bool_iff, H2; discriminate)).
  - split_and!; [done|done|by left|]. split; [intros _; by apply Qle_antisym|done].
  - split_and!; [done| |by left|].
    + split; [intros [=]|done].
    + split; [intros [_ [=]]|]. intros E. destruct H2'. rewrite E. apply Qle_refl.
  - split_and!; [|done|by right|].
    + split; [intros [=]|done].
    + split; [intros [[=] _]|]. intros E. destruct H1'. rewrite E. apply Qle_refl.
  - exfalso. destruct (Qlt_le_dec v manualThreshold) as [Hlt|Hge]; [|done].
    apply H2'. by apply Qlt_le_weak.
Qed.

Lemma runSegmentation_binary_inv_witness :
  exists above s1 below s2,
    runSegmentation binary 5 7
      (mkVolume (mkHeader [3; 2; 1; 1] [] 2) 0%nat (2, 1, 1) (Fin 0) (Fin 10))
      (mkStore [mkArr Uint8 [0; 10]%Q] 0)
    = (Ok (Some above), s1)
    /\ runSegmentation binary_inv 5 7
         (mkVolume (mkHeader [3; 2; 1; 1] [] 2) 0%nat (2, 1, 1) (Fin 0) (Fin 10))
         (mkStore [mkArr Uint8 [0; 10]%Q] 0)
       = (Ok (Some below), s2).
Proof.
  destruct (runSegmentation_binary_inv 5 7
    (mkVolume (mkHeader [3; 2; 1; 1] [] 2) 0%nat (2, 1, 1) (Fin 0) (Fin 10))
    (mkStore [mkArr Uint8 [0; 10]%Q] 0) 0 10 (mkArr Uint8 [0; 10]%Q)
    eq_refl eq_refl eq_refl)
    as (above & s1 & below & s2 & H1 & H2 & _).
  exists above, s1, below, s2. split; [exact H1|exact H2].
Defined.

(** X12: widening the interval of [range_pass] only adds voxels to the mask;
    an interval whose upper bound lies below its lower bound selects no
    voxel. *)
Theorem runSegmentation_range_pass_widen (lower upper lower' upper' : Q)
    (volume : VolumeData loc) (s : store) (mn mx : Q) (d : tarray) :
  min volume = Fin mn -> max volume = Fin mx ->
  heap s !! data volume = Some d ->
  (lower' <= lower)%Q -> (upper <= upper')%Q ->
  exists narrow s1 wide s2,
    runSegmentation range_pass lower upper volume s = (Ok (Some narrow), s1)
    /\ runSegmentation range_pass lower' upper' volume s = (Ok (Some wide), s2)
    /\ (forall j, aget (array_at s1 (data narrow)) j = Some 1%Q ->
                  aget (array_at s2 (data wide)) j = Some 1%Q)
    /\ ((upper < lower)%Q ->
        forall j, 0 <= j < alen d ->
                  aget (array_at s1 (data narrow)) j = Some 0%Q).
Proof.
  intros Hmin Hmax Hd Hlo Hhi.
  destruct (runSegmentation_run range_pass lower upper volume s
              mn mx d eq_refl Hmin Hmax Hd) as (s1 & Hrun1 & _ & _ & Hl1 & Hv1).
  destruct (runSegmentation_run range_pass lower' upper' volume s
              mn mx d eq_refl Hmin Hmax Hd) as (s2 & Hrun2 & _ & _ & Hl2 & Hv2).
  eexists _, s1, _, s2. split; [exact Hrun1|]. split; [exact Hrun2|].
  cbn [data]. cbn [seg_thresholds seg_label fst snd ge_num le_num] in Hv1, Hv2.
  split.
  - intros j Hj. pose proof (aget_Some_lt _ _ _ Hj) as Hr. rewrite Hl1 in Hr.
    destruct (zget_lt (elems d) j Hr) as [v Hv].
    rewrite (Hv1 j v Hv) in Hj. rewrite (Hv2 j v Hv).
    destruct (Qle_bool lower v) eqn:H1; [|by destruct Some_1_ne_0].
    destruct (Qle_bool v upper) eqn:H2; [|by destruct Some_1_ne_0].
    apply Qle_bool_iff in H1, H2.
    assert (Qle_bool lower' v = true) as ->
      by (apply Qle_bool_iff; by eapply Qle_trans).
    assert (Qle_bool v upper' = true) as ->
      by (apply Qle_bool_iff; by eapply Qle_trans).
    done.
  - intros Hinv j Hj. destruct (zget_lt (elems d) j Hj) as [v Hv].
    rewrite (Hv1 j v Hv).
    destruct (Qle_bool lower v) eqn:H1; [|done].
    destruct (Qle_bool v upper) eqn:H2; [|done].
    apply Qle_bool_iff in H1, H2. exfalso. lra.
Qed.

Lemma runSegmentation_range_pass_widen_witness :
  exists narrow s1 wide s2,
    runSegmentation range_pass 5 7
      (mkVolume (mkHeader [3; 2; 1; 1] [] 2) 0%nat (2, 1, 1) (Fin 0) (Fin 10))
      (mkStore [mkArr Uint8 [0; 10]%Q] 0)
    = (Ok (Some narrow), s1)
    /\ runSegmentation range_pass 4 8
         (mkVolume (mkHeader [3; 2; 1; 1] [] 2) 0%nat (2, 1, 1) (Fin 0) (Fin 10))
         (mkStore [mkArr Uint8 [0; 10]%Q] 0)
       = (Ok (Some wide), s2).
Proof.
  destruct (runSegmentation_range_pass_widen 5 7 4 8
    (mkVolume (mkHeader [3; 2; 1; 1] [] 2) 0%nat (2, 1, 1) (Fin 0) (Fin 10))
    (mkStore [mkArr Uint8 [0; 10]%Q] 0) 0 10 (mkArr Uint8 [0; 10]%Q)
    eq_refl eq_refl eq_refl ltac:(by vm_compute) ltac:(by vm_compute))
    as (narrow & s1 & wide & s2 & H1 & H2 & _).
  exists narrow, s1, wide, s2. split; [exact H1|exact H2].
Defined.

(** X13: the method [otsu] labels the voxels at or above a threshold that
    lies in the intensity range of the volume and below its upper end:
    on a volume that is not constant, a voxel that holds the maximum is
    labelled. *)
Theorem runSegmentation_otsu (manualThreshold manualUpper : Q)
    (volume : VolumeData loc) (s : store) (mn mx : Q) (d : tarray) :
  min volume = Fin mn -> max volume = Fin mx ->
  heap s !! data volume = Some d -> (mn <= mx)%Q ->
  exists segVol s' threshold,
    runSegmentation otsu manualThreshold manualUpper volume s
    = (Ok (Some segVol), s')
    /\ (mn <= threshold)%Q /\ (threshold < mn + or_one (mx - mn))%Q
    /\ ((mn < mx)%Q -> (threshold < mx)%Q)
    /\ forall j v, aget d j = Some v ->
         aget (array_at s' (data segVol)) j
         = Some (if Qle_bool threshold v then 1%Q else 0%Q).
Proof.
  intros Hmin Hmax Hd Hle.
  destruct (runSegmentation_run otsu manualThreshold manualUpper volume s
              mn mx d eq_refl Hmin Hmax Hd) as (s' & Hrun & _ & _ & _ & Hv).
  destruct (seg_thresholds_otsu_range manualThreshold manualUpper (elems d)
              mn mx Hle) as (t & Ht & H0 & H1 & H2).
  rewrite Ht in Hv. cbn [fst snd seg_label ge_num] in Hv.
  eexists _, s', t. split; [exact Hrun|]. split_and!; [done..|].
  intros j v Hj. cbn [data]. rewrite (Hv j v Hj).
  by destruct (Qle_bool t v).
Qed.

Lemma runSegmentation_otsu_witness :
  exists segVol s',
    runSegmentation otsu 5 7
      (mkVolume (mkHeader [3; 2; 1; 1] [] 2) 0%nat (2, 1, 1) (Fin 0) (Fin 10))
      (mkStore [mkArr Uint8 [0; 10]%Q] 0)
    = (Ok (Some segVol), s').
Proof.
  destruct (runSegmentation_otsu 5 7
    (mkVolume (mkHeader [3; 2; 1; 1] [] 2) 0%nat (2, 1, 1) (Fin 0) (Fin 10))
    (mkStore [mkArr Uint8 [0; 10]%Q] 0) 0 10 (mkArr Uint8 [0; 10]%Q)
    eq_refl eq_refl eq_refl ltac:(by vm_compute))
    as (segVol & s' & t & H1 & _).
  exists segVol, s'. exact H1.
Defined.

(** X14: the method [multi_otsu] cuts the intensity range at two thresholds,
    the lower one strictly below the upper one: voxels below the lower
    threshold get 0, voxels from the lower up to the upper one get 1,
    voxels from the upper threshold on get 2. *)
Theorem runSegmentation_multi_otsu (manualThreshold manualUpper : Q)
    (volume : VolumeData loc) (s : store) (mn mx : Q) (d : tarray) :
  min volume = Fin mn -> max volume = Fin mx ->
  heap s !! data volume = Some d -> (mn <= mx)%Q ->
  exists segVol s' lower upper,
    runSegmentation multi_otsu manualThreshold manualUpper volume s
    = (Ok (Some segVol), s')
    /\ (mn <= lower)%Q /\ (lower < upper)%Q
    /\ (upper <= mn + or_one (mx - mn))%Q
    /\ forall j v, aget d j = Some v ->
         aget (array_at s' (data segVol)) j
         = Some (if Qlt_le_dec v lower then 0%Q
                 else if Qlt_le_dec v upper then 1%Q else 2%Q).
Proof.
  intros Hmin Hmax Hd Hle.
  destruct (runSegmentation_run multi_otsu manualThreshold manualUpper volume s
              mn mx d eq_refl Hmin Hmax Hd) as (s' & Hrun & _ & _ & _ & Hv).
  destruct (seg_thresholds_multi_otsu_ordered manualThreshold manualUpper
              (elems d) mn mx Hle) as (lo & hi & Ht & H0 & H1 & H2).
  rewrite Ht in Hv. cbn [fst snd seg_label ge_num lt_num] in Hv.
  eexists _, s', lo, hi. split; [exact Hrun|]. split_and!; [done..|].
  intros j v Hj. cbn [data]. rewrite (Hv j v Hj). f_equal.
  destruct (Qlt_le_dec v lo) as [Hlt|Hge].
  - assert (Qle_bool lo v = false) as ->.
    { apply not_true_is_false. rewrite Qle_bool_iff. lra. }
    assert (Qle_bool hi v = false) as ->.
    { apply not_true_is_false. rewrite Qle_bool_iff. lra. }
    done.
  - assert (Qle_bool lo v = true) as -> by by apply Qle_bool_iff.
    destruct (Qlt_le_dec v hi) as [Hlt|Hge'].
    + assert (Qle_bool hi v = false) as ->.
      { apply not_true_is_false. rewrite Qle_bool_iff. lra. }
      done.
    + assert (Qle_bool hi v = true) as -> by by apply Qle_bool_iff.
      done.
Qed.

Lemma runSegmentation_multi_otsu_witness :
  exists segVol s',
    runSegmentation multi_otsu 5 7
      (mkVolume (mkHeader [3; 2; 1; 1] [] 2) 0%nat (2, 1, 1) (Fin 0) (Fin 10))
      (mkStore [mkArr Uint8 [0; 10]%Q] 0)
    = (Ok (Some segVol), s').
Proof.
  destruct (runSegmentation_multi_otsu 5 7
    (mkVolume (mkHeader [3; 2; 1; 1] [] 2) 0%nat (2, 1, 1) (Fin 0) (Fin 10))
    (mkStore [mkArr Uint8 [0; 10]%Q] 0) 0 10 (mkArr Uint8 [0; 10]%Q)
    eq_refl eq_refl eq_refl ltac:(by vm_compute))
    as (segVol & s' & lo & hi & H1 & _).
  exists segVol, s'. exact H1.
Defined.

(** ** Runs that return, and the shape of the store *)

Lemma shape_lookup (s : store) (l : loc) (k : elt_kind) (n : nat) :
  shape s !! l = Some (k, n)
  <-> (l < length (heap s))%nat
      /\ kind (array_at s l) = k /\ length (elems (array_at s l)) = n.
Proof.
  unfold shape, array_at. rewrite list_lookup_fmap. split.
  - intros H. destruct (heap s !! l) as [a|] eqn:Ha; [|done].
    simpl in H. simplify_eq. split; [by eapply lookup_lt_Some|done].
  - intros (Hl & Hk & Hn). destruct (lookup_lt_is_Some_2 _ _ Hl) as [a Ha].
    rewrite Ha in *. simpl in *. by subst.
Qed.

Lemma shape_alter_aset (h : list tarray) (l : loc) (i : Z) (v p : Q) :
  shape (mkStore (alter (fun a => aset a i v) l h) p) = shape (mkStore h p).
Proof.
  unfold shape. cbn [heap].
  rewrite (list_fmap_alter _ _ (fun x => x)).
  - by rewrite list_alter_id.
  - apply Forall_forall. intros a _. unfold aset. cbn [kind elems]. f_equal.
    pose proof (zset_length (elems a) i (coerce (kind a) v)) as H.
    unfold zlen in H. lia.
Qed.

Section growth.

Lemma grows_ret {A} (a : A) : grows (ret a).
Proof. intros s. by exists a, s. Qed.

Lemma grows_bind {A B} (m : M A) (f : A -> M B) :
  grows m -> (forall a, grows (f a)) -> grows (bind m f).
Proof.
  intros Hm Hf s. destruct (Hm s) as (a & s1 & Hrun & Hs1).
  destruct (Hf a s1) as (b & s2 & Hrun2 & Hs2). exists b, s2.
  unfold bind. rewrite Hrun. split; [done|]. by etrans.
Qed.

Lemma grows_for (l : list Z) (body : Z -> M unit) :
  (forall i, grows (body i)) -> grows (for_ l body).
Proof.
  intros Hbody. induction l as [|i l IH]; cbn [for_]; [apply grows_ret|].
  apply grows_bind; [apply Hbody|]. intros _. apply IH.
Qed.

Lemma grows_load (l : loc) : grows (load l).
Proof. intros s. by eexists _, s. Qed.

Lemma grows_length_of (l : loc) : grows (length_of l).
Proof. intros s. by eexists _, s. Qed.

Lemma grows_rd (l : loc) (i : Z) : grows (rd l i).
Proof. intros s. by eexists _, s. Qed.

Lemma grows_setProgress (p : Q) : grows (setProgress p).
Proof. intros s. by eexists tt, _. Qed.

Lemma grows_updateProgress (p : Q) : grows (updateProgress p).
Proof. apply grows_setProgress. Qed.

Lemma grows_alloc (k : elt_kind) (len : Z) : grows (alloc k len).
Proof.
  intros s. eexists _, _. split; [done|]. unfold shape. cbn [heap].
  rewrite fmap_app. by apply prefix_app_r.
Qed.

Lemma grows_wr (l : loc) (i : Z) (v : Q) : grows (wr l i v).
Proof.
  intros s. eexists tt, _. split; [done|].
  destruct s as [h p]. cbn [heap progress]. by rewrite shape_alter_aset.
Qed.

Lemma grows_subarray (l : loc) (b e : Z) : grows (subarray l b e).
Proof. intros s. by eexists _, s. Qed.

Lemma grows_vrd (v : view) (k : Z) : grows (vrd v k).
Proof. unfold vrd. destruct (_ && _); [apply grows_rd|apply grows_ret]. Qed.

Lemma grows_vload (v : view) : grows (vload v).
Proof. intros s. by eexists _, s. Qed.

Lemma grows_vwr (v : view) (k : Z) (x : Q) : grows (vwr v k x).
Proof. unfold vwr. destruct (_ && _); [apply grows_wr|apply grows_ret]. Qed.

End growth.

(** One step through a computation that is to be shown to return. *)
Ltac grows_step :=
  cbv beta zeta;
  lazymatch goal with
  | |- grows (bind _ _) => apply grows_bind; [|intros ?]
  | |- grows (ret _) => apply grows_ret
  | |- grows (for_ _ _) => apply grows_for; intros ?
  | |- grows (load _) => apply grows_load
  | |- grows (length_of _) => apply grows_length_of
  | |- grows (rd _ _) => apply grows_rd
  | |- grows (setProgress _) => apply grows_setProgress
  | |- grows (updateProgress _) => apply grows_updateProgress
  | |- grows (alloc _ _) => apply grows_alloc
  | |- grows (wr _ _ _) => apply grows_wr
  | |- grows (subarray _ _ _) => apply grows_subarray
  | |- grows (vrd _ _) => apply grows_vrd
  | |- grows (vload _) => apply grows_vload
  | |- grows (vwr _ _ _) => apply grows_vwr
  | |- grows (match ?x with _ => _ end) => destruct x
  end.

Ltac grows_auto := repeat grows_step.

Section transform_growth.
Variable Math_pow : Q -> Q -> Q.
Variable Math_exp : Q -> Q.
Variables data newData : loc.

Lemma run_hist_eq_grows (mn mx range : Q) (len : Z) :
  grows (run_hist_eq data newData mn mx range len).
Proof. unfold run_hist_eq. grows_auto. Qed.

Lemma run_clahe_grows (width height depth : Z) (clipLimit : Q) :
  grows (run_clahe data newData width height depth clipLimit).
Proof. unfold run_clahe, clahe_slice. grows_auto. Qed.

Lemma run_gamma_grows (mn range : Q) (len : Z) (gamma : Q) :
  grows (run_gamma Math_pow data newData mn range len gamma).
Proof. unfold run_gamma. grows_auto. Qed.

Lemma run_sigmoid_grows (mn range : Q) (len : Z) (gain cutoff : Q) :
  grows (run_sigmoid Math_exp data newData mn range len gain cutoff).
Proof. unfold run_sigmoid. grows_auto. Qed.

Lemma blur_pass_grows (buf : loc) (width height depth : Z) (xs ys zs : list Z)
    (stride : Z) (base_progress : Q) :
  grows (blur_pass buf newData width height depth xs ys zs stride
           base_progress).
Proof. unfold blur_pass. grows_auto. Qed.

Lemma run_n4_bias_grows (width height depth len : Z) :
  grows (run_n4_bias data newData width height depth len).
Proof. unfold run_n4_bias. grows_auto. Qed.

Lemma run_median_3d_grows (width height depth : Z) :
  grows (run_median_3d data newData width height depth).
Proof. unfold run_median_3d. grows_auto. Qed.

Lemma run_hist_match_grows (mn mx range : Q) (len : Z)
    (ref : VolumeData loc) (refMin refMax : Q) :
  min ref = Fin refMin -> max ref = Fin refMax ->
  grows (run_hist_match data newData mn mx range len (Some ref)).
Proof. intros Hmin Hmax. unfold run_hist_match. rewrite Hmin, Hmax. grows_auto. Qed.

End transform_growth.

Lemma bind_Ok {A B} (m : M A) (f : A -> M B) (s s' : store) (a : A) :
  m s = (Ok a, s') -> bind m f s = f a s'.
Proof. intros H. unfold bind. by rewrite H. Qed.

(** [dst.set(src)] returns when [src] is not the longer one, and keeps
    the shape of the store. *)
Lemma array_set_shape (dst src : loc) (s : store) (kd ks : elt_kind)
    (n n' : nat) :
  shape s !! dst = Some (kd, n) -> shape s !! src = Some (ks, n') ->
  (n' <= n)%nat ->
  exists s', array_set dst src s = (Ok tt, s') /\ shape s' = shape s.
Proof.
  intros Hd Hs Hle.
  pose proof Hd as (Hdl & Hdk & Hdn)%shape_lookup.
  pose proof Hs as (Hsl & Hsk & Hsn)%shape_lookup.
  unfold array_set. rewrite Hdn, Hsn.
  destruct (Nat.ltb_spec n n'); [lia|]. eexists. split; [done|].
  unfold shape. cbn [heap]. rewrite list_fmap_insert. cbn [kind elems].
  apply list_insert_id. fold (shape s). rewrite Hd. f_equal. f_equal; [done|].
  rewrite length_app, length_fmap, length_drop. lia.
Qed.

Section holding.
Variable sh : list (elt_kind * nat).

Lemma holds_bind {A B} (m : M A) (f : A -> M B) :
  holds sh m -> (forall a, holds sh (f a)) -> holds sh (bind m f).
Proof.
  intros Hm Hf s Hs. destruct (Hm s Hs) as (a & s1 & Hrun & Hs1).
  destruct (Hf a s1 Hs1) as (b & s2 & Hrun2 & Hs2). exists b, s2.
  by rewrite (bind_Ok _ _ _ _ _ Hrun).
Qed.

Lemma holds_grows {A} (m : M A) : grows m -> holds sh m.
Proof.
  intros Hm s Hs. destruct (Hm s) as (a & s1 & Hrun & Hs1).
  exists a, s1. split; [done|]. by etrans.
Qed.

Lemma holds_array_set (dst src : loc) (kd ks : elt_kind) (n n' : nat) :
  sh !! dst = Some (kd, n) -> sh !! src = Some (ks, n') -> (n' <= n)%nat ->
  holds sh (array_set dst src).
Proof.
  intros Hd Hs Hle s Hsh.
  destruct (array_set_shape dst src s kd ks n n') as (s' & Hrun & Hs');
    [by eapply prefix_lookup_Some..|done|].
  exists tt, s'. split; [done|]. by rewrite Hs'.
Qed.
End holding.

(** The Gaussian blur and the unsharp mask, which copy arrays, return
    when the input is as long as the output. *)
Lemma run_gaussian_returns (data newData : loc) (width height depth : Z)
    (sh : list (elt_kind * nat)) (kd kn : elt_kind) (n : nat) :
  sh !! data = Some (kd, n) -> sh !! newData = Some (kn, n) ->
  holds sh (run_gaussian data newData width height depth (Z.of_nat n)).
Proof.
  intros Hd Hn s Hs. unfold run_gaussian.
  rewrite (bind_Ok (alloc Float32 (Z.of_nat n)) _ s _ _ eq_refl).
  set (buf := length (heap s)).
  set (s1 := {| heap := heap s ++ [new_array Float32 (Z.of_nat n)];
                progress := progress s |}).
  set (sh1 := shape s ++ [(Float32, n)]).
  assert (shape s1 = sh1) as Hs1.
  { unfold shape, s1, sh1. cbn [heap]. rewrite fmap_app. cbn.
    by rewrite length_replicate, Nat2Z.id. }
  assert (sh1 !! buf = Some (Float32, n)) as Hbuf.
  { unfold sh1, buf, shape. rewrite lookup_app_r; rewrite length_fmap; [|done].
    by rewrite Nat.sub_diag. }
  assert (sh `prefix_of` sh1) as Hpre by (by apply prefix_app_r).
  assert (sh1 !! data = Some (kd, n)) as Hd1 by (by eapply prefix_lookup_Some).
  assert (sh1 !! newData = Some (kn, n)) as Hn1
    by (by eapply prefix_lookup_Some).
  assert (holds sh1
    (array_set buf data ;;;
     blur_pass buf newData width height depth (seqZ 1 (width - 2))
       (seqZ 0 height) (seqZ 0 depth) 1 0 ;;;
     array_set buf newData ;;;
     blur_pass buf newData width height depth (seqZ 0 width)
       (seqZ 1 (height - 2)) (seqZ 0 depth) width 33 ;;;
     array_set buf newData ;;;
     blur_pass buf newData width height depth (seqZ 0 width)
       (seqZ 0 height) (seqZ 1 (depth - 2)) (width * height) 66)) as H.
  { repeat first
      [ apply holds_bind; [|intros _]
      | by eapply holds_array_set
      | apply holds_grows, blur_pass_grows ]. }
  destruct (H s1) as (a & s' & Hrun & Hs'); [by rewrite Hs1|].
  exists a, s'. split; [done|]. by etrans.
Qed.

Lemma run_unsharp_returns (data newData : loc) (width : Z) (strength : Q)
    (sh : list (elt_kind * nat)) (kd : elt_kind) (n : nat) :
  sh !! data = Some (kd, n) ->
  holds sh (run_unsharp data newData width (Z.of_nat n) strength).
Proof.
  intros Hd s Hs. unfold run_unsharp.
  rewrite (bind_Ok (alloc Float32 (Z.of_nat n)) _ s _ _ eq_refl).
  rewrite (bind_Ok (alloc Float32 (Z.of_nat n)) _ _ _ _ eq_refl).
  cbn [heap progress]. rewrite length_app. cbn [length].
  set (buf := (length (heap s) + 1)%nat).
  set (s1 := {| heap := _; progress := progress s |}).
  set (sh1 := shape s ++ [(Float32, n); (Float32, n)]).
  assert (shape s1 = sh1) as Hs1.
  { unfold shape, s1, sh1. cbn [heap]. rewrite !fmap_app. cbn.
    rewrite length_replicate, Nat2Z.id. by rewrite <- app_assoc. }
  assert (sh1 !! buf = Some (Float32, n)) as Hbuf.
  { unfold sh1, buf, shape. rewrite lookup_app_r; rewrite length_fmap; [|lia].
    by replace (length (heap s) + 1 - length (heap s))%nat with 1%nat by lia. }
  assert (sh `prefix_of` sh1) as Hpre by (by apply prefix_app_r).
  assert (sh1 !! data = Some (kd, n)) as Hd1 by (by eapply prefix_lookup_Some).
  match goal with |- exists a s', ?m s1 = _ /\ _ => assert (holds sh1 m) as H end.
  { apply holds_bind; [by eapply holds_array_set|]. intros _.
    apply holds_grows. grows_auto. }
  destruct (H s1) as (a & s' & Hrun & Hs'); [by rewrite Hs1|].
  exists a, s'. split; [done|]. by etrans.
Qed.

(** Every transform returns on arrays of one length, but for the
    histogram matching without a reference volume. *)
Lemma run_transform_returns (Math_pow : Q -> Q -> Q) (Math_exp : Q -> Q)
    (procMethod : ProcMethod) (param1 param2 : Q)
    (referenceVolume : option (VolumeData loc)) (data newData : loc)
    (width height depth : Z) (mn mx : Q)
    (sh : list (elt_kind * nat)) (kd kn : elt_kind) (n : nat) :
  sh !! data = Some (kd, n) -> sh !! newData = Some (kn, n) ->
  (procMethod = hist_match ->
   exists ref refMin refMax,
     referenceVolume = Some ref /\ min ref = Fin refMin
     /\ max ref = Fin refMax) ->
  holds sh (run_transform Math_pow Math_exp procMethod param1 param2
              referenceVolume data newData width height depth (Z.of_nat n)
              mn mx).
Proof.
  intros Hd Hn Href. unfold run_transform. cbv zeta.
  destruct procMethod.
  - apply holds_grows, run_clahe_grows.
  - destruct Href as (ref & refMin & refMax & -> & Hmin & Hmax); [done|].
    by eapply holds_grows, run_hist_match_grows.
  - apply holds_grows, run_hist_eq_grows.
  - apply holds_grows, run_gamma_grows.
  - apply holds_grows, run_gamma_grows.
  - apply holds_grows, run_sigmoid_grows.
  - by eapply run_unsharp_returns.
  - by eapply run_gaussian_returns.
  - apply holds_grows, run_median_3d_grows.
  - apply holds_grows, run_n4_bias_grows.
Qed.

(** ** The stages of a transform run *)

(** The run up to the transform: the progress is reset and the output
    array is made, a float copy of the input. *)
Lemma runProcessing_eq (Math_pow : Q -> Q -> Q) (Math_exp : Q -> Q)
    (procMethod : ProcMethod) (param1 param2 : Q)
    (referenceVolume : option (VolumeData loc)) (volume : VolumeData loc)
    (s : store) (mn mx : Q) (d : tarray) (width height depth : Z) :
  min volume = Fin mn -> max volume = Fin mx ->
  dimensions volume = (width, height, depth) ->
  heap s !! data volume = Some d ->
  let newData := length (heap s) in
  runProcessing Math_pow Math_exp procMethod param1 param2 referenceVolume
    volume s
  = (run_transform Math_pow Math_exp procMethod param1 param2
       referenceVolume (data volume) newData width height depth (alen d)
       mn mx ;;;
     nd <- load newData ;;
     let samples := omap (zget (elems nd)) (visited_indices (alen d) 10) in
     setProgress 100 ;;;
     ret (mkVolume (header volume) newData (dimensions volume)
            (running_min Infinity samples) (running_max NegInfinity samples)))
      (mkStore (heap s ++ [mkArr Float32 (elems d)]) 0).
Proof.
  intros Hmin Hmax Hdims Hd newData.
  assert (Hlt := lookup_lt_Some _ _ _ Hd).
  unfold runProcessing. rewrite Hmin, Hmax, Hdims.
  rewrite (bind_Ok (setProgress 0) _ s _ _ eq_refl).
  rewrite (bind_Ok (length_of (data volume)) _ _ _ _ eq_refl).
  rewrite (bind_Ok (alloc Float32 _) _ _ _ _ eq_refl).
  cbn [heap progress].
  assert (array_at {| heap := heap s; progress := 0 |} (data volume) = d)
    as -> by (unfold array_at; cbn [heap]; by rewrite Hd).
  fold newData.
  assert (array_set newData (data volume)
            {| heap := heap s ++ [new_array Float32 (alen d)]; progress := 0 |}
          = (Ok tt, {| heap := heap s ++ [mkArr Float32 (elems d)];
                       progress := 0 |})) as Hset.
  { unfold array_set. rewrite array_at_alloc_new.
    rewrite array_at_alloc_old by done.
    assert (array_at s (data volume) = d)
      as -> by (unfold array_at; by rewrite Hd).
    cbn [new_array elems kind heap progress coerce].
    rewrite length_replicate.
    destruct (Nat.ltb_spec (Z.to_nat (alen d)) (length (elems d)));
      [unfold alen, zlen in *; lia|].
    do 2 f_equal. unfold newData.
    rewrite <- (Nat.add_0_r (length (heap s))), insert_app_r. cbn. do 3 f_equal.
    rewrite list_fmap_id, drop_replicate.
    replace (Z.to_nat (alen d) - length (elems d))%nat with 0%nat
      by (unfold alen, zlen; lia).
    by rewrite app_nil_r. }
  rewrite (bind_Ok _ _ _ _ _ Hset). reflexivity.
Qed.

(** A transform run that returns: the volume it hands on, whose minimum
    and maximum are those of every tenth voxel of the output. *)
Lemma runProcessing_total (Math_pow : Q -> Q -> Q) (Math_exp : Q -> Q)
    (procMethod : ProcMethod) (param1 param2 : Q)
    (referenceVolume : option (VolumeData loc)) (volume : VolumeData loc)
    (s : store) (mn mx : Q) (d : tarray) :
  min volume = Fin mn -> max volume = Fin mx ->
  heap s !! data volume = Some d ->
  (procMethod = hist_match ->
   exists ref refMin refMax,
     referenceVolume = Some ref /\ min ref = Fin refMin
     /\ max ref = Fin refMax) ->
  let newData := length (heap s) in
  exists s',
    runProcessing Math_pow Math_exp procMethod param1 param2 referenceVolume
      volume s
    = (Ok (mkVolume (header volume) newData (dimensions volume)
             (running_min Infinity (tenth_samples (array_at s' newData)))
             (running_max NegInfinity (tenth_samples (array_at s' newData)))),
       s')
    /\ kind (array_at s' newData) = Float32
    /\ alen (array_at s' newData) = alen d
    /\ progress s' = 100%Q.
Proof.
  intros Hmin Hmax Hd Href newData.
  assert (Hlt := lookup_lt_Some _ _ _ Hd).
  destruct (dimensions volume) as [[width height] depth] eqn:Hdims.
  rewrite (runProcessing_eq _ _ _ _ _ _ _ _ mn mx d width height depth)
    by done.
  set (s0 := {| heap := heap s ++ [mkArr Float32 (elems d)]; progress := 0 |}).
  assert (shape s0 !! data volume = Some (kind d, length (elems d))) as Hsd.
  { apply shape_lookup. unfold s0. cbn [heap]. rewrite length_app.
    split; [lia|]. rewrite array_at_alloc_old by done.
    unfold array_at. by rewrite Hd. }
  assert (shape s0 !! newData = Some (Float32, length (elems d))) as Hsn.
  { apply shape_lookup. unfold s0, newData. cbn [heap].
    rewrite length_app. cbn [length]. split; [lia|].
    by rewrite array_at_alloc_new. }
  destruct (run_transform_returns Math_pow Math_exp procMethod param1 param2
              referenceVolume (data volume) newData width height depth mn mx
              (shape s0) (kind d) Float32 (length (elems d)) Hsd Hsn Href s0)
    as ([] & s1 & Hrun & Hs1); [done|].
  change (Z.of_nat (length (elems d))) with (alen d) in Hrun.
  rewrite (bind_Ok _ _ _ _ _ Hrun).
  apply (prefix_lookup_Some _ _ _ _ Hsn) in Hs1.
  apply shape_lookup in Hs1 as (Hl1 & Hk1 & Hn1).
  exists {| heap := heap s1; progress := 100 |}.
  change (array_at {| heap := heap s1; progress := 100 |} newData)
    with (array_at s1 newData).
  assert (alen (array_at s1 newData) = alen d) as Hal
    by (unfold alen, zlen; lia).
  split_and!; [|done|done|done].
  unfold tenth_samples. rewrite Hal, Hdims. reflexivity.
Qed.

(** X15: a transform run returns, whatever the method and its parameters, when
    the intensity range of the volume is finite and the histogram
    matching has its reference: no copy between the arrays fails.  The
    volume handed on has the header and the dimensions of the input, and
    its data is a fresh float array as long as the input. *)
Theorem runProcessing_returns (Math_pow : Q -> Q -> Q) (Math_exp : Q -> Q)
    (procMethod : ProcMethod) (param1 param2 : Q)
    (referenceVolume : option (VolumeData loc)) (volume : VolumeData loc)
    (s : store) (mn mx : Q) (d : tarray) :
  min volume = Fin mn -> max volume = Fin mx ->
  heap s !! data volume = Some d ->
  (procMethod = hist_match ->
   exists ref refMin refMax,
     referenceVolume = Some ref /\ min ref = Fin refMin
     /\ max ref = Fin refMax) ->
  exists out s',
    runProcessing Math_pow Math_exp procMethod param1 param2 referenceVolume
      volume s = (Ok out, s')
    /\ header out = header volume
    /\ dimensions out = dimensions volume
    /\ data out = length (heap s)
    /\ kind (array_at s' (data out)) = Float32
    /\ alen (array_at s' (data out)) = alen d
    /\ progress s' = 100%Q.
Proof.
  intros Hmin Hmax Hd Href.
  destruct (runProcessing_total Math_pow Math_exp procMethod param1 param2
              referenceVolume volume s mn mx d Hmin Hmax Hd Href)
    as (s' & Hrun & Hk & Hl & Hp).
  eexists _, s'. split; [exact Hrun|]. by cbn [header dimensions data].
Qed.

Lemma runProcessing_returns_witness :
  exists out s',
    runProcessing (fun x _ => x) (fun x => x) gaussian 1 (1 # 2) None
      (mkVolume (mkHeader [3; 4; 1; 1] [] 2) 0%nat (4, 1, 1) (Fin 0) (Fin 3))
      (mkStore [mkArr Uint8 [0; 1; 2; 3]%Q] 0)
    = (Ok out, s')
    /\ alen (array_at s' (data out)) = 4.
Proof.
  destruct (runProcessing_returns (fun x _ => x) (fun x => x) gaussian 1
    (1 # 2) None
    (mkVolume (mkHeader [3; 4; 1; 1] [] 2) 0%nat (4, 1, 1) (Fin 0) (Fin 3))
    (mkStore [mkArr Uint8 [0; 1; 2; 3]%Q] 0) 0%Q 3%Q
    (mkArr Uint8 [0; 1; 2; 3]%Q) eq_refl eq_refl eq_refl
    ltac:(discriminate))
    as (out & s' & Hrun & _ & _ & _ & _ & Hl & _).
  exists out, s'. split; [exact Hrun|exact Hl].
Defined.





(** X17: the histogram matching without a reference volume throws, after the
    output array has been made and before anything is written to it: the
    store then holds the arrays there were and a float copy of the
    input, and no volume is handed on. *)
Theorem runProcessing_reference_missing (Math_pow : Q -> Q -> Q)
    (Math_exp : Q -> Q) (param1 param2 : Q) (volume : VolumeData loc)
    (s : store) (mn mx : Q) (d : tarray) :
  min volume = Fin mn -> max volume = Fin mx ->
  heap s !! data volume = Some d ->
  runProcessing Math_pow Math_exp hist_match param1 param2 None volume s
  = (Threw "Reference volume missing",
     mkStore (heap s ++ [mkArr Float32 (elems d)]) 0).
Proof.
  intros Hmin Hmax Hd.
  destruct (dimensions volume) as [[width height] depth] eqn:Hdims.
  by rewrite (runProcessing_eq _ _ _ _ _ _ _ _ mn mx d width height depth).
Qed.

Lemma runProcessing_reference_missing_witness :
  runProcessing (fun x _ => x) (fun x => x) hist_match 1 (1 # 2) None
    (mkVolume (mkHeader [3; 2; 1; 1] [] 2) 0%nat (2, 1, 1) (Fin 0) (Fin 3))
    (mkStore [mkArr Uint8 [0; 3]%Q] 0)
  = (Threw "Reference volume missing",
     mkStore ([mkArr Uint8 [0; 3]%Q] ++ [mkArr Float32 [0; 3]%Q]) 0).
Proof.
  apply (runProcessing_reference_missing (fun x _ => x) (fun x => x) 1 (1 # 2)
    (mkVolume (mkHeader [3; 2; 1; 1] [] 2) 0%nat (2, 1, 1) (Fin 0) (Fin 3))
    (mkStore [mkArr Uint8 [0; 3]%Q] 0) 0%Q 3%Q (mkArr Uint8 [0; 3]%Q)
    eq_refl eq_refl eq_refl).
Defined.

(** ** The output of a transform, voxel by voxel *)





(** ** Gamma correction *)




(** ** Sigmoid contrast *)




(** ** Histogram matching *)





(** ** Bias field correction *)





(** ** Unsharp mask *)




(** ** The viewers: positions, strokes and the slice shown *)

Lemma pixel_under_range (t : Q) (n : Z) : 0 < n -> 0 <= pixel_under t n < n.
Proof. unfold pixel_under. lia. Qed.

Lemma handleWheel_range (maxSlice slice : Z) (deltaY : Q) (s : Z) :
  0 < maxSlice -> handleWheel maxSlice slice deltaY = Some s ->
  0 <= s < maxSlice.
Proof.
  unfold handleWheel. intros Hm. destruct (Qeq_bool deltaY 0); [done|].
  intros [= <-]. lia.
Qed.

Lemma viewer_event_in_volume (dimensions : Z * Z * Z) (tool : ViewportTool)
    (brushSize : Z) (pos : Position) (e : ViewerEvent) :
  (let '(dimX, dimY, dimZ) := dimensions in
   0 < dimX /\ 0 < dimY /\ 0 < dimZ) ->
  in_volume dimensions (pos_x pos) (pos_y pos) (pos_z pos) ->
  let r := viewer_event dimensions tool brushSize pos e in
  in_volume dimensions (pos_x r.1) (pos_y r.1) (pos_z r.1)
  /\ forall x y z val radius,
       r.2 = Some (x, y, z, val, radius) ->
       in_volume dimensions x y z
       /\ radius = brushSize
       /\ (tool = brush /\ val = 1%Q \/ tool = eraser /\ val = 0%Q).
Proof.
  destruct dimensions as [[dimX dimY] dimZ]. intros (HX & HY & HZ) Hpos.
  destruct pos as [px py pz]. cbn [pos_x pos_y pos_z] in Hpos.
  destruct Hpos as (Hx & Hy & Hz).
  destruct e as [o deltaY|o pressed x y]; cbn [viewer_event].
  - destruct (handleWheel _ _ _) as [s|] eqn:Hs; cbn [fst snd].
    + apply handleWheel_range in Hs; [|by destruct o].
      split; [|done]. by destruct o.
    + split; [done|done].
  - unfold handleMouseMove. destruct pressed; cbn [negb]; [|by split].
    pose proof (pixel_under_range x dimX HX).
    pose proof (pixel_under_range x dimY HY).
    pose proof (pixel_under_range y dimY HY).
    pose proof (pixel_under_range y dimZ HZ).
    destruct o, tool; cbn [image_size slice_of pos_x pos_y pos_z fst snd
                             onCrosshairChange in_volume];
      (split; [done|]); intros ? ? ? ? ? H'; simplify_eq;
      (split; [done|]); (split; [done|]); auto.
Qed.

(** X23: whatever the viewers are sent, the position they share stays on a
    voxel of the volume, and every stroke they ask for is centred on a
    voxel of the volume, has the size of the brush and the value of the
    tool: 1 for the brush, 0 for the eraser. *)
Theorem viewer_events_in_volume (dimensions : Z * Z * Z)
    (tool : ViewportTool) (brushSize : Z) (pos : Position)
    (es : list ViewerEvent) :
  (let '(dimX, dimY, dimZ) := dimensions in
   0 < dimX /\ 0 < dimY /\ 0 < dimZ) ->
  in_volume dimensions (pos_x pos) (pos_y pos) (pos_z pos) ->
  let r := viewer_events dimensions tool brushSize pos es in
  in_volume dimensions (pos_x r.1) (pos_y r.1) (pos_z r.1)
  /\ Forall (fun '(x, y, z, val, radius) =>
               in_volume dimensions x y z
               /\ radius = brushSize
               /\ (tool = brush /\ val = 1%Q \/ tool = eraser /\ val = 0%Q))
       r.2.
Proof.
  intros Hdims Hpos. unfold viewer_events.
  assert (forall strokes,
    Forall (fun '(x, y, z, val, radius) =>
              in_volume dimensions x y z
              /\ radius = brushSize
              /\ (tool = brush /\ val = 1%Q \/ tool = eraser /\ val = 0%Q))
      strokes ->
    let r := foldl (fun '(pos, strokes) e =>
                      let '(pos', stroke) :=
                        viewer_event dimensions tool brushSize pos e in
                      (pos', strokes ++ option_list stroke))
               (pos, strokes) es in
    in_volume dimensions (pos_x r.1) (pos_y r.1) (pos_z r.1)
    /\ Forall (fun '(x, y, z, val, radius) =>
                 in_volume dimensions x y z
                 /\ radius = brushSize
                 /\ (tool = brush /\ val = 1%Q \/ tool = eraser /\ val = 0%Q))
         r.2) as H; [|by apply H].
  revert pos Hpos. induction es as [|e es IH]; intros pos Hpos strokes Hs;
    [done|].
  cbn [foldl].
  pose proof (viewer_event_in_volume dimensions tool brushSize pos e Hdims Hpos)
    as [Hpos' Hstroke].
  destruct (viewer_event dimensions tool brushSize pos e) as [pos' stroke].
  cbn [fst snd] in *. apply IH; [done|].
  apply Forall_app. split; [done|].
  destruct stroke as [[[[[x y] z] val] radius]|]; [|done].
  apply Forall_singleton. by apply Hstroke.
Qed.

(** The walk, pixel by pixel: the pixel [k] of the bitmap, in the row
    [k / width] and the column [k mod width], reads the volume at
    [origin + (k / width) * yStride + (k mod width) * xStride]. *)
Lemma row_walk (walk : list Z) (start xStride : Z) (n : nat) (c : Z) :
  foldl (fun '(walk, volIdx) (u : Z) => (walk ++ [volIdx], volIdx + xStride))
    (walk, start + c * xStride) (seqZ c (Z.of_nat n))
  = (walk ++ ((fun u => start + u * xStride) <$> seqZ c (Z.of_nat n)),
     start + (c + Z.of_nat n) * xStride).
Proof.
  revert walk c. induction n as [|n IH]; intros walk c.
  { change (Z.of_nat 0) with 0. rewrite seqZ_nil by lia.
    cbn [foldl fmap list_fmap]. rewrite app_nil_r. f_equal. lia. }
  rewrite seqZ_cons by lia. cbn [foldl fmap list_fmap].
  replace (Z.pred (Z.of_nat (S n))) with (Z.of_nat n) by lia.
  replace (start + c * xStride + xStride) with (start + Z.succ c * xStride)
    by lia.
  rewrite IH, <- app_assoc. cbn. f_equal. lia.
Qed.

Lemma slice_walk_rows (width height origin xStride yStride : Z) :
  slice_walk width height origin xStride yStride
  = v ← seqZ 0 height;
    (fun u => origin + v * yStride + u * xStride) <$> seqZ 0 width.
Proof.
  unfold slice_walk.
  destruct (Z.le_gt_cases width 0) as [Hw|Hw].
  { rewrite (seqZ_nil 0 width) by lia. cbn [foldl fmap list_fmap].
    assert (forall (l : list Z) (walk : list Z) (row : Z),
      (foldl (fun '(walk, currentVolIdxRow) (_ : Z) =>
                (walk, currentVolIdxRow + yStride)) (walk, row) l).1 = walk)
      as H1.
    { induction l as [|v l IH]; intros walk row; [done|]. cbn. apply IH. }
    assert (forall l : list Z, l ≫= (fun _ : Z => @nil Z) = []) as H2.
    { induction l as [|v l IH]; [done|]. cbn. exact IH. }
    by rewrite H1, H2. }
  assert (forall (n : nat) (c : Z) (walk : list Z),
    (foldl (fun '(walk, currentVolIdxRow) (v : Z) =>
              let '(walk, _) :=
                foldl (fun '(walk, volIdx) (u : Z) =>
                         (walk ++ [volIdx], volIdx + xStride))
                  (walk, currentVolIdxRow) (seqZ 0 width) in
              (walk, currentVolIdxRow + yStride))
       (walk, origin + c * yStride) (seqZ c (Z.of_nat n))).1
    = walk ++ (v ← seqZ c (Z.of_nat n);
               (fun u => origin + v * yStride + u * xStride) <$> seqZ 0 width))
    as H.
  { induction n as [|n IH]; intros c walk; [by rewrite app_nil_r|].
    rewrite (seqZ_cons c) by lia. cbn [foldl mbind list_bind].
    replace (Z.pred (Z.of_nat (S n))) with (Z.of_nat n) by lia.
    pose proof (row_walk walk (origin + c * yStride) xStride
                  (Z.to_nat width) 0) as Hrow.
    rewrite Z.mul_0_l, Z.add_0_r, Z2Nat.id in Hrow by lia.
    rewrite Hrow.
    replace (origin + c * yStride + yStride)
      with (origin + Z.succ c * yStride) by lia.
    by rewrite IH, <- app_assoc. }
  destruct (Z.le_gt_cases height 0) as [Hh|Hh].
  { by rewrite (seqZ_nil 0 height) by lia. }
  specialize (H (Z.to_nat height) 0 []).
  rewrite Z.mul_0_l, Z.add_0_r, Z2Nat.id in H by lia. exact H.
Qed.

Lemma bind_seqZ_1 {A} (k : Z) (g : Z -> list A) : seqZ k 1 ≫= g = g k.
Proof.
  rewrite seqZ_cons by lia. rewrite seqZ_nil by lia. cbn.
  by rewrite app_nil_r.
Qed.

Lemma bind_rows_lookup (f : Z -> Z -> Z) (width : Z) (h : nat) (u v : Z) :
  0 < width -> 0 <= u < width -> 0 <= v < Z.of_nat h ->
  (r ← seqZ 0 (Z.of_nat h); (fun c => f r c) <$> seqZ 0 width)
    !! Z.to_nat (v * width + u) = Some (f v u).
Proof.
  intros Hw Hu. revert v. induction h as [|h IH]; intros v Hv; [lia|].
  replace (Z.of_nat (S h)) with (Z.of_nat h + 1) by lia.
  rewrite seqZ_app by lia. rewrite bind_app.
  assert (length (r ← seqZ 0 (Z.of_nat h); (fun c => f r c) <$> seqZ 0 width)
          = Z.to_nat (Z.of_nat h * width)) as Hlen.
  { clear. induction h as [|h IH]; [done|].
    replace (Z.of_nat (S h)) with (Z.of_nat h + 1) by lia.
    rewrite seqZ_app by lia. rewrite bind_app, length_app, IH.
    rewrite bind_seqZ_1, length_fmap, length_seqZ. nia. }
  destruct (decide (v < Z.of_nat h)) as [Hlt|Hge].
  - rewrite lookup_app_l by (rewrite Hlen; nia). apply IH. lia.
  - assert (v = Z.of_nat h) as -> by lia.
    rewrite lookup_app_r by (rewrite Hlen; nia). rewrite Hlen.
    replace (Z.to_nat (Z.of_nat h * width + u) - Z.to_nat (Z.of_nat h * width))%nat
      with (Z.to_nat u) by nia.
    rewrite bind_seqZ_1, list_lookup_fmap, lookup_seqZ_lt by lia.
    cbn. do 2 f_equal. lia.
Qed.

Lemma bind_rows_length (f : Z -> Z -> Z) (width height : Z) :
  0 <= width -> 0 <= height ->
  zlen (r ← seqZ 0 height; (fun c => f r c) <$> seqZ 0 width)
  = width * height.
Proof.
  intros Hw Hh. replace height with (Z.of_nat (Z.to_nat height)) by lia.
  generalize (Z.to_nat height) as h. clear Hh height. unfold zlen.
  induction h as [|h IH].
  { change (Z.of_nat 0) with 0. rewrite (seqZ_nil 0 0) by lia.
    cbn [mbind list_bind length]. lia. }
  replace (Z.of_nat (S h)) with (Z.of_nat h + 1) by lia.
  rewrite seqZ_app by lia. rewrite bind_app, length_app.
  rewrite bind_seqZ_1, length_fmap, length_seqZ. lia.
Qed.

Lemma bind_rows_elem_of (f : Z -> Z -> Z) (width height i : Z) :
  i ∈ (r ← seqZ 0 height; (fun c => f r c) <$> seqZ 0 width)
  <-> exists u v, 0 <= u < width /\ 0 <= v < height /\ i = f v u.
Proof.
  rewrite list_elem_of_bind. split.
  - intros (v & (u & -> & Hu%elem_of_seqZ)%list_elem_of_fmap & Hv%elem_of_seqZ).
    exists u, v. split; [lia|]. split; [lia|done].
  - intros (u & v & Hu & Hv & ->). exists v. split.
    + apply list_elem_of_fmap. exists u. split; [done|].
      apply elem_of_seqZ. lia.
    + apply elem_of_seqZ. lia.
Qed.

Lemma viewer_events_in_volume_witness :
  let r := viewer_events (4, 3, 2) brush 5 (mkPosition 0 0 0)
             [Wheel Axial 1; MouseMove Coronal true (1 # 2) (1 # 2)] in
  in_volume (4, 3, 2) (pos_x r.1) (pos_y r.1) (pos_z r.1).
Proof.
  apply (viewer_events_in_volume (4, 3, 2) brush 5 (mkPosition 0 0 0)
           [Wheel Axial 1; MouseMove Coronal true (1 # 2) (1 # 2)]).
  - cbn. lia.
  - cbn. lia.
Defined.

Lemma slice_walk_lookup (width height origin xStride yStride u v : Z) :
  0 < width -> 0 <= u < width -> 0 <= v < height ->
  slice_walk width height origin xStride yStride !! Z.to_nat (v * width + u)
  = Some (origin + v * yStride + u * xStride).
Proof.
  intros Hw Hu Hv. rewrite slice_walk_rows.
  pose proof (bind_rows_lookup
                (fun v u => origin + v * yStride + u * xStride)
                width (Z.to_nat height) u v Hw Hu ltac:(lia)) as H.
  by rewrite Z2Nat.id in H by lia.
Qed.

Lemma shown_voxel_walk (orientation : Orientation) (dimX dimY dimZ : Z)
    (slice u v : Z) :
  let '(width, height, origin, xStride, yStride) :=
    slice_geometry orientation (dimX, dimY, dimZ) slice in
  origin + v * yStride + u * xStride
  = flat_index (dimX, dimY, dimZ)
      (shown_voxel orientation (dimX, dimY, dimZ) slice u v).
Proof. destruct orientation; cbn; lia. Qed.

Lemma shown_voxel_in_volume (orientation : Orientation) (dimX dimY dimZ : Z)
    (slice u v : Z) :
  0 <= slice < maxSlice_of orientation (dimX, dimY, dimZ) ->
  0 <= u < (image_size orientation (dimX, dimY, dimZ)).1 ->
  0 <= v < (image_size orientation (dimX, dimY, dimZ)).2 ->
  let '(x, y, z) := shown_voxel orientation (dimX, dimY, dimZ) slice u v in
  in_volume (dimX, dimY, dimZ) x y z.
Proof. destruct orientation; cbn; lia. Qed.

Lemma shown_voxel_inj (orientation : Orientation) (dimensions : Z * Z * Z)
    (slice u v u' v' : Z) :
  shown_voxel orientation dimensions slice u v
  = shown_voxel orientation dimensions slice u' v' -> u = u' /\ v = v'.
Proof.
  destruct dimensions as [[dimX dimY] dimZ].
  destruct orientation; cbn; intros [= ? ?]; lia.
Qed.

(** X24: the bitmap of a slice of the volume shows the voxels of that plane,
    each one once: the pixel in the column [u] and the row [v] reads the
    voxel [(u, dimY - 1 - v, slice)] in the axial viewer, whose rows are
    mirrored, [(u, slice, v)] in the coronal and [(slice, u, v)] in the
    sagittal one, and no pixel reads outside the volume. *)
Theorem slice_walk_shows (orientation : Orientation) (dimX dimY dimZ : Z)
    (slice : Z) :
  0 < dimX -> 0 < dimY -> 0 < dimZ ->
  0 <= slice < maxSlice_of orientation (dimX, dimY, dimZ) ->
  let '(width, height, origin, xStride, yStride) :=
    slice_geometry orientation (dimX, dimY, dimZ) slice in
  let walk := slice_walk width height origin xStride yStride in
  (width, height) = image_size orientation (dimX, dimY, dimZ)
  /\ zlen walk = width * height
  /\ (forall u v, 0 <= u < width -> 0 <= v < height ->
        walk !! Z.to_nat (v * width + u)
        = Some (flat_index (dimX, dimY, dimZ)
                  (shown_voxel orientation (dimX, dimY, dimZ) slice u v)))
  /\ Forall (fun i => 0 <= i < dimX * dimY * dimZ) walk
  /\ NoDup walk.
Proof.
  intros HX HY HZ Hslice.
  pose proof (shown_voxel_walk orientation dimX dimY dimZ slice) as Hwalk.
  pose proof (shown_voxel_in_volume orientation dimX dimY dimZ slice) as Hin.
  assert ((slice_geometry orientation (dimX, dimY, dimZ) slice).1.1.1.1
          = (image_size orientation (dimX, dimY, dimZ)).1
          /\ (slice_geometry orientation (dimX, dimY, dimZ) slice).1.1.1.2
             = (image_size orientation (dimX, dimY, dimZ)).2) as [Hw Hh]
    by (by destruct orientation).
  destruct (slice_geometry orientation (dimX, dimY, dimZ) slice)
    as [[[[width height] origin] xStride] yStride].
  cbn [fst snd] in Hw, Hh.
  assert (0 < width /\ 0 < height) as [Hwp Hhp].
  { rewrite Hw, Hh. destruct orientation; cbn; lia. }
  cbv zeta. rewrite slice_walk_rows.
  set (f := fun v u => origin + v * yStride + u * xStride).
  change (seqZ 0 height ≫= _)
    with (r ← seqZ 0 height; (fun c => f r c) <$> seqZ 0 width).
  assert (forall u v, 0 <= u < width -> 0 <= v < height ->
            f v u = flat_index (dimX, dimY, dimZ)
                      (shown_voxel orientation (dimX, dimY, dimZ) slice u v)
            /\ 0 <= f v u < dimX * dimY * dimZ) as Hf.
  { intros u v Hu Hv. unfold f. rewrite Hwalk. split; [done|].
    specialize (Hin u v Hslice ltac:(lia) ltac:(lia)).
    destruct (shown_voxel _ _ _ _ _) as [[x y] z].
    unfold flat_index, in_volume in *. destruct Hin as (? & ? & ?).
    by apply idx_bounds. }
  split_and!.
  - rewrite Hw, Hh. symmetry. apply surjective_pairing.
  - apply (bind_rows_length f); lia.
  - intros u v Hu Hv.
    pose proof (bind_rows_lookup f width (Z.to_nat height) u v) as Hl.
    rewrite Z2Nat.id in Hl by lia. rewrite Hl by lia.
    f_equal. by apply Hf.
  - apply Forall_forall. intros i (u & v & Hu & Hv & ->)%bind_rows_elem_of.
    by apply Hf.
  - apply NoDup_alt. intros i j k Hi Hj.
    pose proof (lookup_lt_Some _ _ _ Hi) as Hil.
    pose proof (lookup_lt_Some _ _ _ Hj) as Hjl.
    pose proof (bind_rows_length f width height ltac:(lia) ltac:(lia)) as Hlen.
    unfold zlen in Hlen.
    assert (forall n : nat, Z.of_nat n < width * height ->
              0 <= Z.of_nat n mod width < width
              /\ 0 <= Z.of_nat n / width < height
              /\ n = Z.to_nat (Z.of_nat n / width * width
                               + Z.of_nat n mod width)) as Hsplit.
    { intros n Hn. pose proof (Z.mod_pos_bound (Z.of_nat n) width Hwp).
      pose proof (Z.div_mod (Z.of_nat n) width ltac:(lia)).
      split; [done|]. split.
      - split; [apply Z.div_pos; lia|]. apply Z.div_lt_upper_bound; lia.
      - lia. }
    assert (Z.of_nat i < width * height) as Hib
      by (rewrite <- Hlen; apply inj_lt; exact Hil).
    assert (Z.of_nat j < width * height) as Hjb
      by (rewrite <- Hlen; apply inj_lt; exact Hjl).
    destruct (Hsplit i Hib) as (Hiu & Hiv & Hi').
    destruct (Hsplit j Hjb) as (Hju & Hjv & Hj').
    rewrite Hi' in Hi. rewrite Hj' in Hj.
    pose proof (bind_rows_lookup f width (Z.to_nat height)
                  (Z.of_nat i mod width) (Z.of_nat i / width) Hwp Hiu
                  ltac:(lia)) as Hli.
    pose proof (bind_rows_lookup f width (Z.to_nat height)
                  (Z.of_nat j mod width) (Z.of_nat j / width) Hwp Hju
                  ltac:(lia)) as Hlj.
    rewrite Z2Nat.id in Hli, Hlj by lia.
    rewrite Hli in Hi. rewrite Hlj in Hj.
    destruct (Hf _ _ Hiu Hiv) as [Hfi _]. destruct (Hf _ _ Hju Hjv) as [Hfj _].
    assert (shown_voxel orientation (dimX, dimY, dimZ) slice
              (Z.of_nat i mod width) (Z.of_nat i / width)
            = shown_voxel orientation (dimX, dimY, dimZ) slice
                (Z.of_nat j mod width) (Z.of_nat j / width)) as Heq.
    { pose proof (Hin (Z.of_nat i mod width) (Z.of_nat i / width) Hslice
                    ltac:(lia) ltac:(lia)) as Hini.
      pose proof (Hin (Z.of_nat j mod width) (Z.of_nat j / width) Hslice
                    ltac:(lia) ltac:(lia)) as Hinj.
      assert (flat_index (dimX, dimY, dimZ)
                (shown_voxel orientation (dimX, dimY, dimZ) slice
                   (Z.of_nat i mod width) (Z.of_nat i / width))
              = flat_index (dimX, dimY, dimZ)
                  (shown_voxel orientation (dimX, dimY, dimZ) slice
                     (Z.of_nat j mod width) (Z.of_nat j / width))) as Hflat
        by congruence.
      destruct (shown_voxel _ _ _ (Z.of_nat i mod width) _) as [[x y] z].
      destruct (shown_voxel _ _ _ (Z.of_nat j mod width) _) as [[x' y'] z'].
      unfold flat_index, in_volume in *.
      destruct (idx_inj dimX dimY x y z x' y' z') as (-> & -> & ->);
        [lia..|done]. }
    apply shown_voxel_inj in Heq as [Hu Hv]. lia.
Qed.

Lemma slice_walk_shows_witness :
  NoDup (slice_walk 4 3 (1 * (4 * 3) + (3 - 1) * 4) 1 (- 4)).
Proof.
  pose proof (slice_walk_shows Axial 4 3 2 1 ltac:(lia) ltac:(lia) ltac:(lia)
                ltac:(cbn; lia)) as H.
  cbn [slice_geometry] in H. apply H.
Defined.

(** X25: the voxel on which a stroke is centred and the voxel shown under the
    mouse: in the coronal and the sagittal viewer they are the same; in
    the axial viewer, whose bitmap has its rows mirrored, the stroke is
    centred on the voxel shown in the mirrored row [height - 1 - v]. *)
Theorem stroke_centre_shown (orientation : Orientation) (dimX dimY dimZ : Z)
    (slice : Z) (tool : ViewportTool) (brushSize : Z) (x y : Q)
    (vx vy vz : Z) (val : Q) (radius : Z) :
  0 < dimX -> 0 < dimY -> 0 < dimZ ->
  0 <= slice < maxSlice_of orientation (dimX, dimY, dimZ) ->
  handleMouseMove orientation (dimX, dimY, dimZ) slice tool brushSize true x y
  = Some (Draw vx vy vz val radius) ->
  let '(width, height, origin, xStride, yStride) :=
    slice_geometry orientation (dimX, dimY, dimZ) slice in
  let u := pixel_under x width in
  let v := pixel_under y height in
  let row := match orientation with Axial => height - 1 - v | _ => v end in
  in_volume (dimX, dimY, dimZ) vx vy vz
  /\ slice_walk width height origin xStride yStride
       !! Z.to_nat (row * width + u)
     = Some (flat_index (dimX, dimY, dimZ) (vx, vy, vz)).
Proof.
  intros HX HY HZ Hslice Hmove.
  pose proof (pixel_under_range x dimX HX).
  pose proof (pixel_under_range x dimY HY).
  pose proof (pixel_under_range y dimY HY).
  pose proof (pixel_under_range y dimZ HZ).
  unfold handleMouseMove in Hmove. cbn [negb] in Hmove.
  destruct orientation; cbn [image_size slice_geometry maxSlice_of] in *;
    cbv zeta; destruct tool; simplify_eq;
    (split; [unfold in_volume; lia|]);
    rewrite slice_walk_lookup by lia; f_equal; unfold flat_index; lia.
Qed.

Lemma stroke_centre_shown_witness :
  slice_walk 4 3 (1 * (4 * 3) + (3 - 1) * 4) 1 (- 4)
    !! Z.to_nat ((3 - 1 - pixel_under (1 # 2) 3) * 4 + pixel_under (1 # 2) 4)
  = Some (flat_index (4, 3, 2)
            (pixel_under (1 # 2) 4, pixel_under (1 # 2) 3, 1)).
Proof.
  apply (stroke_centre_shown Axial 4 3 2 1 brush 5 (1 # 2) (1 # 2)
           (pixel_under (1 # 2) 4) (pixel_under (1 # 2) 3) 1 1%Q 5
           ltac:(lia) ltac:(lia) ltac:(lia) ltac:(cbn; lia) eq_refl).
Defined.

(** ** The volume of a DICOM series *)

Lemma copy_step_shape (pixels : list Q) (offset : Z) (st : tarray * ext * ext)
    (j : Z) :
  kind (copy_step pixels offset st j).1.1 = kind st.1.1
  /\ alen (copy_step pixels offset st j).1.1 = alen st.1.1.
Proof.
  destruct st as [[data mn] mx]. unfold copy_step.
  destruct (zget pixels j); [|done]. cbn [fst]. unfold aset, alen.
  cbn [kind elems]. split; [done|]. by rewrite zset_length.
Qed.

Lemma copy_image_shape (st : tarray * ext * ext * Z) (img : DicomImage) :
  kind (copy_image st img).1.1.1 = kind st.1.1.1
  /\ alen (copy_image st img).1.1.1 = alen st.1.1.1.
Proof.
  destruct st as [[[data mn] mx] offset]. unfold copy_image.
  generalize (seqZ 0 (zlen (getInterpretedData img))) as l.
  assert (forall l st',
    kind (foldl (copy_step (getInterpretedData img) offset) st' l).1.1
    = kind st'.1.1
    /\ alen (foldl (copy_step (getInterpretedData img) offset) st' l).1.1
       = alen st'.1.1) as H.
  { induction l as [|j l IH]; intros st'; [done|]. cbn [foldl].
    destruct (IH (copy_step (getInterpretedData img) offset st' j)) as [-> ->].
    apply copy_step_shape. }
  intros l. specialize (H l (data, mn, mx)).
  by destruct (foldl _ _ l) as [[data' mn'] mx'].
Qed.

Lemma copy_images_shape (images : list DicomImage) (st : tarray * ext * ext * Z) :
  kind (foldl copy_image st images).1.1.1 = kind st.1.1.1
  /\ alen (foldl copy_image st images).1.1.1 = alen st.1.1.1.
Proof.
  revert st. induction images as [|img images IH]; intros st; [done|].
  cbn [foldl]. destruct (IH (copy_image st img)) as [-> ->].
  apply copy_image_shape.
Qed.

(** X26: a series that has an image gives a volume, and the volume keeps the
    invariant of the data model, whatever the number of pixels in each
    image: its data has [cols * rows * depth] elements, for the rows and
    columns of the first image and as many slices as there are images. *)
Theorem parseDicomFiles_well_formed (images : list DicomImage) :
  (parseDicomFiles images = None <-> images = [])
  /\ forall first rest,
       images = first :: rest -> 0 <= getRows first -> 0 <= getCols first ->
       exists out,
         parseDicomFiles images = Some out
         /\ well_formed out
         /\ kind (data out) = Float32
         /\ dimensions out = (getCols first, getRows first, zlen images)
         /\ datatypeCode (header out) = 16.
Proof.
  split.
  - destruct images as [|first rest]; [done|]. split; [|done].
    unfold parseDicomFiles. cbv zeta.
    by destruct (foldl copy_image _ _) as [[[data mn] mx] offset].
  - intros first rest -> Hrows Hcols. unfold parseDicomFiles. cbv zeta.
    set (images := first :: rest).
    pose proof (copy_images_shape images
      (new_array Float32 (getRows first * getCols first * zlen images),
       Infinity, NegInfinity, 0)) as [Hk Hl].
    destruct (foldl copy_image _ images) as [[[arr mn] mx] offset].
    cbn [fst] in Hk, Hl. eexists. split; [reflexivity|].
    unfold well_formed. cbn [dimensions data header datatypeCode].
    split_and!; [|done..]. rewrite Hl, alen_new_array; [lia|].
    unfold zlen. nia.
Qed.

Lemma parseDicomFiles_well_formed_witness :
  exists out,
    parseDicomFiles [mkImage 1 2 [3; 5]%Q None None;
                     mkImage 1 2 [7; 1]%Q None None] = Some out
    /\ well_formed out.
Proof.
  destruct (parseDicomFiles_well_formed
              [mkImage 1 2 [3; 5]%Q None None; mkImage 1 2 [7; 1]%Q None None])
    as [_ H].
  destruct (H _ _ eq_refl ltac:(cbn; lia) ltac:(cbn; lia))
    as (out & Hout & Hwf & _).
  exists out. split; [exact Hout|exact Hwf].
Defined.

(** The copy of the pixels of an image that fits: they come after what
    was copied before. *)
Lemma copy_pixels_prefix (pixels pre : list Q) (m k : nat) (mn mx : ext) :
  (k <= length pixels)%nat -> (length pixels <= m)%nat ->
  foldl (copy_step pixels (zlen pre))
    (mkArr Float32 (pre ++ replicate m 0%Q), mn, mx) (seqZ 0 (Z.of_nat k))
  = (mkArr Float32 ((pre ++ take k pixels) ++ replicate (m - k) 0%Q),
     running_min mn (take k pixels), running_max mx (take k pixels)).
Proof.
  intros Hk Hm. induction k as [|k IH].
  { cbn. by rewrite app_nil_r, Nat.sub_0_r. }
  rewrite seqZ_S, foldl_app, IH by lia. clear IH. cbn [foldl copy_step].
  rewrite Z.add_0_l, zget_of_nat.
  destruct (lookup_lt_is_Some_2 pixels k) as [val Hval]; [lia|].
  rewrite Hval, (take_S_r _ _ _ Hval).
  unfold running_min, running_max. rewrite !foldl_app. cbn [foldl].
  do 2 f_equal. unfold aset. cbn [kind elems coerce]. f_equal.
  assert (zlen pre + Z.of_nat k = Z.of_nat (length (pre ++ take k pixels)))
    as ->.
  { unfold zlen. rewrite length_app, length_take. lia. }
  rewrite zset_of_nat.
  replace (m - k)%nat with (S (m - S k)) by lia.
  rewrite insert_prefix_replicate. by rewrite <- !app_assoc.
Qed.

Lemma running_min_app (m : ext) (l k : list Q) :
  running_min m (l ++ k) = running_min (running_min m l) k.
Proof. unfold running_min. by rewrite foldl_app. Qed.

Lemma running_max_app (m : ext) (l k : list Q) :
  running_max m (l ++ k) = running_max (running_max m l) k.
Proof. unfold running_max. by rewrite foldl_app. Qed.

Lemma copy_images_prefix (images : list DicomImage) (size : Z) (pre : list Q)
    (m : nat) (mn mx : ext) :
  Forall (fun img => zlen (getInterpretedData img) = size) images ->
  0 <= size -> (length images * Z.to_nat size <= m)%nat ->
  let voxels := concat (getInterpretedData <$> images) in
  foldl copy_image (mkArr Float32 (pre ++ replicate m 0%Q), mn, mx, zlen pre)
    images
  = (mkArr Float32
       ((pre ++ voxels) ++ replicate (m - length images * Z.to_nat size) 0%Q),
     running_min mn voxels, running_max mx voxels, zlen (pre ++ voxels)).
Proof.
  intros Hall Hsize. revert pre m mn mx.
  induction images as [|img images IH]; intros pre m mn mx Hm voxels.
  { cbn. by rewrite !app_nil_r, Nat.sub_0_r. }
  apply Forall_cons in Hall as [Himg Hall]. cbn [foldl copy_image].
  set (pixels := getInterpretedData img) in *.
  assert (length pixels = Z.to_nat size) as Hlen
    by (unfold zlen in Himg; lia).
  cbn [length] in Hm.
  pose proof (copy_pixels_prefix pixels pre m (length pixels) mn mx
                ltac:(lia) ltac:(lia)) as Hcopy.
  rewrite firstn_all in Hcopy. unfold zlen at 1 2. fold (zlen pre).
  rewrite Hcopy. cbv beta iota zeta.
  replace (zlen pre + zlen pixels) with (zlen (pre ++ pixels))
    by (unfold zlen; rewrite length_app; lia).
  rewrite IH by (done || lia).
  subst voxels. cbn [fmap list_fmap concat]. fold pixels.
  rewrite running_min_app, running_max_app, <- !app_assoc.
  replace (m - length pixels - length images * Z.to_nat size)%nat
    with (m - length (img :: images) * Z.to_nat size)%nat
    by (cbn [length]; lia).
  done.
Qed.

(** X27: when every image has as many pixels as its rows and columns say, the
    volume is the stack of the images, in their order, and its minimum
    and maximum are taken over all of its voxels: they are voxels of the
    volume and bound every voxel. *)
Theorem parseDicomFiles_stack (first : DicomImage) (rest : list DicomImage) :
  0 <= getRows first -> 0 <= getCols first ->
  Forall (fun img => zlen (getInterpretedData img)
                     = getRows first * getCols first) (first :: rest) ->
  exists out,
    parseDicomFiles (first :: rest) = Some out
    /\ elems (data out) = concat (getInterpretedData <$> first :: rest)
    /\ (elems (data out) = [] -> min out = Infinity /\ max out = NegInfinity)
    /\ (elems (data out) <> [] ->
        exists lo hi,
          min out = Fin lo /\ max out = Fin hi
          /\ lo ∈ elems (data out) /\ hi ∈ elems (data out)
          /\ forall v, v ∈ elems (data out) -> (lo <= v <= hi)%Q).
Proof.
  intros Hrows Hcols Hall. unfold parseDicomFiles. cbv zeta.
  set (images := first :: rest) in *.
  set (size := getRows first * getCols first) in *.
  assert (0 <= size) as Hsize by (unfold size; nia).
  pose proof (copy_images_prefix images size [] (Z.to_nat (size * zlen images))
                Infinity NegInfinity Hall Hsize
                ltac:(unfold zlen; nia)) as Hcopy.
  cbv zeta in Hcopy. cbn [app] in Hcopy.
  change (zlen []) with 0 in Hcopy.
  assert (new_array Float32 (size * zlen images)
          = mkArr Float32 (replicate (Z.to_nat (size * zlen images)) 0%Q))
    as -> by done.
  rewrite Hcopy.
  replace (Z.to_nat (size * zlen images) - length images * Z.to_nat size)%nat
    with 0%nat by (unfold zlen; nia).
  cbn [replicate]. rewrite app_nil_r.
  set (voxels := concat (getInterpretedData <$> images)).
  eexists. split; [reflexivity|]. cbn [data elems min max].
  split; [done|].
  pose proof (running_min_spec voxels Infinity) as Hlo.
  pose proof (running_max_spec voxels NegInfinity) as Hhi.
  split.
  - by intros ->.
  - intros Hne.
    destruct (running_min Infinity voxels) as [|lo|];
      [done| |by destruct Hlo].
    destruct (running_max NegInfinity voxels) as [|hi|];
      [by destruct Hhi| |done].
    destruct Hlo as (_ & [?|Hlo_in] & Hlo_le & _); [done|].
    destruct Hhi as (_ & [?|Hhi_in] & Hhi_le & _); [done|].
    exists lo, hi. split_and!; [done..|]. intros v Hv. split; auto.
Qed.

Lemma parseDicomFiles_stack_witness :
  exists out,
    parseDicomFiles [mkImage 1 2 [3; 5]%Q None None;
                     mkImage 1 2 [7; 1]%Q None None] = Some out
    /\ elems (data out) = [3; 5; 7; 1]%Q.
Proof.
  destruct (parseDicomFiles_stack (mkImage 1 2 [3; 5]%Q None None)
              [mkImage 1 2 [7; 1]%Q None None]
              ltac:(cbn; lia) ltac:(cbn; lia)
              ltac:(by repeat constructor))
    as (out & Hout & Helems & _).
  exists out. split; [exact Hout|exact Helems].
Defined.

(** ** The scenarios of the specification, run on the model *)

(** A two-cluster histogram (40 samples in bin 10, 60 in bin 200): Otsu's
    threshold is the first bin that separates the clusters. *)
Example otsu_bimodal :
  computeOtsuThreshold
    (<[10%nat := 40]> (<[200%nat := 60]> (replicate 256 0))) 100 = 10.
Proof. by vm_compute. Qed.

(** The 4x4x4 ramp 0..63 with the binary threshold 32: exactly the 32
    voxels with a value of at least 32 are labelled. *)
Example binary_ramp :
  exists segVol s',
    runSegmentation binary 32 63
      (mkVolume (mkHeader [3; 4; 4; 4] [] 2) 0%nat (4, 4, 4) (Fin 0) (Fin 63))
      (mkStore [mkArr Uint8 (inject_Z <$> seqZ 0 64)] 0)
    = (Ok (Some segVol), s')
    /\ elems (array_at s' (data segVol))
       = replicate 32 0%Q ++ replicate 32 1%Q.
Proof. eexists _, _. split; by vm_compute. Qed.

(** Painting with radius 1 at the centre of a 3x3x3 mask of zeros sets
    the centre and its six face neighbours. *)
Example paint_radius_1 :
  elems (paint_sphere 3 3 3 1 1 1 1%Q 1 (new_array Uint8 27))
  = [0; 0; 0; 0; 1; 0; 0; 0; 0;
     0; 1; 0; 1; 1; 1; 0; 1; 0;
     0; 0; 0; 0; 1; 0; 0; 0; 0]%Q.
Proof. by vm_compute. Qed.

(** The difference of the volumes 1, 2 and 3, 5. *)
Example difference_small :
  computeVolumeDifference
    (mkVolume (mkHeader [3; 2; 1; 1] [] 4) (mkArr Int16 [1; 2]%Q) (2, 1, 1)
       (Fin 1) (Fin 2))
    (mkVolume (mkHeader [3; 2; 1; 1] [] 4) (mkArr Int16 [3; 5]%Q) (2, 1, 1)
       (Fin 3) (Fin 5))
  = Some (mkVolume (mkHeader [3; 2; 1; 1] [] 16)
            (mkArr Float32 [3 - 1; 5 - 2]%Q) (2, 1, 1)
            (Fin (3 - 1)) (Fin (5 - 2))).
Proof. reflexivity. Qed.
